(** * Matrix-free Conjugate Gradient solvers of [demo_poisson_matrix_free]

    A shallow embedding of the hand-written CG code of
    [python/demo_poisson_matrix_free.ipynb]:

    - [cg], the loop over PETSc vectors (variant 1);
    - [converged], the convergence callback installed on the KSP objects;
    - [Poisson.mult], [CustomKSP.converged] and [CG.solve], the solver
      plugged into the KSP framework (variant 3).

    The operator callable [action_A] of the notebook assembles a finite
    element form; the solvers only call it, and here it is an argument of
    each of them.  The notebook's own [action_A] is embedded as well, with
    what the form assembles from its coefficient as the parameter
    [assemble_M], and [fem.set_bc] on one Dirichlet condition.

    Scalars are Python floats, that is IEEE binary64 numbers (a real build
    of PETSc): they are Rocq's primitive floats, so every run of the model
    can be evaluated.  The one operation that Python hands to the C
    library, the power in [rtol**2], is a parameter of the embedding.

    PETSc vectors are mutable objects that the functions share by
    reference: a vector is a location in a store, and every method of [Vec]
    reads or writes the store.  An exception leaves the store as it was
    when it was raised, as in Python.

    The vectors live on one MPI rank: a dot product is the local one, summed
    from the first entry on, and a ghost update moves nothing.  Every PETSc
    operation on two vectors first checks that they have one size. *)

From Stdlib Require Import ZArith List Lia Bool.
From Stdlib Require Import Floats.
From stdpp Require Import base list.

Set Warnings "-inexact-float".

Local Open Scope Z_scope.

(** ** Python exceptions and floats *)

Inductive exn : Type :=
| ZeroDivisionError   (* float division by zero *)
| OverflowError       (* float ** int out of range *)
| IndexError          (* subscript of an empty history *)
| PetscError          (* PETSc: vectors of incompatible sizes *)
| InvalidHandle.      (* a location outside the store; no Python value is one *)

Inductive outcome (A : Type) : Type :=
| Return (a : A)
| Raise (e : exn).
Arguments Return {A} a.
Arguments Raise {A} e.

(** [a / b] on two Python floats: a zero divisor (of either sign) raises,
    every other case is the IEEE quotient. *)
Definition float_truediv (a b : float) : outcome float :=
  if (b =? 0)%float then Raise ZeroDivisionError else Return (a / b)%float.

(** ** The C library *)

(** CPython computes [v ** w] on two floats with the function [pow] of the
    C library, which the C standard does not require to round correctly
    (the one of glibc does not at every argument).  The library is a
    parameter of the embedding: [libm_pow2 v] is [pow(v, 2.0)]. *)
Class Libm : Type := { libm_pow2 : float -> float }.

(** A library whose [pow] rounds squares correctly; the examples run on
    it.  At their tolerances (1e-6, 0.9 and 0.25) the [pow] of glibc
    returns the same values. *)
#[global] Instance rounded_libm : Libm := {| libm_pow2 v := (v * v)%float |}.

(** [v ** 2] on a Python float, as [float_pow] of CPython computes it:
    NaN, the infinities, the zeros and 1 (of either sign) are answered
    without the library; otherwise the library is called on the absolute
    value (the exponent is even), and an infinite result raises
    [OverflowError]. *)
Definition float_pow2 {libm : Libm} (v : float) : outcome float :=
  if is_nan v then Return v
  else if is_infinity v then Return (abs v)
  else if (v =? 0)%float then Return 0%float
  else
    let iv := abs v in
    if (iv =? 1)%float then Return 1%float
    else
      let ix := libm_pow2 iv in
      if is_infinity ix then Raise OverflowError else Return ix.

(** ** PETSc vectors *)

(** The entries of a vector.  (An abbreviation, so that the list lemmas
    apply as they are.) *)
Abbreviation vec := (list float) (only parsing).

(** A vector object is known by its place in the store of all vectors. *)
Abbreviation loc := nat (only parsing).
Abbreviation store := (list vec) (only parsing).

(** Entry-wise kernels; each product and each sum is rounded once. *)
Definition vsub (a b : vec) : vec :=
  zip_with (fun ai bi => (ai - bi)%float) a b.

(** [y + alpha * x] *)
Definition vaxpy (alpha : float) (x y : vec) : vec :=
  zip_with (fun yi xi => (yi + alpha * xi)%float) y x.

(** [x + beta * y] *)
Definition vaypx (beta : float) (x y : vec) : vec :=
  zip_with (fun yi xi => (xi + beta * yi)%float) y x.

Fixpoint dot_from (acc : float) (x y : vec) : float :=
  match x, y with
  | xi :: x', yi :: y' => dot_from (acc + xi * yi)%float x' y'
  | _, _ => acc
  end.

Definition vdot (x y : vec) : float := dot_from 0%float x y.

(** ** Computations over the store *)

Definition M (A : Type) : Type := store -> store * outcome A.

Definition ret {A} (a : A) : M A := fun s => (s, Return a).
Definition raise {A} (e : exn) : M A := fun s => (s, Raise e).
Definition bind {A B} (c : M A) (k : A -> M B) : M B :=
  fun s => match c s with
           | (s', Return a) => k a s'
           | (s', Raise e) => (s', Raise e)
           end.
Definition lift {A} (o : outcome A) : M A := fun s => (s, o).

Declare Scope py_scope.
Delimit Scope py_scope with py.
Notation "x <- c ;; k" := (bind c (fun x => k))
  (at level 100, c at next level, right associativity) : py_scope.
Notation "c ;; k" := (bind c (fun _ => k))
  (at level 100, right associativity) : py_scope.
Local Open Scope py_scope.

Definition Vec_get (l : loc) : M vec :=
  fun s => match s !! l with
           | Some v => (s, Return v)
           | None => (s, Raise InvalidHandle)
           end.
Definition Vec_put (l : loc) (v : vec) : M unit :=
  fun s => (<[l := v]> s, Return tt).
Definition Vec_new (v : vec) : M loc :=
  fun s => (s ++ [v], Return (length s)).

(** PETSc's [VecCheckSameSize]. *)
Definition same_size (a b : vec) : M unit :=
  if Nat.eqb (length a) (length b) then ret tt else raise PetscError.

Module Vec.

(** [v.duplicate()]: a new vector of the same layout. *)
Definition duplicate (v : loc) : M loc :=
  a <- Vec_get v ;; Vec_new (replicate (length a) 0%float).

(** [src.copy(dst)] *)
Definition copy (src dst : loc) : M unit :=
  a <- Vec_get src ;; d <- Vec_get dst ;; same_size a d ;; Vec_put dst a.

(** [y.axpy(alpha, x)]: [y <- y + alpha * x] in place. *)
Definition axpy (y : loc) (alpha : float) (x : loc) : M unit :=
  vy <- Vec_get y ;; vx <- Vec_get x ;; same_size vx vy ;;
  Vec_put y (vaxpy alpha vx vy).

(** [y.aypx(beta, x)]: [y <- x + beta * y] in place. *)
Definition aypx (y : loc) (beta : float) (x : loc) : M unit :=
  vy <- Vec_get y ;; vx <- Vec_get x ;; same_size vx vy ;;
  Vec_put y (vaypx beta vx vy).

(** [x.dot(y)] *)
Definition dot (x y : loc) : M float :=
  vx <- Vec_get x ;; vy <- Vec_get y ;; same_size vx vy ;;
  ret (vdot vx vy).

(** [a - b]: a new vector. *)
Definition sub (a b : loc) : M loc :=
  va <- Vec_get a ;; vb <- Vec_get b ;; same_size va vb ;;
  Vec_new (vsub va vb).

(** [x.norm()]: the 2-norm. *)
Definition norm (x : loc) : M float :=
  vx <- Vec_get x ;; ret (sqrt (vdot vx vx)).

(** [x.ghostUpdate(...)]: on one rank there is no halo to exchange. *)
Definition ghostUpdate (x : loc) : M unit :=
  _ <- Vec_get x ;; ret tt.

End Vec.

(** ** Variant 1: [cg] *)

Inductive loop_exit : Type := Break | Exhausted.

(** The body of the [while] loop of [cg], after [k += 1].  It returns
    whether the loop is left by [break], and the new [r_norm2]. *)
Definition cg_body (action_A : loc -> M loc) (x r p : loc)
    (r0_norm2 eps r_norm2 : float) : M (bool * float) :=
  (* Compute y = A p *)
  y <- action_A p ;;
  (* Compute alpha = r.r / p.y *)
  py <- Vec.dot p y ;;
  alpha <- lift (float_truediv r_norm2 py) ;;
  (* Update x (x <- x + alpha * p) *)
  Vec.axpy x alpha p ;;
  (* Update r (r <- r - alpha * y) *)
  Vec.axpy r (- alpha)%float y ;;
  (* Update residual norm *)
  r_norm2_new <- Vec.dot r r ;;
  beta <- lift (float_truediv r_norm2_new r_norm2) ;;
  let r_norm2 := r_norm2_new in
  (* Convergence test *)
  ratio <- lift (float_truediv r_norm2 r0_norm2) ;;
  if (abs ratio <? eps)%float then ret (true, r_norm2)
  else
    (* Update p (p <- beta * p + r) *)
    Vec.aypx p beta r ;;
    ret (false, r_norm2).

(** The local variables of [cg] when it reaches [return k]; [exit_trace]
    (the values [r_norm2] took, one per completed iteration) and [exit_by]
    are ghost. *)
Record cg_exit : Type := CgExit {
  exit_k : Z;
  exit_r_norm2 : float;
  exit_r0_norm2 : float;
  exit_eps : float;
  exit_trace : list float;
  exit_by : loop_exit
}.

(** [while k < max_iter: ...].  [fuel] bounds the number of passes;
    [Z.to_nat (max_iter - k)] is enough ([cg_while_fuel]). *)
Fixpoint cg_while (fuel : nat) (action_A : loc -> M loc) (x r p : loc)
    (max_iter : Z) (r0_norm2 eps : float)
    (k : Z) (r_norm2 : float) (trace : list float) : M cg_exit :=
  if k <? max_iter then
    match fuel with
    | O => ret (CgExit k r_norm2 r0_norm2 eps trace Exhausted)
    | S fuel' =>
        let k := k + 1 in
        out <- cg_body action_A x r p r0_norm2 eps r_norm2 ;;
        let '(brk, r_norm2) := out in
        let trace := trace ++ [r_norm2] in
        if brk : bool then ret (CgExit k r_norm2 r0_norm2 eps trace Break)
        else cg_while fuel' action_A x r p max_iter r0_norm2 eps k r_norm2 trace
    end
  else ret (CgExit k r_norm2 r0_norm2 eps trace Exhausted).

(** The statements of [cg] before its loop; they hand the loop the
    vectors [r] and [p] and the values of [r_norm2] and [eps]. *)
Definition cg_init {libm : Libm} (action_A : loc -> M loc) (b x : loc)
    (rtol : float) : M (loc * loc * float * float) :=
  (* Create working vectors *)
  y <- Vec.duplicate b ;;
  Vec.copy b y ;;
  (* Compute initial residual r0 = b - A x0 *)
  y <- action_A x ;;
  r <- Vec.sub b y ;;
  (* Create work vector for the search direction p *)
  p <- Vec.duplicate r ;;
  Vec.copy r p ;;
  Vec.ghostUpdate p ;;
  r_norm2 <- Vec.dot r r ;;
  eps <- lift (float_pow2 rtol) ;;
  ret (r, p, r_norm2, eps).

Definition cg_run {libm : Libm} (action_A : loc -> M loc) (b x : loc)
    (max_iter : Z) (rtol : float) : M cg_exit :=
  st <- cg_init action_A b x rtol ;;
  let '(r, p, r_norm2, eps) := st in
  let r0_norm2 := r_norm2 in
  let k := 0 in
  cg_while (Z.to_nat max_iter) action_A x r p max_iter r0_norm2 eps
    k r_norm2 [].

(** The call [cg(action_A, b, x, max_iter, rtol)], started in the store
    [s], is at the head of its loop with the work vectors [r] and [p], the
    reference norm [r0], the bound [eps], the counter [k], the norm [rn]
    and the store [sk]. *)
Inductive loop_head {libm : Libm} (action_A : loc -> M loc) (b x : loc)
    (max_iter : Z) (rtol : float) (s : store) (r p : loc) (r0 eps : float)
    : Z -> float -> list float -> store -> Prop :=
| head_first (s0 : store) :
    cg_init action_A b x rtol s = (s0, Return (r, p, r0, eps)) ->
    loop_head action_A b x max_iter rtol s r p r0 eps 0 r0 [] s0
| head_next (k : Z) (rn rn' : float) (trace : list float) (sk sk' : store) :
    loop_head action_A b x max_iter rtol s r p r0 eps k rn trace sk ->
    k < max_iter ->
    cg_body action_A x r p r0 eps rn sk = (sk', Return (false, rn')) ->
    loop_head action_A b x max_iter rtol s r p r0 eps (k + 1) rn'
      (trace ++ [rn']) sk'.

(** [cg(action_A, b, x, max_iter, rtol)] returns [k]. *)
Definition cg {libm : Libm} (action_A : loc -> M loc) (b x : loc)
    (max_iter : Z) (rtol : float) : M Z :=
  e <- cg_run action_A b x max_iter rtol ;; ret (exit_k e).

(** ** The convergence callback and variant 3: [CustomKSP], [CG] *)

(** The fields of a PETSc [KSP] object that the notebook reads or writes. *)
Record KSP : Type := MkKSP {
  ksp_its : Z;               (* getIterationNumber / setIterationNumber *)
  ksp_rtol : float;          (* getTolerances()[0] *)
  ksp_max_it : Z;            (* getTolerances()[3] *)
  ksp_history : list float;  (* getConvergenceHistory *)
  ksp_history_max : Z;       (* the length given to setConvergenceHistory *)
  ksp_rnorm : float;         (* setResidualNorm *)
  ksp_reason : Z             (* setConvergedReason *)
}.

Definition setIterationNumber (its : Z) (ksp : KSP) : KSP :=
  MkKSP its (ksp_rtol ksp) (ksp_max_it ksp) (ksp_history ksp)
    (ksp_history_max ksp) (ksp_rnorm ksp) (ksp_reason ksp).

Definition setResidualNorm (rnorm : float) (ksp : KSP) : KSP :=
  MkKSP (ksp_its ksp) (ksp_rtol ksp) (ksp_max_it ksp) (ksp_history ksp)
    (ksp_history_max ksp) rnorm (ksp_reason ksp).

Definition setConvergedReason (reason : Z) (ksp : KSP) : KSP :=
  MkKSP (ksp_its ksp) (ksp_rtol ksp) (ksp_max_it ksp) (ksp_history ksp)
    (ksp_history_max ksp) (ksp_rnorm ksp) reason.

(** The norm is recorded while the history has room. *)
Definition logConvergenceHistory (rnorm : float) (ksp : KSP) : KSP :=
  if Z.of_nat (length (ksp_history ksp)) <? ksp_history_max ksp then
    MkKSP (ksp_its ksp) (ksp_rtol ksp) (ksp_max_it ksp)
      (ksp_history ksp ++ [rnorm]) (ksp_history_max ksp) (ksp_rnorm ksp)
      (ksp_reason ksp)
  else ksp.

(** [PETSc.KSP.ConvergedReason] *)
Definition ITERATING : Z := 0.
Definition CONVERGED_RTOL : Z := 2.
Definition DIVERGED_MAX_IT : Z := -3.

(** A solver object as the notebook sets it up: [setTolerances(rtol=rtol,
    max_it=max_iter)], [setConvergenceHistory()] (room for 10000 norms),
    nothing run yet. *)
Definition KSP_create (rtol : float) (max_it : Z) : KSP :=
  MkKSP 0 rtol max_it [] 10000 0%float ITERATING.

(** [converged(ksp, iter, r_norm)].  [r0_norm] is a NumPy scalar, so the
    quotient is NumPy's: IEEE division, no exception. *)
Definition converged (ksp : KSP) (iter : Z) (r_norm : float) : outcome Z :=
  let rtol := ksp_rtol ksp in
  let max_iter := ksp_max_it ksp in
  if iter >? max_iter then Return DIVERGED_MAX_IT
  else
    match ksp_history ksp with
    | [] => Raise IndexError
    | r0_norm :: _ =>
        if (r_norm / r0_norm <? rtol)%float then Return CONVERGED_RTOL
        else Return ITERATING
    end.

(** [Poisson.mult(A, x, y)] *)
Module Poisson.
Definition mult (action_A : loc -> M loc) (x y : loc) : M unit :=
  ax <- action_A x ;; Vec.copy ax y.
End Poisson.

Module CustomKSP.

(** [self.converged(ksp, r)]; the KSP object is threaded explicitly.
    [ksp.callConvergenceTest] runs the installed test, [converged]. *)
Definition converged (ksp : KSP) (r : loc) : M (KSP * Z) :=
  let k := ksp_its ksp in
  r_norm <- Vec.norm r ;;
  let ksp := setResidualNorm r_norm ksp in
  let ksp := logConvergenceHistory r_norm ksp in
  (* ksp.monitor(k, r_norm): no monitor is installed *)
  reason <- lift (converged ksp k r_norm) ;;
  if reason =? 0 then ret (setIterationNumber (k + 1) ksp, reason)
  else ret (setConvergedReason reason ksp, reason).

End CustomKSP.

Module CG.

(** [setUp]: the two work vectors of [ksp.getWorkVecs(right=2)] and the
    duplicates [p] and [y]; all have the layout of the right-hand side. *)
Definition setUp (b : loc) : M (loc * loc * loc * loc) :=
  w0 <- Vec.duplicate b ;;
  w1 <- Vec.duplicate b ;;
  p <- Vec.duplicate w0 ;;
  y <- Vec.duplicate p ;;
  ret (w0, w1, p, y).

(** The body of [while not self.converged(ksp, r)]. *)
Definition solve_body (action_A : loc -> M loc) (x r p y : loc)
    (r_norm2 : float) : M float :=
  (* Compute y = A p *)
  Poisson.mult action_A p y ;;
  (* Compute alpha = r.r / p.y *)
  py <- Vec.dot p y ;;
  alpha <- lift (float_truediv r_norm2 py) ;;
  (* Update x (x <- x + alpha * p) *)
  Vec.axpy x alpha p ;;
  (* Update x (r <- r - alpha * y) *)
  Vec.axpy r (- alpha)%float y ;;
  (* Update residual norm *)
  r_norm2_new <- Vec.dot r r ;;
  beta <- lift (float_truediv r_norm2_new r_norm2) ;;
  let r_norm2 := r_norm2_new in
  (* Update p (p <- beta * p + r) *)
  Vec.aypx p beta r ;;
  ret r_norm2.

(** [while not self.converged(ksp, r): ...]; the test gives a non-zero
    reason once the iteration number passes [max_it], so
    [Z.to_nat (max_it - its + 1)] passes are enough ([solve_while_fuel]). *)
Fixpoint solve_while (fuel : nat) (action_A : loc -> M loc) (x r p y : loc)
    (ksp : KSP) (r_norm2 : float) : M KSP :=
  out <- CustomKSP.converged ksp r ;;
  let '(ksp, reason) := out in
  if reason =? 0 then
    match fuel with
    | O => ret ksp
    | S fuel' =>
        r_norm2 <- solve_body action_A x r p y r_norm2 ;;
        solve_while fuel' action_A x r p y ksp r_norm2
    end
  else ret ksp.

(** [CG.solve(self, ksp, b, x)], with [self.vectors] as [setUp] left them;
    the result is the KSP object after the call.  ([self.r0_norm2] is
    written and never read.) *)
Definition solve (action_A : loc -> M loc) (vectors : loc * loc * loc * loc)
    (ksp : KSP) (b x : loc) : M KSP :=
  (* Create work vectors *)
  let '(_, _, p, y) := vectors in
  Vec.copy b y ;;
  (* Compute initial residual r0 = b - A x0 *)
  Poisson.mult action_A x y ;;
  r <- Vec.sub b y ;;
  (* Create work vector for the search direction p *)
  Vec.copy r p ;;
  Vec.ghostUpdate p ;;
  r_norm2 <- Vec.dot r r ;;
  solve_while (Z.to_nat (ksp_max_it ksp - ksp_its ksp + 1)) action_A x r p y
    ksp r_norm2.

End CG.

(** ** The algorithm as the specification words it *)

(** Section 4.1 of the specification, on vectors as values: no store, no
    object identity.  The scalars and their division are those of the
    program (a zero divisor raises). *)
Module Spec.

Definition obind {A B} (o : outcome A) (k : A -> outcome B) : outcome B :=
  match o with
  | Return a => k a
  | Raise e => Raise e
  end.

(** The vectors and the squared residual norm of a [SolverState]. *)
Record SolverState : Type := MkState {
  st_x : vec;
  st_r : vec;
  st_p : vec;
  st_r_norm2 : float
}.

(** [x + alpha * p], [r - alpha * y] and [beta * p + r], entry by entry. *)
Definition x_plus (alpha : float) (x p : vec) : vec :=
  zip_with (fun xi pi => (xi + alpha * pi)%float) x p.
Definition r_minus (alpha : float) (r y : vec) : vec :=
  zip_with (fun ri yi => (ri - alpha * yi)%float) r y.
Definition p_next (beta : float) (p r : vec) : vec :=
  zip_with (fun pi ri => (beta * pi + ri)%float) p r.

(** Steps 1 to 3. *)
Definition init (apply : vec -> vec) (b x0 : vec) : SolverState :=
  let r := vsub b (apply x0) in
  MkState x0 r r (vdot r r).

(** Steps 4a to 4e: the state with the old direction, and [beta]. *)
Definition step (apply : vec -> vec) (st : SolverState)
    : outcome (SolverState * float) :=
  let y := apply (st_p st) in
  obind (float_truediv (st_r_norm2 st) (vdot (st_p st) y)) (fun alpha =>
  let x := x_plus alpha (st_x st) (st_p st) in
  let r := r_minus alpha (st_r st) y in
  let r_norm2_new := vdot r r in
  obind (float_truediv r_norm2_new (st_r_norm2 st)) (fun beta =>
  Return (MkState x r (st_p st) r_norm2_new, beta))).

(** The test of step 4f, [r_norm2 / r0_norm2 < rtol^2]: the squared
    relative residual against the squared tolerance, no square root. *)
Definition below_tol (r_norm2 r0_norm2 tol2 : float) : bool :=
  (r_norm2 / r0_norm2 <? tol2)%float.

(** Step 4, [n] passes left, and step 5 when none is. *)
Fixpoint iterate (n : nat) (apply : vec -> vec) (r0_norm2 tol2 : float)
    (k : Z) (st : SolverState) : outcome (vec * Z) :=
  match n with
  | O => Return (st_x st, k)
  | S n' =>
      obind (step apply st) (fun '(st', beta) =>
      (* 4f *)
      obind (float_truediv (st_r_norm2 st') r0_norm2) (fun ratio =>
      if (ratio <? tol2)%float then Return (st_x st', k + 1)
      else
        (* 4g *)
        iterate n' apply r0_norm2 tol2 (k + 1)
          (MkState (st_x st') (st_r st')
             (p_next beta (st_p st') (st_r st')) (st_r_norm2 st'))))
  end.

Definition cg {libm : Libm} (apply : vec -> vec) (b x0 : vec) (max_iter : Z)
    (rtol : float) : outcome (vec * Z) :=
  let st := init apply b x0 in
  obind (float_pow2 rtol) (fun tol2 =>
  iterate (Z.to_nat max_iter) apply (st_r_norm2 st) tol2 0 st).

End Spec.

(** ** Operator actions *)

(** A callable that computes the pure function [apply]: called on a vector
    holding [v] it returns a vector it has just created, holding [apply v],
    and writes to no vector that existed before the call. *)
Definition implements (apply : vec -> vec) (action_A : loc -> M loc) : Prop :=
  forall (s : store) (l : loc) (v : vec),
    s !! l = Some v ->
    exists (s' : store) (y : loc),
      action_A l s = (s', Return y) /\
      s `prefix_of` s' /\ (length s <= y)%nat /\ s' !! y = Some (apply v).

(** The plainest such callable. *)
Definition pure_action (apply : vec -> vec) : loc -> M loc :=
  fun l => v <- Vec_get l ;; Vec_new (apply v).

(** A callable that leaves the vector at [l] alone and destroys no vector. *)
Definition preserves (l : loc) (action_A : loc -> M loc) : Prop :=
  forall (s : store) (a : loc),
    (l < length s)%nat ->
    (action_A a s).1 !! l = s !! l /\ (length s <= length (action_A a s).1)%nat.

(** Operators used in the examples: diagonal matrices, the identity, the
    zero operator and a scaling. *)
Definition diag (d : vec) : vec -> vec :=
  fun v => zip_with (fun di vi => (di * vi)%float) d v.
Definition identity_op : vec -> vec := fun v => v.
Definition zero_op : vec -> vec := fun v => map (fun _ => 0%float) v.
Definition scale_op (c : float) : vec -> vec :=
  fun v => map (fun vi => (c * vi)%float) v.

(** ** Signs of floats *)

(** Not below zero: a zero of either sign, a positive number, [+infinity],
    or NaN. *)
Definition sf_nonneg (x : spec_float) : bool :=
  match x with
  | S754_zero _ | S754_nan => true
  | S754_infinity s | S754_finite s _ _ => negb s
  end.

Definition fnonneg (x : float) : Prop := sf_nonneg (Prim2SF x) = true.

(** ** Values of floats *)

(** The value [m * 2^e] in units of [2^t], for [t] below [e]. *)
Definition scaled (t m e : Z) : Z := m * 2 ^ (e - t).

(** [x] is [+infinity] or a positive number not below [mf * 2^ef]. *)
Definition sf_above (t : Z) (mf : positive) (ef : Z) (x : spec_float) : Prop :=
  match x with
  | S754_infinity false => True
  | S754_finite false m e => scaled t (Z.pos mf) ef <= scaled t (Z.pos m) e
  | _ => False
  end.

(** [+infinity] or a positive number. *)
Definition sf_pos (x : spec_float) : bool :=
  match x with
  | S754_infinity s | S754_finite s _ _ => negb s
  | _ => false
  end.

(** ** Reading the exit record of [cg] *)

(** What the exit record tells about the passes made from counter [k] on:
    [more] lists the values of [r_norm2] they produced. *)
Definition loop_exit_ok (max_iter : Z) (r0 eps : float) (k : Z) (rn : float)
    (trace more : list float) (e : cg_exit) : Prop :=
  exit_trace e = trace ++ more /\
  exit_k e = k + Z.of_nat (length more) /\
  exit_r0_norm2 e = r0 /\
  exit_eps e = eps /\
  exit_r_norm2 e = List.last more rn /\
  Forall (fun q => Spec.below_tol q r0 eps = false) (removelast more) /\
  (more <> [] -> (r0 =? 0)%float = false) /\
  match exit_by e with
  | Break =>
      more <> [] /\ Spec.below_tol (List.last more rn) r0 eps = true /\
      exit_k e <= max_iter
  | Exhausted =>
      Forall (fun q => Spec.below_tol q r0 eps = false) more /\
      exit_k e = Z.max k max_iter
  end.

(** ** The store of [cg] against a [SolverState] *)

(** The vectors [x], [r] and [p] of the loop are distinct objects of the
    store, hold the state [st], and have [n] entries each. *)
Definition holds (s : store) (x r p : loc) (st : Spec.SolverState) (n : nat)
    : Prop :=
  s !! x = Some (Spec.st_x st) /\ s !! r = Some (Spec.st_r st) /\
  s !! p = Some (Spec.st_p st) /\
  x <> r /\ x <> p /\ r <> p /\
  length (Spec.st_x st) = n /\ length (Spec.st_r st) = n /\
  length (Spec.st_p st) = n.

(** The state a pass hands to the next one: after [break] the direction is
    the old one, otherwise step 4g has updated it. *)
Definition after_pass (brk : bool) (beta : float) (st' : Spec.SolverState)
    : Spec.SolverState :=
  if brk then st'
  else Spec.MkState (Spec.st_x st') (Spec.st_r st')
         (Spec.p_next beta (Spec.st_p st') (Spec.st_r st'))
         (Spec.st_r_norm2 st').

(** ** Frames *)

(** The computation [c] leaves the vector at [l] as it is, destroys no
    vector, and every value it returns satisfies [Q]. *)
Definition frames {A} (l : loc) (c : M A) (Q : A -> Prop) : Prop :=
  forall s : store,
    (l < length s)%nat ->
    (c s).1 !! l = s !! l /\ (length s <= length (c s).1)%nat /\
    forall a, (c s).2 = Return a -> Q a.

(** ** Example data *)

(** The value a computation returned ([d] if it raised). *)
Definition returned {A} (d : A) (o : outcome A) : A :=
  match o with
  | Return a => a
  | Raise _ => d
  end.

Definition no_exit : cg_exit := CgExit 0 0%float 0%float 0%float [] Exhausted.

(** The system diag(1, 2) x = (1, 1), the guess zero: [b] is vector 0 of
    the store, [x] is vector 1. *)
Definition action_d12 : loc -> M loc := pure_action (diag [1; 2]%float).
Definition store_d12 : store := [[1; 1]; [0; 0]]%float.

(** The system diag(1, 2, 3, 4) x = (1, 1, 1, 1), the guess zero. *)
Definition action_d1234 : loc -> M loc := pure_action (diag [1; 2; 3; 4]%float).
Definition store_d1234 : store := [[1; 1; 1; 1]; [0; 0; 0; 0]]%float.

(** ** The iterates of the recurrence *)

(** [n] passes of steps 4a to 4e and 4g of the specification, without the
    test of step 4f. *)
Fixpoint passes (n : nat) (apply : vec -> vec) (st : Spec.SolverState)
    : outcome Spec.SolverState :=
  match n with
  | O => Return st
  | S n' =>
      Spec.obind (Spec.step apply st) (fun '(st', beta) =>
      passes n' apply (after_pass false beta st'))
  end.

(** ** The operator of the notebook: [action_A] *)

(** [fem.set_bc(b, [bc], scale=scale)], no [x0]: [b[dof] = scale * g] at
    every constrained degree of freedom that lies within the array.  [bc]
    lists the constrained degrees of freedom with their boundary values. *)
Definition set_bc (b : vec) (bc : list (nat * float)) (scale : float) : vec :=
  fold_left (fun b dg => <[dg.1 := (scale * dg.2)%float]> b) bc b.

(** [action_A(x)].  [ui] is [ui.vector], the coefficient of the linear form
    [M]; [assemble_M] is what [fem.petsc.assemble_vector(fem.form(M))]
    assembles from that coefficient, in a new vector. *)
Definition action_A (ui : loc) (assemble_M : vec -> vec)
    (bc : list (nat * float)) (x : loc) : M loc :=
  (* Update coefficient ui of the linear form M *)
  Vec.copy x ui ;;
  Vec.ghostUpdate ui ;;
  (* Compute action of A on x using the linear form M *)
  u <- Vec_get ui ;;
  y <- Vec_new (assemble_M u) ;;
  (* Set BC dofs to zero (effectively zeroes rows of A) *)
  y_local <- Vec_get y ;;
  Vec_put y (set_bc y_local bc 0) ;;
  Vec.ghostUpdate y ;;
  ret y.

(** The operator that [action_A] applies. *)
Definition bc_apply (assemble_M : vec -> vec) (bc : list (nat * float))
    : vec -> vec :=
  fun v => set_bc (assemble_M v) bc 0.

(** ** Callables with a scratch vector *)

(** [action_A] computes [apply] on vectors of [n] entries as the notebook's
    callable does: the result is a new vector, and of the vectors there
    were only [ui], a vector of [n] entries, may have been overwritten
    (with [n] entries again). *)
Definition implements_via (ui : loc) (n : nat) (apply : vec -> vec)
    (action_A : loc -> M loc) : Prop :=
  forall (s : store) (l : loc) (v vu : vec),
    s !! l = Some v -> length v = n ->
    s !! ui = Some vu -> length vu = n ->
    exists (s' : store) (y : loc) (vu' : vec),
      action_A l s = (s', Return y) /\
      (length s <= length s')%nat /\
      (forall l', l' <> ui -> (l' < length s)%nat -> s' !! l' = s !! l') /\
      s' !! ui = Some vu' /\ length vu' = n /\
      (length s <= y)%nat /\ s' !! y = Some (apply v).

(** The store holds the scratch vector [ui], with [n] entries. *)
Definition has_scratch (s : store) (ui : loc) (n : nat) : Prop :=
  exists vu : vec, s !! ui = Some vu /\ length vu = n.

(** The notebook's setting in small.  Three degrees of freedom, the first
    one on the boundary with the value 5; the form assembles diag(2, 3, 4);
    [b] = (0, 1, 1) is vector 0 of the store, the guess [x] = 0 is vector
    1, and [ui] is vector 2. *)
Definition assemble_d234 : vec -> vec := diag [2; 3; 4]%float.
Definition bc_first : list (nat * float) := [(0%nat, 5%float)].
Definition store_bc : store := [[0; 1; 1]; [0; 0; 0]; [0; 0; 0]]%float.
Definition action_bc : loc -> M loc := action_A 2 assemble_d234 bc_first.

(** The same operator with [b] = (0, 3, 4) and the exact solution
    (0, 1, 1) as the guess. *)
Definition store_bc_exact : store := [[0; 3; 4]; [0; 1; 1]; [0; 0; 0]]%float.

(** * Facts *)

(** ** IEEE arithmetic *)

Section FloatFacts.

Lemma binary_round_aux_nonneg prec emax m e l :
  sf_nonneg (binary_round_aux prec emax false m e l) = true.
Proof.
  unfold binary_round_aux.
  destruct (shr_fexp _ _ _ _ _) as [mrs' e'].
  destruct (shr_fexp _ _ _ _ _) as [mrs'' e''].
  destruct (shr_m mrs''); [reflexivity | | reflexivity].
  destruct (Z.leb _ _); reflexivity.
Qed.

Lemma binary_round_aux_opp prec emax s m e l :
  binary_round_aux prec emax (negb s) m e l
  = SFopp (binary_round_aux prec emax s m e l).
Proof.
  unfold binary_round_aux.
  destruct (shr_fexp _ _ _ _ _) as [mrs' e'].
  destruct (shr_fexp _ _ _ _ _) as [mrs'' e''].
  destruct (shr_m mrs''); [reflexivity | | reflexivity].
  destruct (Z.leb _ _); reflexivity.
Qed.

Lemma SFmul_self_nonneg prec emax x : sf_nonneg (SFmul prec emax x x) = true.
Proof.
  destruct x as [s|s| |s m e]; simpl; try reflexivity.
  - now destruct s.
  - rewrite xorb_nilpotent. apply binary_round_aux_nonneg.
Qed.

Lemma SFadd_nonneg prec emax x y :
  sf_nonneg x = true -> sf_nonneg y = true ->
  sf_nonneg (SFadd prec emax x y) = true.
Proof.
  destruct x as [sx|sx| |sx mx ex], y as [sy|sy| |sy my ey]; simpl;
    intros Hx Hy; try reflexivity; try assumption.
  - now destruct sx, sy.
  - destruct sx, sy; simpl in *; congruence.
  - destruct sx, sy; try discriminate. simpl.
    unfold binary_round. destruct (shl_align _ _ _).
    apply binary_round_aux_nonneg.
Qed.

Lemma SFdiv_nonneg prec emax x y :
  sf_nonneg x = true -> sf_nonneg y = true ->
  SFeqb y (S754_zero false) = false ->
  sf_nonneg (SFdiv prec emax x y) = true.
Proof.
  destruct x as [sx|sx| |sx mx ex], y as [sy|sy| |sy my ey]; simpl;
    intros Hx Hy Hz; try reflexivity; try discriminate.
  all: try (destruct sx, sy; simpl in *; congruence).
  destruct sx, sy; try discriminate. simpl.
  destruct (SFdiv_core_binary _ _ _ _ _ _) as [[mz ez] lz].
  apply binary_round_aux_nonneg.
Qed.

Lemma SFltb_abs_nonneg x y :
  sf_nonneg x = true -> SFltb (SFabs x) y = SFltb x y.
Proof.
  destruct x as [sx|sx| |sx mx ex]; simpl; intros Hx; try reflexivity.
  - now destruct sx.
  - now destruct sx.
Qed.

Lemma SFmul_opp_l prec emax x y :
  SFmul prec emax (SFopp x) y = SFopp (SFmul prec emax x y).
Proof.
  destruct x as [sx|sx| |sx mx ex], y as [sy|sy| |sy my ey]; simpl;
    try reflexivity; try (now destruct sx, sy).
  rewrite <- binary_round_aux_opp. now destruct sx, sy.
Qed.

Lemma SFadd_opp_r prec emax x y :
  SFadd prec emax x (SFopp y) = SFsub prec emax x y.
Proof.
  destruct x as [sx|sx| |sx mx ex], y as [sy|sy| |sy my ey]; simpl;
    try reflexivity; try (now destruct sx, sy).
Qed.

Lemma SFadd_comm prec emax x y : SFadd prec emax x y = SFadd prec emax y x.
Proof.
  destruct x as [sx|sx| |sx mx ex], y as [sy|sy| |sy my ey]; simpl;
    try reflexivity; try (now destruct sx, sy).
  rewrite (Z.min_comm ey ex). f_equal. lia.
Qed.

(** Addition of floats commutes. *)
Lemma float_add_comm (a b : float) : (a + b)%float = (b + a)%float.
Proof. apply Prim2SF_inj. rewrite !add_spec. apply SFadd_comm. Qed.

(** [a + (-alpha) * y] is [a - alpha * y], bit for bit. *)
Lemma float_add_opp_mul (a alpha y : float) :
  (a + (- alpha) * y)%float = (a - alpha * y)%float.
Proof.
  apply Prim2SF_inj. rewrite add_spec, sub_spec, !mul_spec, opp_spec.
  unfold SF64mul, SF64add, SF64sub. rewrite SFmul_opp_l. apply SFadd_opp_r.
Qed.

Lemma fnonneg_zero : fnonneg 0%float.
Proof. reflexivity. Qed.

Lemma fnonneg_add_square (acc x : float) :
  fnonneg acc -> fnonneg (acc + x * x)%float.
Proof.
  unfold fnonneg. intros H. rewrite add_spec, mul_spec.
  apply SFadd_nonneg; [exact H | apply SFmul_self_nonneg].
Qed.

Lemma fnonneg_dot_from (v : vec) :
  forall acc, fnonneg acc -> fnonneg (dot_from acc v v).
Proof.
  induction v as [|x v IH]; intros acc H; simpl; [exact H|].
  apply IH, fnonneg_add_square, H.
Qed.

(** A squared norm is never below zero. *)
Lemma fnonneg_vdot (v : vec) : fnonneg (vdot v v).
Proof. apply fnonneg_dot_from, fnonneg_zero. Qed.

Lemma fnonneg_div (a b : float) :
  fnonneg a -> fnonneg b -> (b =? 0)%float = false -> fnonneg (a / b)%float.
Proof.
  unfold fnonneg. intros Ha Hb Hz. rewrite div_spec.
  apply SFdiv_nonneg; [exact Ha | exact Hb |].
  rewrite FloatAxioms.eqb_spec in Hz. exact Hz.
Qed.

(** [abs] does not change the comparison of such a number with a bound. *)
Lemma ltb_abs_nonneg (q e : float) :
  fnonneg q -> (abs q <? e)%float = (q <? e)%float.
Proof.
  unfold fnonneg. intros H. rewrite !FloatAxioms.ltb_spec, abs_spec.
  apply SFltb_abs_nonneg, H.
Qed.


(** *** Rounding to nearest is monotone *)

Lemma digits2_bounds (m : positive) :
  2 ^ (Z.pos (digits2_pos m) - 1) <= Z.pos m < 2 ^ Z.pos (digits2_pos m).
Proof.
  induction m as [m IH|m IH|]; cbn [digits2_pos].
  - rewrite Pos2Z.inj_succ.
    replace (Z.succ (Z.pos (digits2_pos m)) - 1)
      with (Z.succ (Z.pos (digits2_pos m) - 1)) by lia.
    rewrite !Z.pow_succ_r by lia. lia.
  - rewrite Pos2Z.inj_succ.
    replace (Z.succ (Z.pos (digits2_pos m)) - 1)
      with (Z.succ (Z.pos (digits2_pos m) - 1)) by lia.
    rewrite !Z.pow_succ_r by lia. lia.
  - simpl. lia.
Qed.

(** shifting right *)
Lemma shr_1_m mrs : 0 <= shr_m mrs -> shr_m (shr_1 mrs) = shr_m mrs / 2.
Proof.
  destruct mrs as [m r s]. simpl. intros Hm.
  destruct m as [|[p|p|]|p]; simpl; try lia; try reflexivity.
  - rewrite Pos2Z.inj_xI. apply (Z.div_unique _ _ _ 1); lia.
  - rewrite Pos2Z.inj_xO. apply (Z.div_unique _ _ _ 0); lia.
Qed.

Lemma iter_pos_nat {A} (f : A -> A) (p : positive) (x : A) :
  SpecFloat.iter_pos f p x = Nat.iter (Pos.to_nat p) f x.
Proof.
  revert x. induction p as [p IH|p IH|]; intros x; cbn [SpecFloat.iter_pos].
  - rewrite !IH, Pos2Nat.inj_xI, Nat.iter_succ_r.
    replace (2 * Pos.to_nat p)%nat with (Pos.to_nat p + Pos.to_nat p)%nat
      by lia.
    now rewrite Nat.iter_add.
  - rewrite !IH, Pos2Nat.inj_xO.
    replace (2 * Pos.to_nat p)%nat with (Pos.to_nat p + Pos.to_nat p)%nat
      by lia.
    now rewrite Nat.iter_add.
  - reflexivity.
Qed.

Lemma iter_shr_1_m (k : nat) mrs :
  0 <= shr_m mrs ->
  shr_m (Nat.iter k shr_1 mrs) = shr_m mrs / 2 ^ Z.of_nat k.
Proof.
  intros Hm. induction k as [|k IH].
  - simpl. now rewrite Z.div_1_r.
  - rewrite Nat.iter_succ, shr_1_m; rewrite IH.
    + rewrite Nat2Z.inj_succ, Z.pow_succ_r by lia.
      rewrite Z.div_div by lia. f_equal. lia.
    + apply Z.div_pos; [exact Hm | apply Z.pow_pos_nonneg; lia].
Qed.

Lemma shr_m_record_of_loc m l : shr_m (shr_record_of_loc m l) = m.
Proof. now destruct l as [|[]]. Qed.

(** [shr_fexp] divides the mantissa by a power of two *)
Lemma shr_fexp_spec (m e : Z) l :
  0 <= m ->
  let n := Z.max 0 (fexp prec emax (Zdigits2 m + e) - e) in
  shr_m (shr_fexp prec emax m e l).1 = m / 2 ^ n /\
  (shr_fexp prec emax m e l).2 = e + n.
Proof.
  intros Hm n. unfold shr_fexp, shr. subst n.
  destruct (fexp prec emax (Zdigits2 m + e) - e) as [|p|p] eqn:E; simpl.
  - rewrite shr_m_record_of_loc, Z.div_1_r. split; [reflexivity | lia].
  - rewrite iter_pos_nat, iter_shr_1_m
      by (rewrite shr_m_record_of_loc; exact Hm).
    rewrite shr_m_record_of_loc, positive_nat_Z.
    split; [reflexivity|]. lia.
  - rewrite shr_m_record_of_loc, Z.div_1_r. split; [reflexivity | lia].
Qed.

Lemma round_nearest_even_bounds m l :
  m <= round_nearest_even m l <= m + 1.
Proof.
  unfold round_nearest_even. destruct l as [|[]]; try lia.
  destruct (Z.even m); lia.
Qed.

(** exponents of binary64 *)
Lemma fexp_eq (e : Z) : fexp prec emax e = Z.max (e - 53) (-1074).
Proof. reflexivity. Qed.

Lemma bounded_inv (m : positive) (e : Z) :
  bounded prec emax m e = true ->
  e = Z.max (Z.pos (digits2_pos m) + e - 53) (-1074) /\ e <= 971.
Proof.
  unfold bounded, canonical_mantissa. intros H.
  apply andb_prop in H as [Hc Hb].
  apply Z.eqb_eq in Hc. apply Z.leb_le in Hb.
  rewrite fexp_eq in Hc. split; [symmetry; exact Hc | exact Hb].
Qed.

Lemma pow2_pos (a : Z) : 0 <= a -> 0 < 2 ^ a.
Proof. intros Ha. apply Z.pow_pos_nonneg; lia. Qed.

Lemma pow2_split (a b : Z) : 0 <= a -> 0 <= b -> 2 ^ (a + b) = 2 ^ a * 2 ^ b.
Proof. intros Ha Hb. apply Z.pow_add_r; assumption. Qed.

(** A float with [m2]'s exponent above [m1]'s is the larger one. *)
Lemma scaled_lt_exp t (m1 : positive) e1 (m2 : positive) e2 :
  bounded prec emax m1 e1 = true -> bounded prec emax m2 e2 = true ->
  t <= e1 -> e1 < e2 ->
  scaled t (Z.pos m1) e1 < scaled t (Z.pos m2) e2.
Proof.
  intros H1 H2 Ht Hlt.
  apply bounded_inv in H1 as [C1 _]. apply bounded_inv in H2 as [C2 _].
  pose proof (digits2_bounds m1) as [_ U1].
  pose proof (digits2_bounds m2) as [L2 _].
  assert (D2 : Z.pos (digits2_pos m2) = 53) by lia.
  assert (D1 : Z.pos (digits2_pos m1) <= 53) by lia.
  rewrite D2 in L2. change (2 ^ (53 - 1)) with (2 ^ 52) in L2.
  assert (U1' : Z.pos m1 < 2 ^ 53).
  { eapply Z.lt_le_trans; [exact U1|]. apply Z.pow_le_mono_r; lia. }
  unfold scaled.
  replace (e2 - t) with ((e2 - e1 - 1) + 1 + (e1 - t)) by lia.
  rewrite !pow2_split by lia.
  pose proof (pow2_pos (e1 - t) ltac:(lia)) as P1.
  pose proof (pow2_pos (e2 - e1 - 1) ltac:(lia)) as P2.
  change (2 ^ 1) with 2.
  change (2 ^ 53) with (2 * 2 ^ 52) in U1'.
  set (A := 2 ^ (e1 - t)) in *. set (B := 2 ^ (e2 - e1 - 1)) in *.
  set (C := 2 ^ 52) in *. clearbody A B C.
  assert (Z.pos m1 * A < 2 * C * A) by nia.
  assert (C * 1 <= Z.pos m2 * B) by (apply Z.mul_le_mono_nonneg; lia).
  assert (2 * C * A <= Z.pos m2 * (B * 2 * A)) by nia.
  lia.
Qed.

(** Comparison of two positive floats is comparison of their values. *)
Lemma SFcompare_scaled t (m1 : positive) e1 (m2 : positive) e2 :
  bounded prec emax m1 e1 = true -> bounded prec emax m2 e2 = true ->
  t <= e1 -> t <= e2 ->
  SFcompare (S754_finite false m1 e1) (S754_finite false m2 e2)
  = Some (scaled t (Z.pos m1) e1 ?= scaled t (Z.pos m2) e2).
Proof.
  intros H1 H2 T1 T2. cbn [SFcompare]. f_equal.
  destruct (Z.compare_spec e1 e2) as [Heq|Hlt|Hgt].
  - subst e2. unfold scaled.
    pose proof (pow2_pos (e1 - t) ltac:(lia)) as P.
    change (Pos.compare_cont Eq m1 m2) with (Z.pos m1 ?= Z.pos m2).
    set (A := 2 ^ (e1 - t)) in *. clearbody A.
    destruct (Z.compare_spec (Z.pos m1) (Z.pos m2)); symmetry;
      [apply Z.compare_eq_iff | apply Z.compare_lt_iff
      | apply Z.compare_gt_iff]; nia.
  - symmetry. apply Z.compare_lt_iff. now apply scaled_lt_exp.
  - symmetry. apply Z.compare_gt_iff. now apply scaled_lt_exp.
Qed.

(** Truncating [m * 2^e] to the exponent [E] of its binade keeps it above
    every float below it. *)
Lemma trunc_lower t (mf : positive) ef m e E :
  bounded prec emax mf ef = true ->
  0 < m -> E = fexp prec emax (Zdigits2 m + e) -> e <= E ->
  t <= ef -> t <= e ->
  scaled t (Z.pos mf) ef <= scaled t m e ->
  scaled t (Z.pos mf) ef <= scaled t (m / 2 ^ (E - e)) E.
Proof.
  intros Hf Hm HE He Tf Te Hle.
  apply bounded_inv in Hf as [Cf _].
  pose proof (digits2_bounds mf) as [_ Uf].
  unfold scaled in *.
  pose proof (pow2_pos (E - e) ltac:(lia)) as Pn.
  pose proof (pow2_pos (e - t) ltac:(lia)) as Pe.
  destruct (Z_le_gt_dec E ef) as [Hge|Hlt].
  - replace (ef - t) with ((ef - E) + (E - t)) in * by lia.
    replace (E - t) with ((E - e) + (e - t)) in Hle by lia.
    rewrite !pow2_split in Hle by lia.
    rewrite pow2_split by lia.
    pose proof (pow2_pos (ef - E) ltac:(lia)) as Pf.
    pose proof (pow2_pos (E - t) ltac:(lia)) as PE.
    rewrite Z.mul_assoc.
    apply Z.mul_le_mono_nonneg_r; [lia|].
    apply Z.div_le_lower_bound; [exact Pn|].
    set (A := 2 ^ (ef - E)) in *. set (B := 2 ^ (E - e)) in *.
    set (C := 2 ^ (e - t)) in *. clearbody A B C. nia.
  - destruct m as [|p|p]; try lia. cbn [Zdigits2] in HE.
    rewrite fexp_eq in HE.
    pose proof (digits2_bounds p) as [Lp _].
    set (d := Z.pos (digits2_pos p)) in *.
    assert (HEd : E = d + e - 53) by lia.
    assert (Hn : E - e = d - 53) by lia.
    assert (Hd : 53 <= d) by lia.
    assert (Hq : 2 ^ 52 <= Z.pos p / 2 ^ (E - e)).
    { apply Z.div_le_lower_bound; [exact Pn|].
      rewrite Hn, <- pow2_split by lia.
      replace (d - 53 + 52) with (d - 1) by lia. exact Lp. }
    assert (Uf' : Z.pos mf < 2 ^ 53).
    { eapply Z.lt_le_trans; [exact Uf|]. apply Z.pow_le_mono_r; lia. }
    replace (E - t) with ((E - ef - 1) + 1 + (ef - t)) by lia.
    rewrite !pow2_split by lia.
    pose proof (pow2_pos (ef - t) ltac:(lia)) as Pf.
    pose proof (pow2_pos (E - ef - 1) ltac:(lia)) as Pg.
    change (2 ^ 1) with 2. change (2 ^ 53) with (2 * 2 ^ 52) in Uf'.
    set (A := 2 ^ (ef - t)) in *. set (B := 2 ^ (E - ef - 1)) in *.
    set (C := 2 ^ 52) in *. set (Q := Z.pos p / 2 ^ (E - e)) in *.
    clearbody A B C Q.
    assert (Z.pos mf * A <= 2 * C * A) by nia.
    assert (C * 1 <= Q * B) by (apply Z.mul_le_mono_nonneg; lia).
    assert (2 * C * A <= Q * (B * 2 * A)) by nia.
    lia.
Qed.

Lemma scaled_pos t (m : positive) e : t <= e -> 0 < scaled t (Z.pos m) e.
Proof.
  intros H. unfold scaled. pose proof (pow2_pos (e - t) ltac:(lia)). nia.
Qed.

Lemma scaled_pos_inv t m e : t <= e -> 0 < scaled t m e -> 0 < m.
Proof.
  intros H. unfold scaled. pose proof (pow2_pos (e - t) ltac:(lia)). nia.
Qed.

Lemma scaled_mono t m m' e : t <= e -> m <= m' -> scaled t m e <= scaled t m' e.
Proof.
  intros H Hm. unfold scaled. pose proof (pow2_pos (e - t) ltac:(lia)). nia.
Qed.

(** One shift to the exponent of the binade. *)
Lemma shr_fexp_lower t (mf : positive) ef m e l :
  bounded prec emax mf ef = true -> t <= ef -> t <= e ->
  scaled t (Z.pos mf) ef <= scaled t m e ->
  scaled t (Z.pos mf) ef
  <= scaled t (shr_m (shr_fexp prec emax m e l).1)
       (shr_fexp prec emax m e l).2 /\
  e <= (shr_fexp prec emax m e l).2.
Proof.
  intros Hf Tf Te Hle.
  assert (Hm : 0 < m).
  { apply (scaled_pos_inv t m e Te).
    pose proof (scaled_pos t mf ef Tf). lia. }
  destruct (shr_fexp_spec m e l ltac:(lia)) as [Hs He]. rewrite Hs, He.
  destruct (Z_le_gt_dec (fexp prec emax (Zdigits2 m + e)) e) as [Hno|Hyes].
  - rewrite Z.max_l by lia. rewrite Z.div_1_r, Z.add_0_r.
    split; [exact Hle | lia].
  - rewrite Z.max_r by lia.
    replace (e + (fexp prec emax (Zdigits2 m + e) - e))
      with (fexp prec emax (Zdigits2 m + e)) by lia.
    split; [|lia].
    apply trunc_lower; auto; lia.
Qed.

(** Rounding to nearest keeps a number above every float below it. *)
Lemma binary_round_aux_lower t (mf : positive) ef mx ex lx :
  bounded prec emax mf ef = true -> t <= ef -> t <= ex ->
  scaled t (Z.pos mf) ef <= scaled t mx ex ->
  sf_above t mf ef (binary_round_aux prec emax false mx ex lx).
Proof.
  intros Hf Tf Tx Hle. unfold binary_round_aux.
  destruct (shr_fexp_lower t mf ef mx ex lx Hf Tf Tx Hle) as [H1 E1].
  destruct (shr_fexp prec emax mx ex lx) as [mrs' e'].
  cbn [fst snd] in H1, E1.
  assert (H2 : scaled t (Z.pos mf) ef
               <= scaled t (round_nearest_even (shr_m mrs')
                              (loc_of_shr_record mrs')) e').
  { etransitivity; [exact H1|]. apply scaled_mono; [lia|].
    apply round_nearest_even_bounds. }
  destruct (shr_fexp_lower t mf ef _ e' loc_Exact Hf Tf ltac:(lia) H2)
    as [H3 E3].
  destruct (shr_fexp prec emax _ e' loc_Exact) as [mrs'' e''].
  cbn [fst snd] in H3, E3.
  pose proof (scaled_pos t mf ef Tf) as Hpos.
  assert (H4 : 0 < shr_m mrs'')
    by (apply (scaled_pos_inv t _ e''); lia).
  destruct (shr_m mrs'') as [|m|m]; try lia.
  destruct (Z.leb e'' (emax - prec)); simpl; [exact H3 | exact I].
Qed.

(** A product of floats is at least every float below the exact product. *)
Lemma SFmul_lower t (ma : positive) ea (me : positive) ee (mb : positive) eb :
  bounded prec emax ma ea = true -> t <= ea -> t <= ee + eb ->
  scaled t (Z.pos ma) ea <= scaled t (Z.pos me * Z.pos mb) (ee + eb) ->
  sf_above t ma ea
    (SFmul prec emax (S754_finite false me ee) (S754_finite false mb eb)).
Proof.
  intros Ha Ta Te Hle. cbn [SFmul xorb].
  apply binary_round_aux_lower; auto.
Qed.

(** A quotient of floats is at least every float below the exact
    quotient. *)
Lemma SFdiv_lower t (ma : positive) ea (mb : positive) eb
    (me : positive) ee :
  bounded prec emax ma ea = true -> bounded prec emax mb eb = true ->
  bounded prec emax me ee = true -> t <= -4000 ->
  scaled t (Z.pos me * Z.pos mb) (ee + eb) <= scaled t (Z.pos ma) ea ->
  sf_above t me ee
    (SFdiv prec emax (S754_finite false ma ea) (S754_finite false mb eb)).
Proof.
  intros Ha Hb He Ht Hle. cbn [SFdiv xorb]. unfold SFdiv_core_binary.
  pose proof (bounded_inv _ _ Ha) as [Ca Ua].
  pose proof (bounded_inv _ _ Hb) as [Cb Ub].
  pose proof (bounded_inv _ _ He) as [Ce Ue].
  pose proof (digits2_bounds ma) as [La _].
  pose proof (digits2_bounds mb) as [_ Ub'].
  pose proof (digits2_bounds me) as [_ Ue'].
  cbn [Zdigits2].
  set (d1 := Z.pos (digits2_pos ma)) in *.
  set (d2 := Z.pos (digits2_pos mb)) in *.
  set (e' := Z.min (fexp prec emax (d1 + ea - (d2 + eb))) (ea - eb)).
  assert (He' : e' = Z.min (Z.max (d1 + ea - (d2 + eb) - 53) (-1074))
                       (ea - eb)) by reflexivity.
  clearbody e'.
  set (s := ea - eb - e').
  assert (Hs : 0 <= s) by (unfold s; lia).
  assert (Hm' : match s with
                | 0 => Z.pos ma
                | Z.pos _ => Z.shiftl (Z.pos ma) s
                | Z.neg _ => 0
                end = Z.pos ma * 2 ^ s).
  { destruct s as [|p|p]; [lia | | lia].
    apply Z.shiftl_mul_pow2. lia. }
  rewrite Hm'. clear Hm'.
  destruct (Z.div_eucl (Z.pos ma * 2 ^ s) (Z.pos mb)) as [q r] eqn:Hdiv.
  assert (Hq : q = Z.pos ma * 2 ^ s / Z.pos mb)
    by (unfold Z.div; rewrite Hdiv; reflexivity).
  clear Hdiv.
  apply binary_round_aux_lower; auto; try lia.
  pose proof (pow2_pos s Hs) as Ps.
  unfold scaled in *.
  destruct (Z_le_gt_dec e' ee) as [Hge|Hlt].
  - replace (ee - t) with ((ee - e') + (e' - t)) by lia.
    rewrite pow2_split, Z.mul_assoc by lia.
    apply Z.mul_le_mono_nonneg_r;
      [pose proof (pow2_pos (e' - t) ltac:(lia)); lia|].
    rewrite Hq. apply Z.div_le_lower_bound; [lia|].
    replace (ee + eb - t) with ((ee - e') + (e' + eb - t)) in Hle by lia.
    replace (ea - t) with (s + (e' + eb - t)) in Hle by (unfold s; lia).
    rewrite !pow2_split in Hle by lia.
    pose proof (pow2_pos (e' + eb - t) ltac:(lia)) as Pc.
    pose proof (pow2_pos (ee - e') ltac:(lia)) as Pd.
    set (A := 2 ^ (ee - e')) in *. set (B := 2 ^ s) in *.
    set (C := 2 ^ (e' + eb - t)) in *. clearbody A B C. nia.
  - set (de := Z.pos (digits2_pos me)) in *.
    assert (Hs53 : 52 + d2 <= d1 - 1 + s) by (unfold s; lia).
    assert (Hq52 : 2 ^ 52 <= q).
    { rewrite Hq. apply Z.div_le_lower_bound; [lia|].
      assert (Z.pos mb * 2 ^ 52 <= 2 ^ d2 * 2 ^ 52)
        by (apply Z.mul_le_mono_nonneg_r; lia).
      assert (2 ^ d2 * 2 ^ 52 <= 2 ^ (d1 - 1) * 2 ^ s).
      { rewrite <- !pow2_split by (unfold d1, d2; lia).
        apply Z.pow_le_mono_r; lia. }
      assert (2 ^ (d1 - 1) * 2 ^ s <= Z.pos ma * 2 ^ s)
        by (apply Z.mul_le_mono_nonneg_r; lia).
      lia. }
    assert (Ue53 : Z.pos me < 2 ^ 53).
    { eapply Z.lt_le_trans; [exact Ue'|]. apply Z.pow_le_mono_r; lia. }
    replace (e' - t) with ((e' - ee - 1) + 1 + (ee - t)) by lia.
    rewrite !pow2_split by lia.
    pose proof (pow2_pos (ee - t) ltac:(lia)) as Pf.
    pose proof (pow2_pos (e' - ee - 1) ltac:(lia)) as Pg.
    change (2 ^ 1) with 2. change (2 ^ 53) with (2 * 2 ^ 52) in Ue53.
    set (A := 2 ^ (ee - t)) in *. set (B := 2 ^ (e' - ee - 1)) in *.
    set (C := 2 ^ 52) in *. clearbody A B C.
    assert (Z.pos me * A <= 2 * C * A) by nia.
    assert (C * 1 <= q * B) by (apply Z.mul_le_mono_nonneg; lia).
    assert (2 * C * A <= q * (B * 2 * A)) by nia.
    lia.
Qed.

(** Only a positive bound is above a number that is not negative. *)
Lemma SFltb_pos x y : sf_nonneg x = true -> SFltb x y = true -> sf_pos y = true.
Proof.
  destruct x as [sx|sx| |sx mx ex], y as [sy|sy| |sy my ey];
    try destruct sx; try destruct sy; simpl; intros Hx H;
    try reflexivity; try discriminate.
Qed.

Lemma binary_round_aux_not_nan mx ex lx :
  0 <= mx -> binary_round_aux prec emax false mx ex lx <> S754_nan.
Proof.
  intros Hm. unfold binary_round_aux.
  destruct (shr_fexp_spec mx ex lx Hm) as [H1 _].
  destruct (shr_fexp prec emax mx ex lx) as [mrs' e']. cbn [fst] in H1.
  assert (P1 : 0 <= shr_m mrs').
  { rewrite H1. apply Z.div_pos; [exact Hm|]. apply pow2_pos. lia. }
  pose proof (round_nearest_even_bounds (shr_m mrs')
                (loc_of_shr_record mrs')) as [P2 _].
  destruct (shr_fexp_spec (round_nearest_even (shr_m mrs')
                             (loc_of_shr_record mrs')) e' loc_Exact
              ltac:(lia)) as [H3 _].
  destruct (shr_fexp prec emax _ e' loc_Exact) as [mrs'' e''].
  cbn [fst] in H3.
  assert (P3 : 0 <= shr_m mrs'').
  { rewrite H3. apply Z.div_pos; [lia|]. apply pow2_pos. lia. }
  destruct (shr_m mrs'') as [|m|m]; [discriminate | | lia].
  destruct (Z.leb _ _); discriminate.
Qed.

Lemma SFleb_zero_nonneg s x :
  sf_nonneg x = true -> x <> S754_nan -> SFleb (S754_zero s) x = true.
Proof.
  destruct x as [sx|sx| |sx mx ex]; try destruct sx; simpl; intros Hx Hn;
    try reflexivity; try discriminate; congruence.
Qed.

(** The test on the quotient implies the bound on the product: when the
    rounded quotient [a / b] is below [e], the exact quotient is below [e],
    so [a] is below the exact product and hence not above the rounded
    one. *)
Lemma SF_div_ltb_leb_mul a b e :
  SpecFloat.valid_binary prec emax a = true ->
  SpecFloat.valid_binary prec emax b = true ->
  SpecFloat.valid_binary prec emax e = true ->
  SpecFloat.valid_binary prec emax (SFdiv prec emax a b) = true ->
  SpecFloat.valid_binary prec emax (SFmul prec emax e b) = true ->
  sf_nonneg a = true -> sf_nonneg b = true ->
  SFeqb b (S754_zero false) = false ->
  SFltb (SFdiv prec emax a b) e = true ->
  SFleb a (SFmul prec emax e b) = true.
Proof.
  intros Va Vb Ve Vq Vp Na Nb Hz Hlt.
  pose proof (SFltb_pos _ _ (SFdiv_nonneg _ _ _ _ Na Nb Hz) Hlt) as Pe.
  destruct e as [se|se| |se me ee]; try discriminate;
    destruct se; try discriminate; clear Pe.
  - (* the bound is +infinity *)
    destruct b as [sb|sb| |sb mb eb]; try discriminate;
      try destruct sb; try discriminate;
      destruct a as [sa|sa| |sa ma ea]; try destruct sa; try discriminate;
      reflexivity.
  - destruct b as [sb|sb| |sb mb eb]; try discriminate;
      try destruct sb; try discriminate.
    + destruct a as [sa|sa| |sa ma ea]; try destruct sa; try discriminate;
        reflexivity.
    + destruct a as [sa|sa| |sa ma ea]; discriminate.
    + destruct a as [sa|sa| |sa ma ea]; try destruct sa; try discriminate.
      * apply SFleb_zero_nonneg.
        -- cbn [SFmul xorb]. apply binary_round_aux_nonneg.
        -- cbn [SFmul xorb]. apply binary_round_aux_not_nan. lia.
      * apply SFleb_zero_nonneg.
        -- cbn [SFmul xorb]. apply binary_round_aux_nonneg.
        -- cbn [SFmul xorb]. apply binary_round_aux_not_nan. lia.
      * cbn [SpecFloat.valid_binary] in Va, Vb, Ve.
        pose proof (bounded_inv _ _ Va) as [Ca Ua].
        pose proof (bounded_inv _ _ Vb) as [Cb Ub].
        pose proof (bounded_inv _ _ Ve) as [Ce Ue].
        set (t := -4000).
        destruct (Z_le_gt_dec (scaled t (Z.pos me * Z.pos mb) (ee + eb))
                    (scaled t (Z.pos ma) ea)) as [Hge|Hlt'].
        -- exfalso.
           pose proof (SFdiv_lower t ma ea mb eb me ee Va Vb Ve
                         ltac:(unfold t; lia) Hge) as Hab.
           destruct (SFdiv prec emax _ _) as [sq|sq| |sq mq eq];
             try destruct sq; try contradiction; try discriminate.
           cbn [SpecFloat.valid_binary] in Vq.
           pose proof (bounded_inv _ _ Vq) as [Cq Uq].
           unfold SFltb in Hlt.
           rewrite (SFcompare_scaled t mq eq me ee Vq Ve) in Hlt
             by (unfold t; lia).
           cbn [sf_above] in Hab.
           destruct (Z.compare_spec (scaled t (Z.pos mq) eq)
                       (scaled t (Z.pos me) ee)); try discriminate. lia.
        -- pose proof (SFmul_lower t ma ea me ee mb eb Va
                         ltac:(unfold t; lia) ltac:(unfold t; lia)
                         ltac:(lia)) as Hab.
           destruct (SFmul prec emax _ _) as [sq|sq| |sq mq eq];
             try destruct sq; try contradiction; try reflexivity.
           cbn [SpecFloat.valid_binary] in Vp.
           pose proof (bounded_inv _ _ Vp) as [Cq Uq].
           unfold SFleb.
           rewrite (SFcompare_scaled t ma ea mq eq Va Vp)
             by (unfold t; lia).
           cbn [sf_above] in Hab.
           destruct (Z.compare_spec (scaled t (Z.pos ma) ea)
                       (scaled t (Z.pos mq) eq)); try reflexivity. lia.
Qed.

Lemma div_ltb_leb_mul (a b e : float) :
  fnonneg a -> fnonneg b -> (b =? 0)%float = false ->
  (a / b <? e)%float = true -> (a <=? e * b)%float = true.
Proof.
  unfold fnonneg. intros Na Nb Hz Hlt.
  rewrite FloatAxioms.eqb_spec in Hz.
  rewrite FloatAxioms.ltb_spec, div_spec in Hlt.
  rewrite FloatAxioms.leb_spec, mul_spec.
  apply SF_div_ltb_leb_mul; auto using Prim2SF_valid.
  - rewrite <- div_spec. apply Prim2SF_valid.
  - rewrite <- mul_spec. apply Prim2SF_valid.
Qed.

End FloatFacts.

(** ** Running computations *)

Section Running.

Context {A B : Type}.

Lemma bind_Return (c : M A) (k : A -> M B) s s1 a :
  c s = (s1, Return a) -> bind c k s = k a s1.
Proof. unfold bind. now intros ->. Qed.

Lemma bind_Raise (c : M A) (k : A -> M B) s s1 e :
  c s = (s1, Raise e) -> bind c k s = (s1, Raise e).
Proof. unfold bind. now intros ->. Qed.

Lemma bind_inv_Return (c : M A) (k : A -> M B) s s' b :
  bind c k s = (s', Return b) ->
  exists s1 a, c s = (s1, Return a) /\ k a s1 = (s', Return b).
Proof.
  unfold bind. destruct (c s) as [s1 [a|e]]; [eauto | discriminate].
Qed.

Lemma bind_inv_Raise (c : M A) (k : A -> M B) s s' e :
  bind c k s = (s', Raise e) ->
  c s = (s', Raise e) \/
  exists s1 a, c s = (s1, Return a) /\ k a s1 = (s', Raise e).
Proof.
  unfold bind. destruct (c s) as [s1 [a|e1]]; [eauto | intros [= -> ->]; auto].
Qed.

End Running.

Lemma lift_inv {A} (o : outcome A) s s' r :
  lift o s = (s', r) -> s' = s /\ r = o.
Proof. unfold lift. now intros [= -> ->]. Qed.

Lemma float_truediv_Return a b q :
  float_truediv a b = Return q -> (b =? 0)%float = false /\ q = (a / b)%float.
Proof.
  unfold float_truediv. destruct (b =? 0)%float; [discriminate|].
  now intros [= <-].
Qed.

Lemma float_truediv_zero a b :
  (b =? 0)%float = true -> float_truediv a b = Raise ZeroDivisionError.
Proof. unfold float_truediv. now intros ->. Qed.

Lemma float_truediv_nonzero a b :
  (b =? 0)%float = false -> float_truediv a b = Return (a / b)%float.
Proof. unfold float_truediv. now intros ->. Qed.

(** *** What each method of [Vec] does to the store *)

Lemma Vec_get_run s l v : s !! l = Some v -> Vec_get l s = (s, Return v).
Proof. unfold Vec_get. now intros ->. Qed.

Lemma Vec_get_inv s l s' v :
  Vec_get l s = (s', Return v) -> s' = s /\ s !! l = Some v.
Proof.
  unfold Vec_get. destruct (s !! l); [now intros [= <- <-] | discriminate].
Qed.

Lemma Vec_get_store s l : (Vec_get l s).1 = s.
Proof. unfold Vec_get. now destruct (s !! l). Qed.

Lemma same_size_run (a b : vec) s :
  length a = length b -> same_size a b s = (s, Return tt).
Proof. unfold same_size. intros ->. now rewrite Nat.eqb_refl. Qed.

Lemma same_size_mismatch (a b : vec) s :
  length a <> length b -> same_size a b s = (s, Raise PetscError).
Proof.
  unfold same_size. intros H. apply Nat.eqb_neq in H. now rewrite H.
Qed.

Lemma same_size_inv (a b : vec) s s' u :
  same_size a b s = (s', Return u) -> s' = s /\ length a = length b.
Proof.
  unfold same_size. destruct (Nat.eqb _ _) eqn:E; [|discriminate].
  apply Nat.eqb_eq in E. now intros [= <- _].
Qed.

Lemma same_size_store (a b : vec) s : (same_size a b s).1 = s.
Proof. unfold same_size. now destruct (Nat.eqb _ _). Qed.

Lemma dot_run s x y vx vy :
  s !! x = Some vx -> s !! y = Some vy -> length vx = length vy ->
  Vec.dot x y s = (s, Return (vdot vx vy)).
Proof.
  intros Hx Hy Hl. unfold Vec.dot.
  rewrite (bind_Return _ _ _ _ _ (Vec_get_run _ _ _ Hx)).
  rewrite (bind_Return _ _ _ _ _ (Vec_get_run _ _ _ Hy)).
  now rewrite (bind_Return _ _ _ _ _ (same_size_run _ _ _ Hl)).
Qed.

Lemma dot_inv s x y s' d :
  Vec.dot x y s = (s', Return d) ->
  s' = s /\ exists vx vy, s !! x = Some vx /\ s !! y = Some vy /\
                          length vx = length vy /\ d = vdot vx vy.
Proof.
  unfold Vec.dot. intros H.
  apply bind_inv_Return in H as (s1 & vx & H1 & H).
  apply Vec_get_inv in H1 as [-> Hx].
  apply bind_inv_Return in H as (s2 & vy & H2 & H).
  apply Vec_get_inv in H2 as [-> Hy].
  apply bind_inv_Return in H as (s3 & u & H3 & H).
  apply same_size_inv in H3 as [-> Hl].
  unfold ret in H. injection H as <- <-. eauto 10.
Qed.

Lemma dot_store s x y : (Vec.dot x y s).1 = s.
Proof.
  unfold Vec.dot, bind, Vec_get.
  destruct (s !! x); [|reflexivity]. destruct (s !! y); [|reflexivity].
  unfold same_size. now destruct (Nat.eqb _ _).
Qed.

Lemma axpy_run s y alpha x vy vx :
  s !! y = Some vy -> s !! x = Some vx -> length vx = length vy ->
  Vec.axpy y alpha x s = (<[y := vaxpy alpha vx vy]> s, Return tt).
Proof.
  intros Hy Hx Hl. unfold Vec.axpy.
  rewrite (bind_Return _ _ _ _ _ (Vec_get_run _ _ _ Hy)).
  rewrite (bind_Return _ _ _ _ _ (Vec_get_run _ _ _ Hx)).
  now rewrite (bind_Return _ _ _ _ _ (same_size_run _ _ _ Hl)).
Qed.

Lemma aypx_run s y beta x vy vx :
  s !! y = Some vy -> s !! x = Some vx -> length vx = length vy ->
  Vec.aypx y beta x s = (<[y := vaypx beta vx vy]> s, Return tt).
Proof.
  intros Hy Hx Hl. unfold Vec.aypx.
  rewrite (bind_Return _ _ _ _ _ (Vec_get_run _ _ _ Hy)).
  rewrite (bind_Return _ _ _ _ _ (Vec_get_run _ _ _ Hx)).
  now rewrite (bind_Return _ _ _ _ _ (same_size_run _ _ _ Hl)).
Qed.

Lemma copy_run s src dst a d :
  s !! src = Some a -> s !! dst = Some d -> length a = length d ->
  Vec.copy src dst s = (<[dst := a]> s, Return tt).
Proof.
  intros Ha Hd Hl. unfold Vec.copy.
  rewrite (bind_Return _ _ _ _ _ (Vec_get_run _ _ _ Ha)).
  rewrite (bind_Return _ _ _ _ _ (Vec_get_run _ _ _ Hd)).
  now rewrite (bind_Return _ _ _ _ _ (same_size_run _ _ _ Hl)).
Qed.

Lemma duplicate_run s v a :
  s !! v = Some a ->
  Vec.duplicate v s = (s ++ [replicate (length a) 0%float], Return (length s)).
Proof.
  intros Ha. unfold Vec.duplicate.
  now rewrite (bind_Return _ _ _ _ _ (Vec_get_run _ _ _ Ha)).
Qed.

Lemma sub_run s a b va vb :
  s !! a = Some va -> s !! b = Some vb -> length va = length vb ->
  Vec.sub a b s = (s ++ [vsub va vb], Return (length s)).
Proof.
  intros Ha Hb Hl. unfold Vec.sub.
  rewrite (bind_Return _ _ _ _ _ (Vec_get_run _ _ _ Ha)).
  rewrite (bind_Return _ _ _ _ _ (Vec_get_run _ _ _ Hb)).
  now rewrite (bind_Return _ _ _ _ _ (same_size_run _ _ _ Hl)).
Qed.

Lemma ghostUpdate_run s x v :
  s !! x = Some v -> Vec.ghostUpdate x s = (s, Return tt).
Proof.
  intros Hx. unfold Vec.ghostUpdate.
  now rewrite (bind_Return _ _ _ _ _ (Vec_get_run _ _ _ Hx)).
Qed.

Lemma duplicate_inv (s s' : store) v l :
  Vec.duplicate v s = (s', Return l) ->
  exists a, s !! v = Some a /\
            s' = s ++ [replicate (length a) 0%float] /\ l = length s.
Proof.
  unfold Vec.duplicate. intros H.
  apply bind_inv_Return in H as (s1 & a & H1 & H).
  apply Vec_get_inv in H1 as [-> Ha].
  unfold Vec_new in H. injection H as <- <-. eauto.
Qed.

Lemma copy_inv (s s' : store) src dst u :
  Vec.copy src dst s = (s', Return u) ->
  exists a d, s !! src = Some a /\ s !! dst = Some d /\
              length a = length d /\ s' = <[dst := a]> s.
Proof.
  unfold Vec.copy. intros H.
  apply bind_inv_Return in H as (s1 & a & H1 & H).
  apply Vec_get_inv in H1 as [-> Ha].
  apply bind_inv_Return in H as (s2 & d & H2 & H).
  apply Vec_get_inv in H2 as [-> Hd].
  apply bind_inv_Return in H as (s3 & t & H3 & H).
  apply same_size_inv in H3 as [-> Hl].
  unfold Vec_put in H. injection H as <- _. eauto 10.
Qed.

Lemma sub_inv (s s' : store) a b l :
  Vec.sub a b s = (s', Return l) ->
  exists va vb, s !! a = Some va /\ s !! b = Some vb /\
                length va = length vb /\
                s' = s ++ [vsub va vb] /\ l = length s.
Proof.
  unfold Vec.sub. intros H.
  apply bind_inv_Return in H as (s1 & va & H1 & H).
  apply Vec_get_inv in H1 as [-> Ha].
  apply bind_inv_Return in H as (s2 & vb & H2 & H).
  apply Vec_get_inv in H2 as [-> Hb].
  apply bind_inv_Return in H as (s3 & t & H3 & H).
  apply same_size_inv in H3 as [-> Hl].
  unfold Vec_new in H. injection H as <- <-. eauto 10.
Qed.

Lemma ghostUpdate_inv (s s' : store) x u :
  Vec.ghostUpdate x s = (s', Return u) -> s' = s.
Proof.
  unfold Vec.ghostUpdate. intros H.
  apply bind_inv_Return in H as (s1 & a & H1 & H).
  apply Vec_get_inv in H1 as [-> _].
  unfold ret in H. now injection H as <- _.
Qed.

(** ** One pass of the loop of [cg] *)

Ltac bind_inv H :=
  let s1 := fresh "s" in
  let a := fresh "a" in
  let H1 := fresh "Hrun" in
  apply bind_inv_Return in H as (s1 & a & H1 & H).

(** A pass that completes went through the three divisions, its new
    [r_norm2] is a squared norm, and it left the loop exactly when the test
    of the source held. *)
Lemma cg_body_inv action_A x r p r0 eps rn s s' brk rn' :
  cg_body action_A x r p r0 eps rn s = (s', Return (brk, rn')) ->
  (exists v, rn' = vdot v v) /\
  (r0 =? 0)%float = false /\
  brk = (abs (rn' / r0) <? eps)%float.
Proof.
  unfold cg_body. intros H.
  bind_inv H. bind_inv H. bind_inv H. bind_inv H. bind_inv H.
  bind_inv H. bind_inv H. bind_inv H.
  apply dot_inv in Hrun4 as [-> (vr & vr' & Hr & Hr' & _ & ->)].
  rewrite Hr in Hr'. injection Hr' as <-.
  apply lift_inv in Hrun6 as [-> Hq]. symmetry in Hq.
  apply float_truediv_Return in Hq as [Hz ->].
  destruct (abs _ <? eps)%float eqn:E; [|bind_inv H];
    unfold ret in H; injection H as _ <- <-;
    (split; [eauto|]; split; [exact Hz | now rewrite E]).
Qed.

(** With the squared norms of the loop, the test of the source is the test
    of the specification. *)
Lemma cg_body_test action_A x r p r0 eps rn s s' brk rn' :
  fnonneg r0 ->
  cg_body action_A x r p r0 eps rn s = (s', Return (brk, rn')) ->
  fnonneg rn' /\ (r0 =? 0)%float = false /\
  brk = Spec.below_tol rn' r0 eps.
Proof.
  intros H0 H. apply cg_body_inv in H as ((v & ->) & Hz & ->).
  split; [apply fnonneg_vdot|]. split; [exact Hz|].
  unfold Spec.below_tol. apply ltb_abs_nonneg, fnonneg_div; auto.
  apply fnonneg_vdot.
Qed.

(** ** The loop of [cg] *)

Lemma last_cons_default {A} (l : list A) (a d : A) :
  List.last (a :: l) d = List.last l a.
Proof.
  revert a d. induction l as [|b l IH]; intros a d; [reflexivity|].
  change (List.last (a :: b :: l) d) with (List.last (b :: l) d).
  rewrite IH. symmetry. apply IH.
Qed.

Lemma removelast_cons_cons {A} (a b : A) (l : list A) :
  removelast (a :: b :: l) = a :: removelast (b :: l).
Proof. reflexivity. Qed.

(** Every run of the loop that returns is described by its trace. *)
Lemma cg_while_exit action_A x r p max_iter r0 eps :
  fnonneg r0 ->
  forall fuel k rn trace s s' e,
    (Z.to_nat (max_iter - k) <= fuel)%nat ->
    cg_while fuel action_A x r p max_iter r0 eps k rn trace s
    = (s', Return e) ->
    exists more, loop_exit_ok max_iter r0 eps k rn trace more e.
Proof.
  intros H0.
  assert (Hstop : forall k rn trace,
             ~ (k < max_iter) ->
             loop_exit_ok max_iter r0 eps k rn trace []
               (CgExit k rn r0 eps trace Exhausted)).
  { intros k rn trace Hk. unfold loop_exit_ok; simpl.
    rewrite app_nil_r. repeat split; auto; try lia. congruence. }
  induction fuel as [|fuel IH]; intros k rn trace s s' e Hfuel H; simpl in H.
  - destruct (k <? max_iter) eqn:Hk.
    + apply Z.ltb_lt in Hk. lia.
    + apply Z.ltb_ge in Hk. unfold ret in H. injection H as _ <-.
      exists []. apply Hstop. lia.
  - destruct (k <? max_iter) eqn:Hk.
    2:{ apply Z.ltb_ge in Hk. unfold ret in H. injection H as _ <-.
        exists []. apply Hstop. lia. }
    apply Z.ltb_lt in Hk.
    bind_inv H. destruct a as [brk rn'].
    destruct (cg_body_test _ _ _ _ _ _ _ _ _ _ _ H0 Hrun) as (Hnn & Hz & Hb).
    destruct brk.
    + unfold ret in H. injection H as _ <-.
      exists [rn']. unfold loop_exit_ok; simpl.
      repeat split; auto; try lia; congruence.
    + apply IH in H as (more & Ht & Hk' & Hr0 & He & Hrn & Hall & Hnz & Hby);
        [|lia].
      exists (rn' :: more). unfold loop_exit_ok.
      rewrite last_cons_default.
      split; [rewrite Ht, <- app_assoc; reflexivity|].
      split; [rewrite Hk'; simpl length; lia|].
      split; [exact Hr0|]. split; [exact He|]. split; [exact Hrn|].
      split.
      { destruct more as [|q more]; [constructor|].
        rewrite removelast_cons_cons. constructor; auto. }
      split; [auto|].
      destruct (exit_by e).
      * destruct Hby as (Hne & Hlast & Hle).
        split; [congruence|]. split; [exact Hlast | exact Hle].
      * destruct Hby as (Hall' & Hmax).
        split; [constructor; auto | lia].
Qed.

(** More fuel than [Z.to_nat (max_iter - k)] changes nothing: the loop
    of the model stops on its condition, as the loop of the source. *)
Lemma cg_while_fuel action_A x r p max_iter r0 eps :
  forall fuel k rn trace s,
    (Z.to_nat (max_iter - k) <= fuel)%nat ->
    cg_while (S fuel) action_A x r p max_iter r0 eps k rn trace s
    = cg_while fuel action_A x r p max_iter r0 eps k rn trace s.
Proof.
  induction fuel as [|fuel IH]; intros k rn trace s Hfuel.
  - cbn [cg_while]. destruct (k <? max_iter) eqn:Hk; [|reflexivity].
    apply Z.ltb_lt in Hk. lia.
  - cbn [cg_while]. destruct (k <? max_iter) eqn:Hk; [|reflexivity].
    apply Z.ltb_lt in Hk. unfold bind.
    destruct (cg_body action_A x r p r0 eps rn s) as [s1 [[brk rn']|ex]];
      [|reflexivity].
    destruct brk; [reflexivity|].
    specialize (IH (k + 1) rn' (trace ++ [rn']) s1 ltac:(lia)).
    cbn [cg_while] in IH. exact IH.
Qed.

(** What the statements before the loop hand to it. *)
Lemma cg_init_inv {libm : Libm} action_A b x rtol s s0 r p rn eps :
  cg_init action_A b x rtol s = (s0, Return (r, p, rn, eps)) ->
  (exists v, rn = vdot v v) /\ float_pow2 rtol = Return eps.
Proof.
  unfold cg_init. intros H.
  do 9 bind_inv H.
  apply dot_inv in Hrun6 as [-> (vr & vr' & Hr & Hr' & _ & ->)].
  rewrite Hr in Hr'. injection Hr' as <-.
  apply lift_inv in Hrun7 as [-> Hq]. symmetry in Hq.
  unfold ret in H. injection H as _ _ _ <- <-. eauto.
Qed.

(** The store a call of [cg] has when it reaches its loop: the copy of [b]
    made first, whatever the one application of the operator to [x] wrote,
    and then the residual [b - y], twice: as [r] and as [p]. *)
Lemma cg_init_store {libm : Libm} action_A b x rtol (s s0 : store) r p
    rn eps :
  cg_init action_A b x rtol s = (s0, Return (r, p, rn, eps)) ->
  exists vb s2 y vb' vy,
    s !! b = Some vb /\
    action_A x (s ++ [vb]) = (s2, Return y) /\
    s2 !! b = Some vb' /\ s2 !! y = Some vy /\
    s0 = s2 ++ [vsub vb' vy; vsub vb' vy] /\
    r = length s2 /\ p = S (length s2).
Proof.
  unfold cg_init. intros H.
  do 9 bind_inv H.
  apply duplicate_inv in Hrun as (vb & Hb & -> & ->).
  apply copy_inv in Hrun0 as (vb0 & d & Hb0 & Hd & _ & ->).
  rewrite lookup_app_l in Hb0 by (eapply lookup_lt_Some; exact Hb).
  rewrite Hb in Hb0. injection Hb0 as <-.
  rewrite insert_app_r_alt, Nat.sub_diag in Hrun1 by lia.
  cbn [insert list_insert] in Hrun1.
  apply sub_inv in Hrun2 as (vb' & vy & Hb' & Hy & _ & -> & ->).
  apply duplicate_inv in Hrun3 as (vr & Hr & -> & ->).
  rewrite lookup_app_r, Nat.sub_diag in Hr by lia.
  injection Hr as <-.
  apply copy_inv in Hrun4 as (vr & d' & Hr & _ & _ & ->).
  rewrite <- app_assoc, lookup_app_r, Nat.sub_diag in Hr by lia.
  injection Hr as <-.
  apply ghostUpdate_inv in Hrun5 as ->.
  apply dot_inv in Hrun6 as [-> _].
  apply lift_inv in Hrun7 as [-> _].
  unfold ret in H. injection H as <- <- <- _ _.
  exists vb, s3, a1, vb', vy.
  repeat split; try assumption.
  - rewrite insert_app_r_alt, Nat.sub_diag by lia.
    cbn [insert list_insert]. now rewrite <- app_assoc.
  - rewrite length_app. simpl. lia.
Qed.

(** The same for a whole call: the reference norm is the squared norm of
    the initial residual, the bound is the value of [rtol**2]. *)
Lemma cg_run_exit {libm : Libm} action_A b x max_iter rtol s s' e :
  cg_run action_A b x max_iter rtol s = (s', Return e) ->
  (exists v, exit_r0_norm2 e = vdot v v) /\
  float_pow2 rtol = Return (exit_eps e) /\
  loop_exit_ok max_iter (exit_r0_norm2 e) (exit_eps e) 0
    (exit_r0_norm2 e) [] (exit_trace e) e.
Proof.
  unfold cg_run. intros H.
  bind_inv H. destruct a as [[[r p] rn] eps].
  apply cg_init_inv in Hrun as ((vr & ->) & Heps).
  apply cg_while_exit in H as (more & Hok);
    [| apply fnonneg_vdot | rewrite Z.sub_0_r; lia].
  pose proof Hok as (Ht & _ & Hr0 & He & _).
  simpl in Ht. subst more. rewrite Hr0, He.
  split; [eauto|]. split; [exact Heps | exact Hok].
Qed.

(** ** [cg] against the specification's algorithm *)

Lemma bind_lift {A B} (o : outcome A) (k : A -> M B) s :
  bind (lift o) k s = match o with
                      | Return a => k a s
                      | Raise e => (s, Raise e)
                      end.
Proof. unfold bind, lift. now destruct o. Qed.

Lemma vaxpy_x_plus alpha (x p : vec) : vaxpy alpha p x = Spec.x_plus alpha x p.
Proof. reflexivity. Qed.

Lemma vaxpy_r_minus alpha (r y : vec) :
  vaxpy (- alpha)%float y r = Spec.r_minus alpha r y.
Proof.
  unfold vaxpy, Spec.r_minus. revert y.
  induction r as [|ri r IH]; intros [|yi y]; simpl; try reflexivity.
  now rewrite float_add_opp_mul, IH.
Qed.

Lemma vaypx_p_next beta (p r : vec) : vaypx beta r p = Spec.p_next beta p r.
Proof.
  unfold vaypx, Spec.p_next. revert r.
  induction p as [|pi p IH]; intros [|ri r]; simpl; try reflexivity.
  now rewrite float_add_comm, IH.
Qed.

Lemma length_zip_same {A B C} (f : A -> B -> C) (l : list A) (k : list B) n :
  length l = n -> length k = n -> length (zip_with f l k) = n.
Proof. intros Hl Hk. rewrite length_zip_with. lia. Qed.

Section Refinement.

Variable apply : vec -> vec.
Variable action_A : loc -> M loc.
Variable n : nat.
Hypothesis Himpl : implements apply action_A.
Hypothesis Hsize : forall v, length v = n -> length (apply v) = n.

Lemma cg_body_sim x r p r0 eps st s :
  fnonneg r0 ->
  holds s x r p st n ->
  match Spec.step apply st with
  | Raise e =>
      exists s', cg_body action_A x r p r0 eps (Spec.st_r_norm2 st) s
                 = (s', Raise e)
  | Return (st', beta) =>
      match float_truediv (Spec.st_r_norm2 st') r0 with
      | Raise e =>
          exists s', cg_body action_A x r p r0 eps (Spec.st_r_norm2 st) s
                     = (s', Raise e)
      | Return _ =>
          let brk := Spec.below_tol (Spec.st_r_norm2 st') r0 eps in
          exists s', cg_body action_A x r p r0 eps (Spec.st_r_norm2 st) s
                     = (s', Return (brk, Spec.st_r_norm2 st')) /\
                     holds s' x r p (after_pass brk beta st') n
      end
  end.
Proof.
  intros H0 (Hx & Hr & Hp & Hxr & Hxp & Hrp & Lx & Lr & Lp).
  destruct st as [vx vr vp rn]; simpl in *.
  destruct (Himpl s p vp Hp) as (s1 & y & HA & Hpre & Hfresh & Hy).
  pose proof (lookup_lt_Some _ _ _ Hx) as Bx.
  pose proof (lookup_lt_Some _ _ _ Hr) as Br.
  pose proof (lookup_lt_Some _ _ _ Hp) as Bp.
  pose proof (prefix_length _ _ Hpre) as Hlen.
  pose proof (prefix_lookup_Some _ _ _ _ Hx Hpre) as Hx1.
  pose proof (prefix_lookup_Some _ _ _ _ Hr Hpre) as Hr1.
  pose proof (prefix_lookup_Some _ _ _ _ Hp Hpre) as Hp1.
  pose proof (Hsize vp Lp) as Ly.
  unfold Spec.step; simpl.
  unfold cg_body.
  rewrite (bind_Return _ _ _ _ _ HA).
  rewrite (bind_Return _ _ _ _ _ (dot_run _ _ _ _ _ Hp1 Hy ltac:(lia))).
  rewrite bind_lift.
  destruct (float_truediv rn (vdot vp (apply vp))) as [alpha|e]; simpl;
    [|eauto].
  rewrite (bind_Return _ _ _ _ _ (axpy_run _ _ alpha _ _ _ Hx1 Hp1 ltac:(lia))).
  rewrite vaxpy_x_plus.
  set (vx' := Spec.x_plus alpha vx vp).
  set (s2 := <[x := vx']> s1).
  assert (Hx2 : s2 !! x = Some vx') by (apply list_lookup_insert_eq; lia).
  assert (Hr2 : s2 !! r = Some vr)
    by (unfold s2; rewrite list_lookup_insert_ne; auto).
  assert (Hp2 : s2 !! p = Some vp)
    by (unfold s2; rewrite list_lookup_insert_ne; auto).
  assert (Hy2 : s2 !! y = Some (apply vp))
    by (unfold s2; rewrite list_lookup_insert_ne; auto; lia).
  rewrite (bind_Return _ _ _ _ _
             (axpy_run _ _ (- alpha)%float _ _ _ Hr2 Hy2 ltac:(lia))).
  rewrite vaxpy_r_minus.
  set (vr' := Spec.r_minus alpha vr (apply vp)).
  set (s3 := <[r := vr']> s2).
  assert (L2 : length s2 = length s1) by apply length_insert.
  assert (Hr3 : s3 !! r = Some vr') by (apply list_lookup_insert_eq; lia).
  assert (Hx3 : s3 !! x = Some vx')
    by (unfold s3; rewrite list_lookup_insert_ne; auto).
  assert (Hp3 : s3 !! p = Some vp)
    by (unfold s3; rewrite list_lookup_insert_ne; auto).
  rewrite (bind_Return _ _ _ _ _ (dot_run _ _ _ _ _ Hr3 Hr3 eq_refl)).
  rewrite bind_lift.
  destruct (float_truediv (vdot vr' vr') rn) as [beta|e]; simpl; [|eauto].
  rewrite bind_lift.
  destruct (float_truediv (vdot vr' vr') r0) as [ratio|e] eqn:Eratio; simpl;
    [|eauto].
  apply float_truediv_Return in Eratio as [Hz ->].
  rewrite ltb_abs_nonneg
    by (apply fnonneg_div; auto; apply fnonneg_vdot).
  fold (Spec.below_tol (vdot vr' vr') r0 eps).
  assert (Lx' : length vx' = n) by (apply length_zip_same; auto).
  assert (Lr' : length vr' = n) by (apply length_zip_same; auto).
  destruct (Spec.below_tol (vdot vr' vr') r0 eps); simpl.
  - eexists. split; [reflexivity|]. unfold holds; simpl. auto 10.
  - rewrite (bind_Return _ _ _ _ _
               (aypx_run _ _ beta _ _ _ Hp3 Hr3 ltac:(lia))).
    rewrite vaypx_p_next.
    eexists. split; [reflexivity|]. unfold holds; simpl.
    assert (L3 : length s3 = length s2) by apply length_insert.
    split; [rewrite list_lookup_insert_ne; auto|].
    split; [rewrite list_lookup_insert_ne; auto|].
    split; [apply list_lookup_insert_eq; lia|].
    repeat split; auto. apply length_zip_same; auto.
Qed.

Lemma cg_while_sim x r p max_iter r0 eps :
  fnonneg r0 ->
  forall fuel k st trace s,
    holds s x r p st n ->
    fuel = Z.to_nat (max_iter - k) ->
    match Spec.iterate fuel apply r0 eps k st with
    | Return (xf, kf) =>
        exists s' e,
          cg_while fuel action_A x r p max_iter r0 eps k
            (Spec.st_r_norm2 st) trace s = (s', Return e) /\
          exit_k e = kf /\ s' !! x = Some xf
    | Raise ex =>
        exists s',
          cg_while fuel action_A x r p max_iter r0 eps k
            (Spec.st_r_norm2 st) trace s = (s', Raise ex)
    end.
Proof.
  intros H0. induction fuel as [|fuel IH]; intros k st trace s Hs Hfuel.
  - simpl. assert (Hk : (k <? max_iter) = false) by (apply Z.ltb_ge; lia).
    rewrite Hk. eexists _, _. split; [reflexivity|]. split; [reflexivity|].
    apply Hs.
  - assert (Hk : (k <? max_iter) = true) by (apply Z.ltb_lt; lia).
    cbn [cg_while Spec.iterate]. rewrite Hk.
    pose proof (cg_body_sim x r p r0 eps st s H0 Hs) as Hbody.
    destruct (Spec.step apply st) as [[st' beta]|ex]; cbn [Spec.obind].
    2:{ destruct Hbody as [s' Hb]. exists s'. now apply bind_Raise. }
    destruct (float_truediv (Spec.st_r_norm2 st') r0) as [ratio|ex] eqn:Er;
      cbn [Spec.obind].
    2:{ destruct Hbody as [s' Hb]. exists s'. now apply bind_Raise. }
    apply float_truediv_Return in Er as [_ ->].
    cbv zeta in Hbody. destruct Hbody as (s' & Hb & Hs').
    rewrite (bind_Return _ _ _ _ _ Hb).
    fold (Spec.below_tol (Spec.st_r_norm2 st') r0 eps).
    destruct (Spec.below_tol (Spec.st_r_norm2 st') r0 eps).
    + eexists _, _. split; [reflexivity|]. split; [reflexivity|]. apply Hs'.
    + specialize (IH (k + 1) _ (trace ++ [Spec.st_r_norm2 st']) s' Hs'
                     ltac:(lia)).
      exact IH.
Qed.

Lemma cg_init_sim {libm : Libm} b x rtol s vb vx :
  s !! b = Some vb -> s !! x = Some vx ->
  length vb = n -> length vx = n ->
  let st := Spec.init apply vb vx in
  exists s0 r p,
    holds s0 x r p st n /\
    cg_init action_A b x rtol s
    = bind (lift (float_pow2 rtol))
        (fun eps => ret (r, p, Spec.st_r_norm2 st, eps)) s0.
Proof.
  intros Hb Hx Lb Lx st.
  pose proof (lookup_lt_Some _ _ _ Hb) as Bb.
  pose proof (lookup_lt_Some _ _ _ Hx) as Bx.
  unfold cg_init.
  rewrite (bind_Return _ _ _ _ _ (duplicate_run _ _ _ Hb)).
  set (s1 := s ++ [replicate (length vb) 0%float]).
  assert (Hb1 : s1 !! b = Some vb) by (apply lookup_app_l_Some, Hb).
  assert (Hy1 : s1 !! length s = Some (replicate (length vb) 0%float))
    by (apply list_lookup_middle; reflexivity).
  rewrite (bind_Return _ _ _ _ _
             (copy_run _ _ _ _ _ Hb1 Hy1 ltac:(now rewrite length_replicate))).
  set (s2 := <[length s := vb]> s1).
  assert (Hx2 : s2 !! x = Some vx).
  { unfold s2. rewrite list_lookup_insert_ne by lia.
    apply lookup_app_l_Some, Hx. }
  assert (Hb2 : s2 !! b = Some vb).
  { unfold s2. rewrite list_lookup_insert_ne by lia. exact Hb1. }
  destruct (Himpl s2 x vx Hx2) as (s3 & y & HA & Hpre & Hfresh & Hy).
  rewrite (bind_Return _ _ _ _ _ HA).
  pose proof (prefix_length _ _ Hpre) as Hlen.
  assert (L2 : length s2 = S (length s)).
  { unfold s2, s1. rewrite length_insert, length_app. simpl. lia. }
  pose proof (prefix_lookup_Some _ _ _ _ Hb2 Hpre) as Hb3.
  pose proof (prefix_lookup_Some _ _ _ _ Hx2 Hpre) as Hx3.
  pose proof (Hsize vx Lx) as Ly.
  rewrite (bind_Return _ _ _ _ _ (sub_run _ _ _ _ _ Hb3 Hy ltac:(lia))).
  set (vr := vsub vb (apply vx)).
  assert (Lr : length vr = n) by (apply length_zip_same; auto).
  set (s4 := s3 ++ [vr]).
  assert (Hr4 : s4 !! length s3 = Some vr)
    by (apply list_lookup_middle; reflexivity).
  rewrite (bind_Return _ _ _ _ _ (duplicate_run _ _ _ Hr4)).
  set (s5 := s4 ++ [replicate (length vr) 0%float]).
  assert (L4 : length s4 = S (length s3)).
  { unfold s4. rewrite length_app. simpl. lia. }
  assert (Hr5 : s5 !! length s3 = Some vr) by (apply lookup_app_l_Some, Hr4).
  assert (Hp5 : s5 !! length s4 = Some (replicate (length vr) 0%float))
    by (apply list_lookup_middle; reflexivity).
  rewrite (bind_Return _ _ _ _ _
             (copy_run _ _ _ _ _ Hr5 Hp5 ltac:(now rewrite length_replicate))).
  set (s6 := <[length s4 := vr]> s5).
  assert (L5 : length s5 = S (length s4)).
  { unfold s5. rewrite length_app. simpl. lia. }
  assert (Hp6 : s6 !! length s4 = Some vr)
    by (apply list_lookup_insert_eq; lia).
  assert (Hr6 : s6 !! length s3 = Some vr).
  { unfold s6. rewrite list_lookup_insert_ne by lia. exact Hr5. }
  assert (Hx6 : s6 !! x = Some vx).
  { unfold s6. rewrite list_lookup_insert_ne by lia.
    apply lookup_app_l_Some, lookup_app_l_Some, Hx3. }
  rewrite (bind_Return _ _ _ _ _ (ghostUpdate_run _ _ _ Hp6)).
  rewrite (bind_Return _ _ _ _ _ (dot_run _ _ _ _ _ Hr6 Hr6 eq_refl)).
  exists s6, (length s3), (length s4). split; [|reflexivity].
  unfold holds, st, Spec.init; simpl. fold vr.
  repeat split; auto; lia.
Qed.

Lemma cg_run_sim {libm : Libm} b x max_iter rtol s vb vx :
  s !! b = Some vb -> s !! x = Some vx ->
  length vb = n -> length vx = n ->
  let st := Spec.init apply vb vx in
  exists s0 r p,
    holds s0 x r p st n /\
    cg_run action_A b x max_iter rtol s
    = bind (lift (float_pow2 rtol))
        (fun eps => cg_while (Z.to_nat max_iter) action_A x r p max_iter
                      (Spec.st_r_norm2 st) eps 0 (Spec.st_r_norm2 st) [])
        s0.
Proof.
  intros Hb Hx Lb Lx st.
  destruct (cg_init_sim b x rtol s vb vx Hb Hx Lb Lx)
    as (s0 & r & p & Hs0 & Hinit).
  exists s0, r, p. split; [exact Hs0|].
  unfold cg_run, bind at 1. rewrite Hinit. rewrite !bind_lift.
  now destruct (float_pow2 rtol).
Qed.

End Refinement.

(** C1.  [cg] runs the algorithm of the specification: for a callable that
    computes [apply], a right-hand side [b] and a guess [x] of one size,
    the call returns the count, and leaves in [x] the vector, that steps 1
    to 5 give (residual [b - apply x], direction [p = r], reference norm
    [dot r r], then per pass [y], [alpha], [x], [r], [beta], the test, and
    the new [p]); where a division of the algorithm is by zero both raise. *)
Theorem cg_refines_spec {libm : Libm} apply action_A (n : nat) b x max_iter rtol
    (s : store) vb vx :
  implements apply action_A ->
  (forall v, length v = n -> length (apply v) = n) ->
  s !! b = Some vb -> s !! x = Some vx ->
  length vb = n -> length vx = n ->
  match Spec.cg apply vb vx max_iter rtol with
  | Return (xf, kf) =>
      exists s', cg action_A b x max_iter rtol s = (s', Return kf) /\
                 s' !! x = Some xf
  | Raise ex =>
      exists s', cg action_A b x max_iter rtol s = (s', Raise ex)
  end.
Proof.
  intros Himpl Hsize Hb Hx Lb Lx.
  destruct (cg_run_sim apply action_A n Himpl Hsize b x max_iter rtol s vb vx
              Hb Hx Lb Lx) as (s0 & r & p & Hs0 & Hrun).
  rewrite bind_lift in Hrun.
  unfold Spec.cg, cg.
  destruct (float_pow2 rtol) as [eps|ex]; cbn [Spec.obind].
  2:{ exists s0. apply bind_Raise. exact Hrun. }
  pose proof (cg_while_sim apply action_A n Himpl Hsize x r p max_iter
                (Spec.st_r_norm2 (Spec.init apply vb vx)) eps
                (fnonneg_vdot _) (Z.to_nat max_iter) 0
                (Spec.init apply vb vx) [] s0 Hs0
                ltac:(now rewrite Z.sub_0_r)) as Hloop.
  rewrite <- Hrun in Hloop.
  destruct (Spec.iterate _ _ _ _ _ _) as [[xf kf]|ex].
  - destruct Hloop as (s' & e & Hw & Hk & Hxf). exists s'. split; [|exact Hxf].
    rewrite (bind_Return _ _ _ _ _ Hw). unfold ret. now rewrite Hk.
  - destruct Hloop as (s' & Hw). exists s'. now apply bind_Raise.
Qed.

(** ** What a call of [cg] returns *)

Lemma cg_of_run {libm : Libm} action_A b x max_iter rtol s s' e :
  cg_run action_A b x max_iter rtol s = (s', Return e) ->
  cg action_A b x max_iter rtol s = (s', Return (exit_k e)).
Proof. intros H. unfold cg. now rewrite (bind_Return _ _ _ _ _ H). Qed.

Lemma cg_Return_inv {libm : Libm} action_A b x max_iter rtol s s' k :
  cg action_A b x max_iter rtol s = (s', Return k) ->
  exists e, cg_run action_A b x max_iter rtol s = (s', Return e) /\
            exit_k e = k.
Proof.
  unfold cg. intros H. bind_inv H. unfold ret in H.
  injection H as <- <-. eauto.
Qed.

Lemma cg_of_run_Raise {libm : Libm} action_A b x max_iter rtol s s' ex :
  cg_run action_A b x max_iter rtol s = (s', Raise ex) ->
  cg action_A b x max_iter rtol s = (s', Raise ex).
Proof. intros H. unfold cg. now apply bind_Raise. Qed.

Lemma Forall_last {A} (P : A -> Prop) (l : list A) (d : A) :
  Forall P l -> l <> [] -> P (List.last l d).
Proof.
  induction 1 as [|a l Ha Hl IH]; [congruence|]. intros _.
  rewrite last_cons_default. destruct l as [|b l]; [exact Ha|].
  specialize (IH ltac:(congruence)).
  rewrite last_cons_default in IH |- *. exact IH.
Qed.

(** C9.  For [max_iter >= 1], a call of [cg] that returns has made at least
    one pass of the loop and at most [max_iter]: the count [k] it returns is
    the number of passes, and [1 <= k <= max_iter]; it never returns 0. *)
Theorem cg_count_bounds {libm : Libm} action_A b x max_iter rtol
    (s s' : store) k :
  1 <= max_iter ->
  cg action_A b x max_iter rtol s = (s', Return k) ->
  1 <= k <= max_iter /\
  exists e, cg_run action_A b x max_iter rtol s = (s', Return e) /\
            k = Z.of_nat (length (exit_trace e)).
Proof.
  intros Hmax H. apply cg_Return_inv in H as (e & Hrun & <-).
  pose proof (cg_run_exit _ _ _ _ _ _ _ _ Hrun)
    as (_ & _ & Ht & Hk & _ & _ & _ & _ & _ & Hby).
  simpl in Ht. rewrite Z.add_0_l in Hk. split; [|eauto].
  destruct (exit_by e).
  - destruct Hby as (Hne & _ & Hle). split; [|exact Hle].
    destruct (exit_trace e); [congruence|]. rewrite Hk. simpl length. lia.
  - destruct Hby as (_ & Hm). lia.
Qed.

(** The plainest callable computes its function. *)
Lemma pure_action_implements apply : implements apply (pure_action apply).
Proof.
  intros s l v Hl. exists (s ++ [apply v]), (length s).
  split; [|split; [|split]].
  - unfold pure_action.
    now rewrite (bind_Return _ _ _ _ _ (Vec_get_run _ _ _ Hl)).
  - now apply prefix_app_r.
  - lia.
  - apply list_lookup_middle. reflexivity.
Qed.

(** ** The passes a call of [cg] has made *)

Section Passes.

Context {libm : Libm}.
Variable apply : vec -> vec.
Variable action_A : loc -> M loc.
Variable n : nat.
Hypothesis Himpl : implements apply action_A.
Hypothesis Hsize : forall v, length v = n -> length (apply v) = n.

(** After a pass [r_norm2] is the squared norm of the residual vector. *)
Lemma step_norm st st' beta :
  Spec.step apply st = Return (st', beta) ->
  Spec.st_r_norm2 st' = vdot (Spec.st_r st') (Spec.st_r st').
Proof.
  unfold Spec.step. cbv zeta.
  destruct (float_truediv (Spec.st_r_norm2 st) _) as [alpha|ex];
    cbn [Spec.obind]; [|discriminate].
  destruct (float_truediv _ (Spec.st_r_norm2 st)) as [beta'|ex];
    cbn [Spec.obind]; [|discriminate].
  now intros [= <- _].
Qed.

Lemma passes_S m st st1 beta :
  Spec.step apply st = Return (st1, beta) ->
  passes (S m) apply st = passes m apply (after_pass false beta st1).
Proof. intros Hstep. cbn [passes]. now rewrite Hstep. Qed.

(** The loop of [cg] from the state [st] on: when it returns it has made
    [m] passes of the recurrence; [x] and [r] hold the vectors of the last
    one, [r_norm2] is the squared norm of that [r]; every pass before the
    last failed the test; and the loop was left by [break] exactly when
    the last pass met it. *)
Lemma cg_while_passes x r p max_iter r0 eps :
  fnonneg r0 ->
  forall fuel k st trace (s s' : store) e,
    holds s x r p st n ->
    Spec.st_r_norm2 st = vdot (Spec.st_r st) (Spec.st_r st) ->
    fuel = Z.to_nat (max_iter - k) ->
    cg_while fuel action_A x r p max_iter r0 eps k (Spec.st_r_norm2 st)
      trace s = (s', Return e) ->
    exists (m : nat) stm,
      exit_k e = k + Z.of_nat m /\
      k + Z.of_nat m <= Z.max k max_iter /\
      passes m apply st = Return stm /\
      s' !! x = Some (Spec.st_x stm) /\
      s' !! r = Some (Spec.st_r stm) /\
      exit_r_norm2 e = vdot (Spec.st_r stm) (Spec.st_r stm) /\
      (forall j, (0 < j < m)%nat ->
         exists stj,
           passes j apply st = Return stj /\
           Spec.below_tol (vdot (Spec.st_r stj) (Spec.st_r stj)) r0 eps
           = false) /\
      (exit_by e = Break <->
       (0 < m)%nat /\
       Spec.below_tol (vdot (Spec.st_r stm) (Spec.st_r stm)) r0 eps = true) /\
      (exit_by e = Exhausted -> k + Z.of_nat m = Z.max k max_iter).
Proof.
  intros H0.
  assert (Hstop : forall k st trace (s : store),
             holds s x r p st n ->
             Spec.st_r_norm2 st = vdot (Spec.st_r st) (Spec.st_r st) ->
             max_iter <= k ->
             let e := CgExit k (Spec.st_r_norm2 st) r0 eps trace Exhausted in
             exists (m : nat) stm,
               exit_k e = k + Z.of_nat m /\
               k + Z.of_nat m <= Z.max k max_iter /\
               passes m apply st = Return stm /\
               s !! x = Some (Spec.st_x stm) /\
               s !! r = Some (Spec.st_r stm) /\
               exit_r_norm2 e = vdot (Spec.st_r stm) (Spec.st_r stm) /\
               (forall j, (0 < j < m)%nat ->
                  exists stj,
                    passes j apply st = Return stj /\
                    Spec.below_tol (vdot (Spec.st_r stj) (Spec.st_r stj)) r0
                      eps = false) /\
               (exit_by e = Break <->
                (0 < m)%nat /\
                Spec.below_tol (vdot (Spec.st_r stm) (Spec.st_r stm)) r0 eps
                = true) /\
               (exit_by e = Exhausted -> k + Z.of_nat m = Z.max k max_iter)).
  { intros k st trace s Hs Hn Hk e. exists 0%nat, st. simpl.
    split; [lia|]. split; [lia|]. split; [reflexivity|].
    split; [apply Hs|]. split; [apply Hs|]. split; [exact Hn|].
    split; [intros j Hj; lia|].
    split; [split; [discriminate | intros [Hm _]; lia] | intros _; lia]. }
  induction fuel as [|fuel IH]; intros k st trace s s' e Hs Hn Hfuel H.
  - cbn [cg_while] in H.
    assert (Hk : (k <? max_iter) = false) by (apply Z.ltb_ge; lia).
    rewrite Hk in H. unfold ret in H. injection H as <- <-.
    apply Hstop; [exact Hs | exact Hn | lia].
  - assert (Hk : (k <? max_iter) = true) by (apply Z.ltb_lt; lia).
    cbn [cg_while] in H. rewrite Hk in H.
    apply bind_inv_Return in H as (s1 & [brk rn1] & Hb & H).
    pose proof (cg_body_sim apply action_A n Himpl Hsize x r p r0 eps st s
                  H0 Hs) as Hbody.
    destruct (Spec.step apply st) as [[st1 beta]|ex] eqn:Hstep.
    2:{ destruct Hbody as [sx Hb']. rewrite Hb' in Hb. discriminate. }
    destruct (float_truediv (Spec.st_r_norm2 st1) r0) as [ratio|ex].
    2:{ destruct Hbody as [sx Hb']. rewrite Hb' in Hb. discriminate. }
    cbv zeta in Hbody. destruct Hbody as (sx & Hb' & Hs1).
    rewrite Hb' in Hb. injection Hb as <- <- <-.
    pose proof (step_norm _ _ _ Hstep) as Hn1.
    destruct (Spec.below_tol (Spec.st_r_norm2 st1) r0 eps) eqn:Htest.
    + unfold ret in H. injection H as <- <-.
      exists 1%nat, (after_pass false beta st1). simpl exit_k.
      split; [lia|]. split; [lia|].
      split; [rewrite (passes_S 0 _ _ _ Hstep); reflexivity|].
      split; [apply Hs1|]. split; [apply Hs1|].
      split; [simpl; exact Hn1|].
      split; [intros j Hj; lia|].
      split; [|discriminate].
      split; [intros _; split; [lia|] | reflexivity].
      simpl. rewrite <- Hn1. exact Htest.
    + change (Spec.st_r_norm2 st1)
        with (Spec.st_r_norm2 (after_pass false beta st1)) in H.
      apply IH in H; [| exact Hs1 | exact Hn1 | lia].
      destruct H as (m & stm & Hek & Hle & Hp & Hx & Hr & Hrn & Hearly
                     & Hbrk & Hexh).
      exists (S m), stm.
      split; [lia|]. split; [lia|].
      split; [now rewrite (passes_S m _ _ _ Hstep)|].
      split; [exact Hx|]. split; [exact Hr|]. split; [exact Hrn|].
      split.
      { intros j Hj. destruct j as [|j]; [lia|].
        rewrite (passes_S j _ _ _ Hstep).
        destruct j as [|j].
        - exists (after_pass false beta st1). split; [reflexivity|].
          simpl. rewrite <- Hn1. exact Htest.
        - apply Hearly. lia. }
      split.
      { rewrite Hbrk. split; intros [Hm Ht]; (split; [|exact Ht]); [lia|].
        destruct m as [|m]; [|lia].
        cbn [passes] in Hp. injection Hp as <-.
        simpl in Ht. rewrite <- Hn1 in Ht. congruence. }
      intros Hex. specialize (Hexh Hex). lia.
Qed.

(** The same for a whole call. *)
Lemma cg_run_passes b x max_iter rtol (s s' : store) e vb vx :
  s !! b = Some vb -> s !! x = Some vx ->
  length vb = n -> length vx = n ->
  cg_run action_A b x max_iter rtol s = (s', Return e) ->
  let st0 := Spec.init apply vb vx in
  let r0 := vdot (Spec.st_r st0) (Spec.st_r st0) in
  exists (k : nat) st,
    float_pow2 rtol = Return (exit_eps e) /\
    exit_r0_norm2 e = r0 /\
    exit_k e = Z.of_nat k /\
    Z.of_nat k <= Z.max 0 max_iter /\
    passes k apply st0 = Return st /\
    s' !! x = Some (Spec.st_x st) /\
    exit_r_norm2 e = vdot (Spec.st_r st) (Spec.st_r st) /\
    (forall j, (0 < j < k)%nat ->
       exists stj,
         passes j apply st0 = Return stj /\
         Spec.below_tol (vdot (Spec.st_r stj) (Spec.st_r stj)) r0
           (exit_eps e) = false) /\
    (exit_by e = Break <->
     (0 < k)%nat /\
     Spec.below_tol (vdot (Spec.st_r st) (Spec.st_r st)) r0 (exit_eps e)
     = true) /\
    (exit_by e = Exhausted -> Z.of_nat k = Z.max 0 max_iter) /\
    ((0 < k)%nat -> (r0 =? 0)%float = false).
Proof.
  intros Hb Hx Lb Lx Hrun st0 r0.
  destruct (cg_run_sim apply action_A n Himpl Hsize b x max_iter rtol s vb vx
              Hb Hx Lb Lx) as (s0 & r & p & Hs0 & Heq).
  fold st0 in Hs0, Heq. change (Spec.st_r_norm2 st0) with r0 in Heq.
  pose proof (cg_run_exit _ _ _ _ _ _ _ _ Hrun)
    as (_ & Heps & Ht & Hk & _ & _ & _ & _ & Hnz & _).
  simpl in Ht.
  rewrite Heq, bind_lift, Heps in Hrun.
  pose proof Hrun as Hrun'.
  apply cg_while_exit in Hrun' as (more & _ & _ & Hr0 & _);
    [| apply fnonneg_vdot | rewrite Z.sub_0_r; lia].
  change r0 with (Spec.st_r_norm2 st0) in Hrun at 2.
  apply cg_while_passes in Hrun;
    [| apply fnonneg_vdot | exact Hs0 | reflexivity
     | now rewrite Z.sub_0_r].
  destruct Hrun as (k & st & Hek & Hle & Hp & Hxf & _ & Hrn & Hearly
                    & Hbrk & Hexh).
  rewrite Z.add_0_l in Hek, Hle, Hexh.
  exists k, st.
  split; [exact Heps|]. split; [exact Hr0|]. split; [exact Hek|].
  split; [exact Hle|]. split; [exact Hp|]. split; [exact Hxf|].
  split; [exact Hrn|]. split; [exact Hearly|]. split; [exact Hbrk|].
  split; [exact Hexh|].
  intros Hpos. rewrite <- Hr0. apply Hnz.
  rewrite Z.add_0_l in Hk. intros Hnil. rewrite Hnil in Hk. simpl in Hk. lia.
Qed.

End Passes.


(** C7, amended.  When [cg] leaves its loop by the test, the squared norm
    [r_norm2] of the residual [r] of the last pass is at most the value of
    [rtol**2] times the squared norm [r0_norm2] of the initial residual
    [b - apply x]: the quotient the code tests, rounded to nearest, is below
    [rtol**2] only if the exact one is, and then the rounded product is not
    below [r_norm2]. *)
Theorem cg_converged_residual {libm : Libm} apply action_A (n : nat) b x
    max_iter rtol (s s' : store) e vb vx :
  implements apply action_A ->
  (forall v, length v = n -> length (apply v) = n) ->
  s !! b = Some vb -> s !! x = Some vx ->
  length vb = n -> length vx = n ->
  cg_run action_A b x max_iter rtol s = (s', Return e) ->
  exit_by e = Break ->
  let st0 := Spec.init apply vb vx in
  let r0_norm2 := vdot (Spec.st_r st0) (Spec.st_r st0) in
  exists tol2 (k : nat) st,
    float_pow2 rtol = Return tol2 /\
    cg action_A b x max_iter rtol s = (s', Return (Z.of_nat k)) /\
    passes k apply st0 = Return st /\
    exit_r_norm2 e = vdot (Spec.st_r st) (Spec.st_r st) /\
    exit_r0_norm2 e = r0_norm2 /\
    (vdot (Spec.st_r st) (Spec.st_r st) <=? tol2 * r0_norm2)%float = true.
Proof.
  intros Himpl Hsize Hb Hx Lb Lx Hrun Hby st0 r0_norm2.
  destruct (cg_run_passes apply action_A n Himpl Hsize b x max_iter rtol
              s s' e vb vx Hb Hx Lb Lx Hrun)
    as (k & st & Heps & Hr0 & Hk & _ & Hp & _ & Hrn & _ & Hbrk & _ & Hnz).
  apply Hbrk in Hby as [Hpos Htest]. specialize (Hnz Hpos).
  exists (exit_eps e), k, st.
  split; [exact Heps|].
  split; [rewrite (cg_of_run _ _ _ _ _ _ _ _ Hrun); now rewrite Hk|].
  split; [exact Hp|]. split; [exact Hrn|]. split; [exact Hr0|].
  unfold Spec.below_tol in Htest.
  apply div_ltb_leb_mul; auto; apply fnonneg_vdot.
Qed.

(** C5, amended.  When the loop runs out of passes, [cg] returns
    [max_iter]: it made [max_iter] passes, none of which met the test, and
    [x] holds the iterate of the last of them. *)
Theorem cg_cap_returns_max_iter {libm : Libm} apply action_A (n : nat) b x
    max_iter rtol (s s' : store) e vb vx :
  implements apply action_A ->
  (forall v, length v = n -> length (apply v) = n) ->
  s !! b = Some vb -> s !! x = Some vx ->
  length vb = n -> length vx = n ->
  0 <= max_iter ->
  cg_run action_A b x max_iter rtol s = (s', Return e) ->
  exit_by e = Exhausted ->
  let st0 := Spec.init apply vb vx in
  let r0_norm2 := vdot (Spec.st_r st0) (Spec.st_r st0) in
  exists tol2 st,
    float_pow2 rtol = Return tol2 /\
    cg action_A b x max_iter rtol s = (s', Return max_iter) /\
    passes (Z.to_nat max_iter) apply st0 = Return st /\
    s' !! x = Some (Spec.st_x st) /\
    (forall j, (0 < j <= Z.to_nat max_iter)%nat ->
       exists stj,
         passes j apply st0 = Return stj /\
         Spec.below_tol (vdot (Spec.st_r stj) (Spec.st_r stj)) r0_norm2 tol2
         = false).
Proof.
  intros Himpl Hsize Hb Hx Lb Lx Hmax Hrun Hcap st0 r0_norm2.
  destruct (cg_run_passes apply action_A n Himpl Hsize b x max_iter rtol
              s s' e vb vx Hb Hx Lb Lx Hrun)
    as (k & st & Heps & _ & Hk & _ & Hp & Hxf & _ & Hearly & Hbrk & Hexh & _).
  specialize (Hexh Hcap).
  assert (Hkm : k = Z.to_nat max_iter) by lia. subst k.
  exists (exit_eps e), st.
  split; [exact Heps|].
  split; [rewrite (cg_of_run _ _ _ _ _ _ _ _ Hrun), Hk, Z2Nat.id by lia;
          reflexivity|].
  split; [exact Hp|]. split; [exact Hxf|].
  intros j Hj.
  destruct (Nat.eq_dec j (Z.to_nat max_iter)) as [->|Hne];
    [|apply Hearly; lia].
  exists st. split; [exact Hp|].
  destruct (Spec.below_tol _ _ _) eqn:Ht; [|reflexivity].
  assert (Hb' : exit_by e = Break) by (apply Hbrk; split; [lia | reflexivity]).
  congruence.
Qed.

(** The call on diag(1, 2) x = (1, 1) from zero returns 2 after two
    passes. *)
Lemma cg_count_bounds_witness :
  let call := cg action_d12 0%nat 1%nat 200 1e-6%float store_d12 in
  call.2 = Return 2 /\
  (1 <= 2 <= 200 /\
   exists e, cg_run action_d12 0%nat 1%nat 200 1e-6%float store_d12
             = (call.1, Return e) /\
             2 = Z.of_nat (length (exit_trace e))).
Proof.
  intros call. split; [vm_compute; reflexivity|].
  apply (cg_count_bounds action_d12 0%nat 1%nat 200 1e-6%float store_d12
           call.1 2); [lia | vm_compute; reflexivity].
Defined.

(** C9, counterexample.  With the guess (1, 0.5), which solves
    diag(1, 2) x = (1, 1), the residual is zero, so is [p.dot(y)], and the
    call returns no count: it raises [ZeroDivisionError]. *)
Lemma cg_exact_guess_raises :
  (cg action_d12 0%nat 1%nat 200 1e-6%float [[1; 1]; [1; 0.5]]%float).2
  = Raise ZeroDivisionError.
Proof. vm_compute. reflexivity. Qed.


(** On diag(1, 2) x = (1, 1) from zero the loop is left by the test at
    the second pass, with [r_norm2] = 0 and [r0_norm2] = 2. *)
Lemma cg_converged_residual_witness :
  let run := cg_run action_d12 0%nat 1%nat 200 1e-6%float store_d12 in
  let e := returned no_exit run.2 in
  let st0 := Spec.init (diag [1; 2]%float) [1; 1]%float [0; 0]%float in
  let r0_norm2 := vdot (Spec.st_r st0) (Spec.st_r st0) in
  (exit_by e = Break /\ exit_k e = 2) /\
  exists tol2 (k : nat) st,
    float_pow2 1e-6%float = Return tol2 /\
    cg action_d12 0%nat 1%nat 200 1e-6%float store_d12
    = (run.1, Return (Z.of_nat k)) /\
    passes k (diag [1; 2]%float) st0 = Return st /\
    exit_r_norm2 e = vdot (Spec.st_r st) (Spec.st_r st) /\
    exit_r0_norm2 e = r0_norm2 /\
    (vdot (Spec.st_r st) (Spec.st_r st) <=? tol2 * r0_norm2)%float = true.
Proof.
  intros run e st0 r0_norm2.
  split; [split; vm_compute; reflexivity|].
  apply (cg_converged_residual (diag [1; 2]%float) action_d12 2%nat 0%nat
           1%nat 200 1e-6%float store_d12 run.1 e [1; 1]%float
           [0; 0]%float).
  - apply pure_action_implements.
  - intros v Hv. unfold diag. rewrite length_zip_with, Hv. reflexivity.
  - reflexivity.
  - reflexivity.
  - reflexivity.
  - reflexivity.
  - vm_compute. reflexivity.
  - vm_compute. reflexivity.
Defined.

(** C7, counterexample.  With [max_iter = 1] the call on
    diag(1, 2) x = (1, 1) from zero returns at the cap after one pass; the
    residual [r] it leaves (vector 4 of the store) is (1/3, -1/3), so
    [r_norm2] is about 0.22, while [r0_norm2] is 2 and [rtol**2] is
    1e-12. *)
Lemma cg_cap_residual_above_tolerance :
  let run := cg_run action_d12 0%nat 1%nat 1 1e-6%float store_d12 in
  let e := returned no_exit run.2 in
  let st0 := Spec.init (diag [1; 2]%float) [1; 1]%float [0; 0]%float in
  let r0_norm2 := vdot (Spec.st_r st0) (Spec.st_r st0) in
  exists tol2 st,
    run.2 = Return e /\
    exit_by e = Exhausted /\
    float_pow2 1e-6%float = Return tol2 /\
    passes 1 (diag [1; 2]%float) st0 = Return st /\
    run.1 !! 4%nat = Some (Spec.st_r st) /\
    exit_r_norm2 e = vdot (Spec.st_r st) (Spec.st_r st) /\
    exit_r0_norm2 e = r0_norm2 /\
    r0_norm2 = 2%float /\
    (vdot (Spec.st_r st) (Spec.st_r st) <=? tol2 * r0_norm2)%float = false.
Proof.
  intros run e st0 r0_norm2.
  exists (returned 0%float (float_pow2 1e-6%float)),
         (returned st0 (passes 1 (diag [1; 2]%float) st0)).
  repeat split; vm_compute; reflexivity.
Qed.

(** With [max_iter = 1] on diag(1, 2) x = (1, 1): one pass, the test not
    met, and [x] the first iterate (2/3, 2/3). *)
Lemma cg_cap_returns_max_iter_witness :
  let run := cg_run action_d12 0%nat 1%nat 1 1e-6%float store_d12 in
  let st0 := Spec.init (diag [1; 2]%float) [1; 1]%float [0; 0]%float in
  let r0_norm2 := vdot (Spec.st_r st0) (Spec.st_r st0) in
  exists tol2 st,
    float_pow2 1e-6%float = Return tol2 /\
    cg action_d12 0%nat 1%nat 1 1e-6%float store_d12 = (run.1, Return 1) /\
    passes (Z.to_nat 1) (diag [1; 2]%float) st0 = Return st /\
    run.1 !! 1%nat = Some (Spec.st_x st) /\
    (forall j, (0 < j <= Z.to_nat 1)%nat ->
       exists stj,
         passes j (diag [1; 2]%float) st0 = Return stj /\
         Spec.below_tol (vdot (Spec.st_r stj) (Spec.st_r stj)) r0_norm2 tol2
         = false).
Proof.
  intros run st0 r0_norm2.
  apply (cg_cap_returns_max_iter (diag [1; 2]%float) action_d12 2%nat 0%nat
           1%nat 1 1e-6%float store_d12 run.1 (returned no_exit run.2)
           [1; 1]%float [0; 0]%float).
  - apply pure_action_implements.
  - intros v Hv. unfold diag. rewrite length_zip_with, Hv. reflexivity.
  - reflexivity.
  - reflexivity.
  - reflexivity.
  - reflexivity.
  - lia.
  - vm_compute. reflexivity.
  - vm_compute. reflexivity.
Defined.

(** C5, counterexample.  On diag(1, 2) x = (1, 1) with [max_iter = 1], the
    call with [rtol = 1e-6] runs out of passes and the call with
    [rtol = 0.9] converges; both return 1 and leave the same [x]. *)
Lemma cg_cap_looks_converged :
  let capped := cg_run action_d12 0%nat 1%nat 1 1e-6%float store_d12 in
  let done := cg_run action_d12 0%nat 1%nat 1 0.9%float store_d12 in
  exit_by (returned no_exit capped.2) = Exhausted /\
  exit_by (returned no_exit done.2) = Break /\
  (cg action_d12 0%nat 1%nat 1 1e-6%float store_d12).2 = Return 1 /\
  (cg action_d12 0%nat 1%nat 1 0.9%float store_d12).2 = Return 1 /\
  capped.1 !! 1%nat = done.1 !! 1%nat.
Proof. vm_compute. repeat split; reflexivity. Qed.

(** ** Which vectors a call of [cg] writes *)

Section Frames.

Variable l : loc.

Lemma frames_ret {A} (a : A) (Q : A -> Prop) : Q a -> frames l (ret a) Q.
Proof.
  intros Ha s _. simpl. split; [reflexivity|]. split; [lia|].
  now intros a' [= <-].
Qed.

Lemma frames_lift {A} (o : outcome A) : frames l (lift o) (fun _ => True).
Proof. intros s _. simpl. auto. Qed.

Lemma frames_bind {A B} (c : M A) (k : A -> M B) (Q : A -> Prop)
    (R : B -> Prop) :
  frames l c Q -> (forall a, Q a -> frames l (k a) R) ->
  frames l (bind c k) R.
Proof.
  intros Hc Hk s Hl. specialize (Hc s Hl). unfold bind.
  destruct (c s) as [s1 [a|ex]]; simpl in Hc; destruct Hc as (H1 & H2 & H3).
  - specialize (Hk a (H3 a eq_refl) s1 ltac:(lia)).
    destruct Hk as (K1 & K2 & K3).
    split; [congruence|]. split; [lia | exact K3].
  - simpl. split; [exact H1|]. split; [exact H2 | discriminate].
Qed.

Lemma frames_weaken {A} (c : M A) (Q R : A -> Prop) :
  frames l c Q -> (forall a, Q a -> R a) -> frames l c R.
Proof.
  intros Hc HQR s Hl. destruct (Hc s Hl) as (H1 & H2 & H3).
  split; [exact H1|]. split; [exact H2 | auto].
Qed.

Lemma frames_get (v : loc) : frames l (Vec_get v) (fun _ => True).
Proof.
  intros s _. rewrite Vec_get_store. auto.
Qed.

Lemma frames_put (v : loc) (w : vec) :
  v <> l -> frames l (Vec_put v w) (fun _ => True).
Proof.
  intros Hv s _. unfold Vec_put; simpl.
  rewrite list_lookup_insert_ne by exact Hv. rewrite length_insert. auto.
Qed.

Lemma frames_new (w : vec) : frames l (Vec_new w) (fun v => v <> l).
Proof.
  intros s Hl. unfold Vec_new; simpl.
  rewrite lookup_app_l by exact Hl. rewrite length_app.
  split; [reflexivity|]. split; [lia|]. intros a [= <-]. lia.
Qed.

Lemma frames_same_size (a b : vec) : frames l (same_size a b) (fun _ => True).
Proof. intros s _. rewrite same_size_store. auto. Qed.

Lemma frames_duplicate v : frames l (Vec.duplicate v) (fun w => w <> l).
Proof.
  unfold Vec.duplicate.
  eapply frames_bind; [apply frames_get|]. intros a _. apply frames_new.
Qed.

Lemma frames_sub a b : frames l (Vec.sub a b) (fun w => w <> l).
Proof.
  unfold Vec.sub.
  eapply frames_bind; [apply frames_get|]. intros va _.
  eapply frames_bind; [apply frames_get|]. intros vb _.
  eapply frames_bind; [apply frames_same_size|]. intros _ _.
  apply frames_new.
Qed.

Lemma frames_copy src dst :
  dst <> l -> frames l (Vec.copy src dst) (fun _ => True).
Proof.
  intros Hd. unfold Vec.copy.
  eapply frames_bind; [apply frames_get|]. intros va _.
  eapply frames_bind; [apply frames_get|]. intros vb _.
  eapply frames_bind; [apply frames_same_size|]. intros _ _.
  now apply frames_put.
Qed.

Lemma frames_axpy y alpha x :
  y <> l -> frames l (Vec.axpy y alpha x) (fun _ => True).
Proof.
  intros Hd. unfold Vec.axpy.
  eapply frames_bind; [apply frames_get|]. intros va _.
  eapply frames_bind; [apply frames_get|]. intros vb _.
  eapply frames_bind; [apply frames_same_size|]. intros _ _.
  now apply frames_put.
Qed.

Lemma frames_aypx y beta x :
  y <> l -> frames l (Vec.aypx y beta x) (fun _ => True).
Proof.
  intros Hd. unfold Vec.aypx.
  eapply frames_bind; [apply frames_get|]. intros va _.
  eapply frames_bind; [apply frames_get|]. intros vb _.
  eapply frames_bind; [apply frames_same_size|]. intros _ _.
  now apply frames_put.
Qed.

Lemma frames_dot x y : frames l (Vec.dot x y) (fun _ => True).
Proof. intros s _. rewrite dot_store. auto. Qed.

Lemma frames_ghostUpdate x : frames l (Vec.ghostUpdate x) (fun _ => True).
Proof.
  unfold Vec.ghostUpdate.
  eapply frames_bind; [apply frames_get|]. intros _ _. now apply frames_ret.
Qed.

Variable action_A : loc -> M loc.
Hypothesis Hact : preserves l action_A.

Lemma frames_action a : frames l (action_A a) (fun _ => True).
Proof. intros s Hl. destruct (Hact s a Hl) as [H1 H2]. auto. Qed.

Lemma frames_cg_body x r p r0 eps rn :
  x <> l -> r <> l -> p <> l ->
  frames l (cg_body action_A x r p r0 eps rn) (fun _ => True).
Proof.
  intros Hx Hr Hp. unfold cg_body.
  eapply frames_bind; [apply frames_action|]. intros y _.
  eapply frames_bind; [apply frames_dot|]. intros py _.
  eapply frames_bind; [apply frames_lift|]. intros alpha _.
  eapply frames_bind; [now apply frames_axpy|]. intros _ _.
  eapply frames_bind; [now apply frames_axpy|]. intros _ _.
  eapply frames_bind; [apply frames_dot|]. intros rnn _.
  eapply frames_bind; [apply frames_lift|]. intros beta _.
  eapply frames_bind; [apply frames_lift|]. intros ratio _.
  destruct (abs ratio <? eps)%float; [now apply frames_ret|].
  eapply frames_bind; [now apply frames_aypx|]. intros _ _.
  now apply frames_ret.
Qed.

Lemma frames_cg_while x r p max_iter r0 eps :
  x <> l -> r <> l -> p <> l ->
  forall fuel k rn trace,
    frames l (cg_while fuel action_A x r p max_iter r0 eps k rn trace)
      (fun _ => True).
Proof.
  intros Hx Hr Hp. induction fuel as [|fuel IH]; intros k rn trace; simpl.
  - destruct (k <? max_iter); now apply frames_ret.
  - destruct (k <? max_iter); [|now apply frames_ret].
    eapply frames_bind; [now apply frames_cg_body|]. intros [brk rn'] _.
    destruct brk; [now apply frames_ret | apply IH].
Qed.

Lemma frames_cg_init {libm : Libm} b x rtol :
  frames l (cg_init action_A b x rtol)
    (fun st => st.1.1.1 <> l /\ st.1.1.2 <> l).
Proof.
  unfold cg_init.
  eapply frames_bind; [apply frames_duplicate|]. intros y0 Hy0.
  eapply frames_bind; [now apply frames_copy|]. intros _ _.
  eapply frames_bind; [apply frames_action|]. intros y _.
  eapply frames_bind; [apply frames_sub|]. intros r Hr.
  eapply frames_bind; [apply frames_duplicate|]. intros p Hp.
  eapply frames_bind; [now apply frames_copy|]. intros _ _.
  eapply frames_bind; [apply frames_ghostUpdate|]. intros _ _.
  eapply frames_bind; [apply frames_dot|]. intros rn _.
  eapply frames_bind; [apply frames_lift|]. intros eps _.
  now apply frames_ret.
Qed.

Lemma frames_cg_run {libm : Libm} b x max_iter rtol :
  x <> l -> frames l (cg_run action_A b x max_iter rtol) (fun _ => True).
Proof.
  intros Hx. unfold cg_run.
  eapply frames_bind; [apply frames_cg_init|].
  intros [[[r p] rn] eps] [Hr Hp]. simpl in Hr, Hp.
  now apply frames_cg_while.
Qed.

End Frames.

(** C10, amended.  A call of [cg] writes no vector that existed before the
    call other than [x] and those the operator callable itself writes:
    every other such vector, the right-hand side [b] among them when [b]
    and [x] are two objects, holds after the call (returned or raised) what
    it held before. *)
Theorem cg_preserves_rhs {libm : Libm} action_A b x max_iter rtol
    (s : store) (l : loc) :
  (l < length s)%nat -> l <> x -> preserves l action_A ->
  (cg action_A b x max_iter rtol s).1 !! l = s !! l.
Proof.
  intros Hl Hx Hact.
  assert (H : frames l (cg action_A b x max_iter rtol) (fun _ => True)).
  { unfold cg. eapply frames_bind.
    - apply frames_cg_run; [exact Hact | congruence].
    - intros e _. now apply frames_ret. }
  apply (H s Hl).
Qed.

Lemma pure_action_preserves apply (l : loc) : preserves l (pure_action apply).
Proof.
  intros s a Hl. unfold pure_action, bind, Vec_get, Vec_new.
  destruct (s !! a); simpl.
  - rewrite lookup_app_l by exact Hl. rewrite length_app.
    split; [reflexivity | lia].
  - split; [reflexivity | lia].
Qed.

Lemma cg_preserves_rhs_witness :
  (cg action_d12 0%nat 1%nat 200 1e-6%float store_d12).1 !! 0%nat
  = store_d12 !! 0%nat.
Proof.
  apply (cg_preserves_rhs action_d12 0%nat 1%nat 200 1e-6%float store_d12
           0%nat).
  - simpl. lia.
  - discriminate.
  - apply pure_action_preserves.
Defined.

(** C10, counterexample.  When the caller passes one object as [b] and as
    [x], that object is the solution vector and is updated: the call on
    diag(1, 2) with [b] = [x] = (1, 1) returns 1 and leaves (1, 0.5) in
    [b]. *)
Lemma cg_aliased_rhs_is_updated :
  let s := [[1; 1]]%float in
  let call := cg action_d12 0%nat 0%nat 200 1e-6%float s in
  call.2 = Return 1 /\
  s !! 0%nat = Some [1; 1]%float /\
  call.1 !! 0%nat = Some [1; 0.5]%float.
Proof. vm_compute. repeat split; reflexivity. Qed.

(** With the notebook's [action_A], [b] and [x] being two objects, the call
    leaves in the coefficient vector [ui] the last vector the operator was
    applied to: a vector that is neither [x] nor made by [cg] is
    written. *)
Lemma cg_overwrites_ui :
  let call := cg action_bc 0%nat 1%nat 200 1e-6%float store_bc in
  call.2 = Return 2 /\
  store_bc !! 2%nat = Some [0; 0; 0]%float /\
  call.1 !! 2%nat
  = Some [0; 0.16326530612244902; -0.12244897959183668]%float.
Proof. vm_compute. repeat split; reflexivity. Qed.

(** ** Division by zero and non-finite numbers *)

(** A pass in which [p.dot(y)] is zero ends at the division for [alpha]. *)
Lemma cg_while_zero_dot fuel action_A x r p max_iter r0 eps k rn trace
    (s s1 : store) (y : loc) (d : float) :
  k < max_iter ->
  action_A p s = (s1, Return y) ->
  Vec.dot p y s1 = (s1, Return d) ->
  (d =? 0)%float = true ->
  cg_while (S fuel) action_A x r p max_iter r0 eps k rn trace s
  = (s1, Raise ZeroDivisionError).
Proof.
  intros Hk HA Hdot Hd. cbn [cg_while].
  apply Z.ltb_lt in Hk. rewrite Hk.
  apply bind_Raise. unfold cg_body.
  rewrite (bind_Return _ _ _ _ _ HA), (bind_Return _ _ _ _ _ Hdot).
  apply bind_Raise. unfold lift. now rewrite float_truediv_zero.
Qed.

(** A call that is at the head of its loop goes on as the loop does from
    there. *)
Lemma loop_head_run {libm : Libm} action_A b x max_iter rtol s r p r0 eps k
    rn trace sk :
  loop_head action_A b x max_iter rtol s r p r0 eps k rn trace sk ->
  0 <= k /\
  cg_run action_A b x max_iter rtol s
  = cg_while (Z.to_nat (max_iter - k)) action_A x r p max_iter r0 eps
      k rn trace sk.
Proof.
  induction 1 as [s0 Hinit | k rn rn' trace sk sk' _ [Hk0 IH] Hk Hbody].
  - split; [lia|]. unfold cg_run.
    rewrite (bind_Return _ _ _ _ _ Hinit). now rewrite Z.sub_0_r.
  - split; [lia|]. rewrite IH.
    replace (Z.to_nat (max_iter - k))
      with (S (Z.to_nat (max_iter - (k + 1)))) by lia.
    cbn [cg_while]. apply Z.ltb_lt in Hk. rewrite Hk.
    now rewrite (bind_Return _ _ _ _ _ Hbody).
Qed.

(** C3, amended.  When, in any pass of the loop of a call of [cg],
    [p.dot(y)] is zero, the division for [alpha] raises
    [ZeroDivisionError] and the call ends with that exception, the store
    being as the operator callable left it ([x] and [r] are not updated by
    that pass). *)
Theorem cg_zero_curvature_raises {libm : Libm} action_A b x max_iter rtol
    (s : store) r p r0 eps k rn trace (sk s1 : store) (y : loc)
    (d : float) :
  loop_head action_A b x max_iter rtol s r p r0 eps k rn trace sk ->
  k < max_iter ->
  action_A p sk = (s1, Return y) ->
  Vec.dot p y s1 = (s1, Return d) ->
  (d =? 0)%float = true ->
  cg action_A b x max_iter rtol s = (s1, Raise ZeroDivisionError).
Proof.
  intros Hhead Hk HA Hdot Hd.
  apply loop_head_run in Hhead as [Hk0 Hrun].
  apply cg_of_run_Raise. rewrite Hrun.
  replace (Z.to_nat (max_iter - k))
    with (S (Z.to_nat (max_iter - (k + 1)))) by lia.
  now apply (cg_while_zero_dot _ _ _ _ _ _ _ _ _ _ _ _ s1 y d).
Qed.

(** The zero operator and [b = (1, 1)]: in the first pass [p = (1, 1)]
    (vector 5 of the store) and [y = (0, 0)] (vector 6). *)
Lemma cg_zero_curvature_raises_witness :
  let s0 := [[1; 1]; [0; 0]; [1; 1]; [0; 0]; [1; 1]; [1; 1]]%float in
  cg (pure_action zero_op) 0%nat 1%nat 200 1e-6%float store_d12
  = (s0 ++ [[0; 0]%float], Raise ZeroDivisionError).
Proof.
  intros s0.
  apply (cg_zero_curvature_raises (pure_action zero_op) 0%nat 1%nat 200
           1e-6%float store_d12 4%nat 5%nat 2%float (1e-6 * 1e-6)%float
           0 2%float [] s0 (s0 ++ [[0; 0]%float]) 6%nat 0%float);
    [| lia | reflexivity ..].
  apply head_first. vm_compute. reflexivity.
Defined.

(** C3, counterexample.  With [b = (1e200)], the guess zero and the
    operator [v -> 1e200 * v], the first direction is [p = (1e200)] and the
    first [p.dot(y)] is infinite: [alpha] is [inf / inf], a NaN.  No
    exception is raised; the call returns 3 after 3 passes and leaves NaN
    in [x]. *)
Lemma cg_infinite_curvature_returns_nan :
  let call := cg (pure_action (scale_op 1e200)) 0%nat 1%nat 3 1e-6%float
                [[1e200]; [0]]%float in
  vdot [1e200]%float (scale_op 1e200 [1e200]%float) = infinity /\
  call.2 = Return 3 /\ call.1 !! 1%nat = Some [nan].
Proof. vm_compute. repeat split; reflexivity. Qed.

(** ** Vectors of different sizes *)

Lemma sub_mismatch (s : store) a b va vb :
  s !! a = Some va -> s !! b = Some vb -> length va <> length vb ->
  Vec.sub a b s = (s, Raise PetscError).
Proof.
  intros Ha Hb Hl. unfold Vec.sub.
  rewrite (bind_Return _ _ _ _ _ (Vec_get_run _ _ _ Ha)).
  rewrite (bind_Return _ _ _ _ _ (Vec_get_run _ _ _ Hb)).
  apply bind_Raise. now apply same_size_mismatch.
Qed.

(** C8, amended.  [cg] compares no sizes itself.  It first applies the
    operator callable to [x]; when the result has not the size of [b], the
    subtraction [b - y] is where PETSc raises its size error, and the
    vector the operator computed is in the store by then. *)
Theorem cg_size_mismatch_found_late {libm : Libm} apply action_A b x
    max_iter rtol (s : store) vb vx :
  implements apply action_A ->
  s !! b = Some vb -> s !! x = Some vx ->
  length (apply vx) <> length vb ->
  exists (s' : store) (y : loc),
    cg action_A b x max_iter rtol s = (s', Raise PetscError) /\
    (length s < y)%nat /\ s' !! y = Some (apply vx).
Proof.
  intros Himpl Hb Hx Hsize.
  pose proof (lookup_lt_Some _ _ _ Hb) as Bb.
  pose proof (lookup_lt_Some _ _ _ Hx) as Bx.
  set (s1 := s ++ [replicate (length vb) 0%float]).
  assert (Hb1 : s1 !! b = Some vb) by (apply lookup_app_l_Some, Hb).
  assert (Hy1 : s1 !! length s = Some (replicate (length vb) 0%float))
    by (apply list_lookup_middle; reflexivity).
  set (s2 := <[length s := vb]> s1).
  assert (Hx2 : s2 !! x = Some vx).
  { unfold s2. rewrite list_lookup_insert_ne by lia.
    apply lookup_app_l_Some, Hx. }
  assert (Hb2 : s2 !! b = Some vb).
  { unfold s2. rewrite list_lookup_insert_ne by lia. exact Hb1. }
  destruct (Himpl s2 x vx Hx2) as (s3 & y & HA & Hpre & Hfresh & Hy).
  assert (L2 : length s2 = S (length s)).
  { unfold s2, s1. rewrite length_insert, length_app. simpl. lia. }
  pose proof (prefix_lookup_Some _ _ _ _ Hb2 Hpre) as Hb3.
  exists s3, y. split; [|split; [lia | exact Hy]].
  apply cg_of_run_Raise. unfold cg_run. apply bind_Raise. unfold cg_init.
  rewrite (bind_Return _ _ _ _ _ (duplicate_run _ _ _ Hb)).
  rewrite (bind_Return _ _ _ _ _
             (copy_run _ _ _ _ _ Hb1 Hy1 ltac:(now rewrite length_replicate))).
  rewrite (bind_Return _ _ _ _ _ HA).
  apply bind_Raise. apply (sub_mismatch _ _ _ _ _ Hb3 Hy). congruence.
Qed.

(** A guess of three entries for a right-hand side of two. *)
Lemma cg_size_mismatch_found_late_witness :
  exists (s' : store) (y : loc),
    cg (pure_action identity_op) 0%nat 1%nat 200 1e-6%float
      [[1; 1]; [1; 2; 3]]%float = (s', Raise PetscError) /\
    (2 < y)%nat /\ s' !! y = Some [1; 2; 3]%float.
Proof.
  apply (cg_size_mismatch_found_late identity_op (pure_action identity_op)
           0%nat 1%nat 200 1e-6%float [[1; 1]; [1; 2; 3]]%float
           [1; 1]%float [1; 2; 3]%float).
  - apply pure_action_implements.
  - reflexivity.
  - reflexivity.
  - simpl. lia.
Defined.

(** C8, counterexample.  A right-hand side of three entries for the
    2-by-2 operator diag(1, 2) and a guess of two: the call is refused, but
    only after the operator has been applied; its result (1, 2) is vector
    3 of the store. *)
Lemma cg_rejects_after_applying_operator :
  cg action_d12 0%nat 1%nat 200 1e-6%float [[1; 1; 1]; [1; 1]]%float
  = ([[1; 1; 1]; [1; 1]; [1; 1; 1]; [1; 2]]%float, Raise PetscError).
Proof. vm_compute. reflexivity. Qed.

(** When the operator returns a vector of the size of [b] for a longer
    guess, the refusal comes later still: at [x.axpy(alpha, p)], after the
    residual, the direction, [A p], two dot products and [alpha]. *)
Example cg_rejects_at_first_update :
  cg action_d12 0%nat 1%nat 200 1e-6%float [[1; 1]; [0; 0; 0]]%float
  = ([[1; 1]; [0; 0; 0]; [1; 1]; [0; 0]; [1; 1]; [1; 1]; [1; 2]]%float,
     Raise PetscError).
Proof. vm_compute. reflexivity. Qed.

(** ** Starting again from a converged vector *)

(** C6, amended.  A call of [cg] measures convergence against the residual
    of its own guess: [r0_norm2] is the squared norm of [b - apply x].  A
    call that returns (with [max_iter >= 1]) made between 1 and [max_iter]
    passes; it made exactly one when the residual of its first pass met the
    test against that norm, or when [max_iter] is 1. *)
Theorem cg_restart_count {libm : Libm} apply action_A (n : nat) b x max_iter
    rtol (s s' : store) vb vx e :
  implements apply action_A ->
  (forall v, length v = n -> length (apply v) = n) ->
  s !! b = Some vb -> s !! x = Some vx ->
  length vb = n -> length vx = n ->
  1 <= max_iter ->
  cg_run action_A b x max_iter rtol s = (s', Return e) ->
  let r := vsub vb (apply vx) in
  exists tol2,
    float_pow2 rtol = Return tol2 /\
    exit_r0_norm2 e = vdot r r /\
    1 <= exit_k e <= max_iter /\
    (exit_k e = 1 <->
     max_iter = 1 \/
     exists st1,
       passes 1 apply (Spec.init apply vb vx) = Return st1 /\
       Spec.below_tol (vdot (Spec.st_r st1) (Spec.st_r st1)) (vdot r r) tol2
       = true).
Proof.
  intros Himpl Hsize Hb Hx Lb Lx Hmax Hrun r.
  destruct (cg_run_passes apply action_A n Himpl Hsize b x max_iter rtol
              s s' e vb vx Hb Hx Lb Lx Hrun)
    as (k & st & Heps & Hr0 & Hk & Hle & Hp & _ & _ & Hearly & Hbrk & Hexh
        & _).
  cbn [Spec.init Spec.st_r] in Hr0, Hearly, Hbrk. fold r in Hr0, Hearly, Hbrk.
  exists (exit_eps e). split; [exact Heps|]. split; [exact Hr0|].
  assert (Hpos : (0 < k)%nat).
  { destruct (exit_by e) eqn:Hby.
    - apply Hbrk. reflexivity.
    - specialize (Hexh eq_refl). lia. }
  split; [lia|]. rewrite Hk. split.
  - intros H1. assert (k = 1%nat) by lia. subst k.
    destruct (exit_by e) eqn:Hby.
    + right. exists st. split; [exact Hp|]. apply Hbrk. reflexivity.
    + left. specialize (Hexh eq_refl). lia.
  - intros [-> | (st1 & Hp1 & Ht)]; [lia|].
    destruct (Nat.eq_dec k 1%nat) as [->|Hne]; [reflexivity|].
    destruct (Hearly 1%nat ltac:(lia)) as (stj & Hpj & Hf).
    rewrite Hp1 in Hpj. injection Hpj as <-. congruence.
Qed.

(** A re-run.  The call on diag(1, 2) x = (1, 1) from zero with
    [rtol = 0.9] converges in one pass, to (2/3, 2/3).  Called again with
    the same arguments, it measures against the residual of that vector,
    (1/3, -1/3), and makes exactly one pass more. *)
Lemma cg_restart_count_witness :
  let first := cg_run action_d12 0%nat 1%nat 200 0.9%float store_d12 in
  let again := cg_run action_d12 0%nat 1%nat 200 0.9%float first.1 in
  let e := returned no_exit again.2 in
  let vx := default [] (first.1 !! 1%nat) in
  let r := vsub [1; 1]%float (diag [1; 2]%float vx) in
  (exit_by (returned no_exit first.2) = Break /\
   exit_k (returned no_exit first.2) = 1 /\ exit_k e = 1) /\
  exists tol2,
    float_pow2 0.9%float = Return tol2 /\
    exit_r0_norm2 e = vdot r r /\
    1 <= exit_k e <= 200 /\
    (exit_k e = 1 <->
     200 = 1 \/
     exists st1,
       passes 1 (diag [1; 2]%float)
         (Spec.init (diag [1; 2]%float) [1; 1]%float vx) = Return st1 /\
       Spec.below_tol (vdot (Spec.st_r st1) (Spec.st_r st1)) (vdot r r) tol2
       = true).
Proof.
  intros first again e vx r.
  split; [repeat split; vm_compute; reflexivity|].
  apply (cg_restart_count (diag [1; 2]%float) action_d12 2%nat 0%nat 1%nat
           200 0.9%float first.1 again.1 [1; 1]%float vx e).
  - apply pure_action_implements.
  - intros v Hv. unfold diag. rewrite length_zip_with, Hv. reflexivity.
  - vm_compute. reflexivity.
  - vm_compute. reflexivity.
  - reflexivity.
  - vm_compute. reflexivity.
  - lia.
  - vm_compute. reflexivity.
Defined.

(** C6, counterexample.  On diag(1, 2, 3, 4) x = (1, 1, 1, 1) with
    [rtol = 0.25] the call from zero converges in two passes.  Called again
    with the same arguments, [x] now holding the converged vector, it makes
    two passes more before its test is met. *)
Lemma cg_restart_takes_two_passes :
  let first := cg_run action_d1234 0%nat 1%nat 200 0.25%float store_d1234 in
  let again := cg_run action_d1234 0%nat 1%nat 200 0.25%float first.1 in
  (exists e, first.2 = Return e /\ exit_by e = Break /\ exit_k e = 2) /\
  (exists e, again.2 = Return e /\ exit_by e = Break /\ exit_k e = 2).
Proof.
  vm_compute. split; eexists; (split; [reflexivity|]); split; reflexivity.
Qed.

(** ** The specification's algorithm on an example *)

Lemma cg_refines_spec_witness :
  Spec.cg (diag [1; 2]%float) [1; 1]%float [0; 0]%float 200 1e-6%float
  = Return ([1; 0.5]%float, 2) /\
  match Spec.cg (diag [1; 2]%float) [1; 1]%float [0; 0]%float 200 1e-6%float
  with
  | Return (xf, kf) =>
      exists s', cg action_d12 0%nat 1%nat 200 1e-6%float store_d12
                 = (s', Return kf) /\
                 s' !! 1%nat = Some xf
  | Raise ex =>
      exists s', cg action_d12 0%nat 1%nat 200 1e-6%float store_d12
                 = (s', Raise ex)
  end.
Proof.
  split; [vm_compute; reflexivity|].
  apply (cg_refines_spec (diag [1; 2]%float) action_d12 2%nat 0%nat 1%nat
           200 1e-6%float store_d12 [1; 1]%float [0; 0]%float).
  - apply pure_action_implements.
  - intros v Hv. unfold diag. rewrite length_zip_with, Hv. reflexivity.
  - reflexivity.
  - reflexivity.
  - reflexivity.
  - reflexivity.
Defined.

(** ** The three drivers at the iteration cap *)

(** C4.  On diag(1, 2) x = (1, 1) from zero with [max_iter = 1] and
    [rtol = 1e-6], [cg] makes one pass and returns 1, with
    [x = (2/3, 2/3)]; [CG.solve] makes two passes, leaves the iteration
    number 2 and the reason [DIVERGED_MAX_IT], with [x = (1, 0.5)]. *)
Theorem cg_and_CG_solve_differ_at_cap :
  let bare := cg action_d12 0%nat 1%nat 1 1e-6%float store_d12 in
  let plugin :=
    (v <- CG.setUp 0%nat ;;
     CG.solve action_d12 v (KSP_create 1e-6%float 1) 0%nat 1%nat) store_d12 in
  (bare.2 = Return 1 /\
   bare.1 !! 1%nat
   = Some [0.66666666666666663; 0.66666666666666663]%float) /\
  (exists ksp, plugin.2 = Return ksp /\ ksp_its ksp = 2 /\
               ksp_reason ksp = DIVERGED_MAX_IT /\
               length (ksp_history ksp) = 3%nat) /\
  plugin.1 !! 1%nat = Some [1; 0.5]%float.
Proof.
  vm_compute. split; [split; reflexivity|].
  split; [|reflexivity]. eexists. repeat split; reflexivity.
Qed.

(** ** The loop of [CG.solve] *)

Lemma logConvergenceHistory_its rnorm ksp :
  ksp_its (logConvergenceHistory rnorm ksp) = ksp_its ksp /\
  ksp_max_it (logConvergenceHistory rnorm ksp) = ksp_max_it ksp.
Proof. unfold logConvergenceHistory. now destruct (_ <? _). Qed.

(** The test lets the loop go on only up to iteration number [max_it], and
    then the iteration number grows by one. *)
Lemma CustomKSP_converged_continue ksp r s s' ksp' :
  CustomKSP.converged ksp r s = (s', Return (ksp', 0)) ->
  ksp_its ksp <= ksp_max_it ksp /\
  ksp_its ksp' = ksp_its ksp + 1 /\
  ksp_max_it ksp' = ksp_max_it ksp.
Proof.
  unfold CustomKSP.converged. intros H. bind_inv H. bind_inv H.
  apply lift_inv in Hrun0 as [-> Htest].
  set (ksp1 := logConvergenceHistory a (setResidualNorm a ksp)) in *.
  destruct (logConvergenceHistory_its a (setResidualNorm a ksp))
    as [Hits Hmax]. fold ksp1 in Hits, Hmax. simpl in Hits, Hmax.
  destruct (a0 =? 0) eqn:Ha0; unfold ret in H; injection H as _ <- ->.
  - unfold converged in Htest. rewrite Hmax in Htest.
    destruct (ksp_its ksp >? ksp_max_it ksp) eqn:Hgt.
    + discriminate.
    + simpl. split; [|split; [reflexivity | exact Hmax]].
      pose proof (Zgt_cases (ksp_its ksp) (ksp_max_it ksp)) as Hc.
      rewrite Hgt in Hc. exact Hc.
  - discriminate.
Qed.

Lemma bind_ext {A B} (c : M A) (k1 k2 : A -> M B) s :
  (forall s1 a, c s = (s1, Return a) -> k1 a s1 = k2 a s1) ->
  bind c k1 s = bind c k2 s.
Proof.
  intros H. unfold bind. destruct (c s) as [s1 [a|ex]]; [|reflexivity].
  now apply H.
Qed.

(** More fuel than [Z.to_nat (max_it - its + 1)] changes nothing. *)
Lemma solve_while_fuel action_A x r p y :
  forall fuel ksp rn s,
    (Z.to_nat (ksp_max_it ksp - ksp_its ksp + 1) <= fuel)%nat ->
    CG.solve_while (S fuel) action_A x r p y ksp rn s
    = CG.solve_while fuel action_A x r p y ksp rn s.
Proof.
  induction fuel as [|fuel IH]; intros ksp rn s Hfuel.
  - cbn [CG.solve_while]. apply bind_ext. intros s1 [ksp' reason] E.
    destruct (reason =? 0) eqn:Hr; [|reflexivity].
    apply Z.eqb_eq in Hr. subst reason.
    apply CustomKSP_converged_continue in E as (Hle & _ & _). lia.
  - cbn [CG.solve_while]. apply bind_ext. intros s1 [ksp' reason] E.
    destruct (reason =? 0) eqn:Hr; [|reflexivity].
    apply Z.eqb_eq in Hr. subst reason.
    apply CustomKSP_converged_continue in E as (Hle & Hits & Hmax).
    apply bind_ext. intros s2 rn' _.
    specialize (IH ksp' rn' s2 ltac:(lia)).
    cbn [CG.solve_while] in IH. exact IH.
Qed.

(** * Further facts *)

(** ** The bookkeeping of [CustomKSP.converged] *)

Lemma converged_reasons ksp k rnorm reason :
  converged ksp k rnorm = Return reason ->
  (reason = ITERATING \/ reason = CONVERGED_RTOL \/ reason = DIVERGED_MAX_IT) /\
  (reason = DIVERGED_MAX_IT <-> k > ksp_max_it ksp).
Proof.
  unfold converged. pose proof (Zgt_cases k (ksp_max_it ksp)) as Hc.
  destruct (k >? ksp_max_it ksp).
  - intros [= <-]. split; [auto|]. split; [intros _; exact Hc | reflexivity].
  - destruct (ksp_history ksp) as [|r0 h]; [discriminate|].
    destruct (_ <? _)%float; intros [= <-];
      (split; [auto|]); (split; [discriminate | lia]).
Qed.

Lemma converged_inv ksp r (s s' : store) ksp' reason :
  CustomKSP.converged ksp r s = (s', Return (ksp', reason)) ->
  s' = s /\
  ksp_rtol ksp' = ksp_rtol ksp /\ ksp_max_it ksp' = ksp_max_it ksp /\
  (exists v, s !! r = Some v /\ ksp_rnorm ksp' = sqrt (vdot v v)) /\
  (reason = ITERATING \/ reason = CONVERGED_RTOL \/ reason = DIVERGED_MAX_IT) /\
  (reason = ITERATING ->
   ksp_its ksp' = ksp_its ksp + 1 /\ ksp_reason ksp' = ksp_reason ksp /\
   ksp_its ksp <= ksp_max_it ksp) /\
  (reason <> ITERATING ->
   ksp_its ksp' = ksp_its ksp /\ ksp_reason ksp' = reason) /\
  (reason = DIVERGED_MAX_IT <-> ksp_its ksp > ksp_max_it ksp).
Proof.
  unfold CustomKSP.converged. intros H. bind_inv H.
  unfold Vec.norm in Hrun. bind_inv Hrun.
  apply Vec_get_inv in Hrun0 as [-> Hr].
  unfold ret in Hrun. injection Hrun as <- <-.
  bind_inv H. apply lift_inv in Hrun as [-> Htest]. symmetry in Htest.
  set (nrm := sqrt (vdot a0 a0)) in *.
  set (ksp1 := logConvergenceHistory nrm (setResidualNorm nrm ksp)) in *.
  assert (Hk1 : ksp_its ksp1 = ksp_its ksp /\ ksp_rtol ksp1 = ksp_rtol ksp /\
                ksp_max_it ksp1 = ksp_max_it ksp /\ ksp_rnorm ksp1 = nrm /\
                ksp_reason ksp1 = ksp_reason ksp).
  { unfold ksp1, logConvergenceHistory. now destruct (_ <? _). }
  destruct Hk1 as (Hits & Hrtol & Hmax & Hnrm & Hreason).
  apply converged_reasons in Htest as [Hcases Hdiv]. rewrite Hmax in Hdiv.
  split; [destruct (a =? 0); unfold ret in H; now injection H|].
  destruct (a =? 0) eqn:Ha; unfold ret in H; injection H as _ <- <-.
  - apply Z.eqb_eq in Ha. subst a. unfold ITERATING. simpl.
    split; [exact Hrtol|]. split; [exact Hmax|]. split; [eauto|].
    split; [auto|]. split.
    + intros _. split; [lia|]. split; [exact Hreason|].
      destruct (Z_gt_le_dec (ksp_its ksp) (ksp_max_it ksp)) as [Hgt|Hle];
        [|exact Hle].
      apply Hdiv in Hgt. discriminate.
    + split; [congruence | exact Hdiv].
  - apply Z.eqb_neq in Ha. simpl.
    split; [exact Hrtol|]. split; [exact Hmax|]. split; [eauto|].
    split; [exact Hcases|].
    split; [unfold ITERATING; congruence|].
    split; [intros _; split; [exact Hits | reflexivity] | exact Hdiv].
Qed.

Lemma converged_inv_history ksp r (s s' : store) ksp' reason :
  CustomKSP.converged ksp r s = (s', Return (ksp', reason)) ->
  ksp_history_max ksp' = ksp_history_max ksp /\
  ksp_history ksp'
  = if Z.of_nat (length (ksp_history ksp)) <? ksp_history_max ksp
    then ksp_history ksp ++ [ksp_rnorm ksp'] else ksp_history ksp.
Proof.
  unfold CustomKSP.converged. intros H. bind_inv H.
  unfold Vec.norm in Hrun. bind_inv Hrun.
  unfold ret in Hrun. injection Hrun as <- <-.
  bind_inv H. apply lift_inv in Hrun as [-> _].
  destruct (a =? 0); unfold ret in H; injection H as _ <- _;
    unfold logConvergenceHistory, setIterationNumber, setConvergedReason,
      setResidualNorm; simpl;
    now destruct (_ <? _).
Qed.

(** X1.  One test of the plugin: it reads the vector [r] and writes no
    vector; the tolerances stay; the norm of [r] is recorded as the residual
    norm, and appended to the convergence history while that has room; with
    the answer [ITERATING] the iteration number grows by one (and was at
    most [max_it]), with any other answer the iteration number stays and the
    answer becomes the converged reason; the answer is [DIVERGED_MAX_IT]
    exactly when the iteration number is above [max_it]. *)
Theorem CustomKSP_converged_effect ksp r (s s' : store) ksp' reason :
  CustomKSP.converged ksp r s = (s', Return (ksp', reason)) ->
  s' = s /\
  ksp_rtol ksp' = ksp_rtol ksp /\ ksp_max_it ksp' = ksp_max_it ksp /\
  ksp_history_max ksp' = ksp_history_max ksp /\
  (exists v, s !! r = Some v /\ ksp_rnorm ksp' = sqrt (vdot v v)) /\
  ksp_history ksp'
  = (if Z.of_nat (length (ksp_history ksp)) <? ksp_history_max ksp
     then ksp_history ksp ++ [ksp_rnorm ksp'] else ksp_history ksp) /\
  (reason = ITERATING \/ reason = CONVERGED_RTOL \/ reason = DIVERGED_MAX_IT) /\
  (reason = ITERATING ->
   ksp_its ksp' = ksp_its ksp + 1 /\ ksp_reason ksp' = ksp_reason ksp /\
   ksp_its ksp <= ksp_max_it ksp) /\
  (reason <> ITERATING ->
   ksp_its ksp' = ksp_its ksp /\ ksp_reason ksp' = reason) /\
  (reason = DIVERGED_MAX_IT <-> ksp_its ksp > ksp_max_it ksp).
Proof.
  intros H.
  destruct (converged_inv_history _ _ _ _ _ _ H) as [Hhmax Hhist].
  destruct (converged_inv _ _ _ _ _ _ H)
    as (Hs & Hrtol & Hmax & Hnorm & Hcases & Hgo & Hstop & Hdiv).
  split; [exact Hs|]. split; [exact Hrtol|]. split; [exact Hmax|].
  split; [exact Hhmax|]. split; [exact Hnorm|]. split; [exact Hhist|].
  split; [exact Hcases|]. split; [exact Hgo|]. split; [exact Hstop|].
  exact Hdiv.
Qed.

(** The first test on a residual (3, 4): the norm 5 is logged, and the
    answer is [ITERATING]. *)
Lemma CustomKSP_converged_effect_witness :
  let s := [[3; 4]]%float in
  let out := CustomKSP.converged (KSP_create 1e-6 200) 0%nat s in
  let ksp' := (returned (KSP_create 0 0, 0) out.2).1 in
  let reason := (returned (KSP_create 0 0, 0) out.2).2 in
  (reason = ITERATING /\ ksp_rnorm ksp' = 5%float /\
   ksp_history ksp' = [5%float]) /\
  (out.1 = s /\
   ksp_rtol ksp' = 1e-6%float /\ ksp_max_it ksp' = 200 /\
   ksp_history_max ksp' = 10000 /\
   (exists v, s !! 0%nat = Some v /\ ksp_rnorm ksp' = sqrt (vdot v v)) /\
   ksp_history ksp'
   = (if Z.of_nat (length (@nil float)) <? 10000
      then [] ++ [ksp_rnorm ksp'] else []) /\
   (reason = ITERATING \/ reason = CONVERGED_RTOL \/
    reason = DIVERGED_MAX_IT) /\
   (reason = ITERATING ->
    ksp_its ksp' = 0 + 1 /\ ksp_reason ksp' = ITERATING /\ 0 <= 200) /\
   (reason <> ITERATING -> ksp_its ksp' = 0 /\ ksp_reason ksp' = reason) /\
   (reason = DIVERGED_MAX_IT <-> 0 > 200)).
Proof.
  intros s out ksp' reason.
  split; [repeat split; vm_compute; reflexivity|].
  apply (CustomKSP_converged_effect (KSP_create 1e-6 200) 0%nat s out.1
           ksp' reason).
  vm_compute. reflexivity.
Defined.

(** ** How [CG.solve] ends *)

Lemma solve_while_post action_A x r p y :
  forall fuel ksp rn (s s' : store) ksp',
    (Z.to_nat (ksp_max_it ksp - ksp_its ksp + 1) <= fuel)%nat ->
    CG.solve_while fuel action_A x r p y ksp rn s = (s', Return ksp') ->
    ksp_rtol ksp' = ksp_rtol ksp /\ ksp_max_it ksp' = ksp_max_it ksp /\
    ((ksp_reason ksp' = CONVERGED_RTOL /\
      ksp_its ksp <= ksp_its ksp' <= ksp_max_it ksp) \/
     (ksp_reason ksp' = DIVERGED_MAX_IT /\
      ksp_its ksp' = Z.max (ksp_its ksp) (ksp_max_it ksp + 1))).
Proof.
  induction fuel as [|fuel IH]; intros ksp rn s s' ksp' Hfuel H;
    cbn [CG.solve_while] in H; bind_inv H; destruct a as [ksp1 reason];
    apply converged_inv in Hrun
      as (-> & Hrtol & Hmax & _ & Hcases & Hgo & Hstop & Hdiv).
  - destruct (reason =? 0) eqn:Hr.
    + apply Z.eqb_eq in Hr. destruct (Hgo Hr) as (_ & _ & Hle). lia.
    + apply Z.eqb_neq in Hr. unfold ret in H. injection H as _ <-.
      destruct (Hstop Hr) as [Hits Hreason].
      split; [exact Hrtol|]. split; [exact Hmax|].
      destruct Hcases as [-> | [-> | ->]];
        [now unfold ITERATING in Hr | left | right].
      * split; [exact Hreason|].
        assert (~ ksp_its ksp > ksp_max_it ksp)
          by (intros Hgt; apply Hdiv in Hgt; discriminate). lia.
      * split; [exact Hreason|]. assert (ksp_its ksp > ksp_max_it ksp)
          by (now apply Hdiv). lia.
  - destruct (reason =? 0) eqn:Hr.
    + apply Z.eqb_eq in Hr. destruct (Hgo Hr) as (Hits & _ & Hle).
      bind_inv H.
      apply IH in H as (Hrtol' & Hmax' & Hend); [|lia].
      split; [congruence|]. split; [congruence|].
      rewrite Hits, Hmax in Hend. destruct Hend as [[Hc Hb] | [Hd He]].
      * left. split; [exact Hc | lia].
      * right. split; [exact Hd | lia].
    + apply Z.eqb_neq in Hr. unfold ret in H. injection H as _ <-.
      destruct (Hstop Hr) as [Hits Hreason].
      split; [exact Hrtol|]. split; [exact Hmax|].
      destruct Hcases as [-> | [-> | ->]];
        [now unfold ITERATING in Hr | left | right].
      * split; [exact Hreason|].
        assert (~ ksp_its ksp > ksp_max_it ksp)
          by (intros Hgt; apply Hdiv in Hgt; discriminate). lia.
      * split; [exact Hreason|]. assert (ksp_its ksp > ksp_max_it ksp)
          by (now apply Hdiv). lia.
Qed.

(** X2.  A call of [CG.solve] that returns has set a converged reason, and
    kept the tolerances. Either the reason is [CONVERGED_RTOL] and the
    iteration number is at most [max_it], or it is [DIVERGED_MAX_IT] and the
    iteration number is [max_it + 1] (the number it had, if that was above
    [max_it] already): the cap lets one pass more through than [max_it]. *)
Theorem CG_solve_ends action_A vectors ksp b x (s s' : store) ksp' :
  CG.solve action_A vectors ksp b x s = (s', Return ksp') ->
  ksp_rtol ksp' = ksp_rtol ksp /\ ksp_max_it ksp' = ksp_max_it ksp /\
  ((ksp_reason ksp' = CONVERGED_RTOL /\
    ksp_its ksp <= ksp_its ksp' <= ksp_max_it ksp) \/
   (ksp_reason ksp' = DIVERGED_MAX_IT /\
    ksp_its ksp' = Z.max (ksp_its ksp) (ksp_max_it ksp + 1))).
Proof.
  unfold CG.solve. destruct vectors as [[[w0 w1] p] y]. intros H.
  do 6 bind_inv H.
  apply solve_while_post in H; [exact H | lia].
Qed.

Lemma CG_solve_ends_witness :
  let run := (v <- CG.setUp 0%nat ;;
              CG.solve action_d12 v (KSP_create 1e-6%float 200) 0%nat 1%nat)
               store_d12 in
  let ksp' := returned (KSP_create 0 0) run.2 in
  (ksp_reason ksp' = CONVERGED_RTOL /\ ksp_its ksp' = 2) /\
  (ksp_rtol ksp' = 1e-6%float /\ ksp_max_it ksp' = 200 /\
   ((ksp_reason ksp' = CONVERGED_RTOL /\ 0 <= ksp_its ksp' <= 200) \/
    (ksp_reason ksp' = DIVERGED_MAX_IT /\
     ksp_its ksp' = Z.max 0 (200 + 1)))).
Proof.
  intros run ksp'. split; [split; vm_compute; reflexivity|].
  apply (CG_solve_ends action_d12 (2%nat, 3%nat, 4%nat, 5%nat)
           (KSP_create 1e-6%float 200) 0%nat 1%nat
           (store_d12 ++ [[0; 0]; [0; 0]; [0; 0]; [0; 0]]%float) run.1 ksp').
  vm_compute. reflexivity.
Defined.

(** ** A float divided by itself *)

Lemma Z_div_eucl_mul (b : positive) (c : Z) :
  Z.div_eucl (Z.pos b * c) (Z.pos b) = (c, 0).
Proof.
  pose proof (Z.div_mul c (Z.pos b) ltac:(lia)) as Hq.
  pose proof (Z.mod_mul c (Z.pos b) ltac:(lia)) as Hr.
  rewrite (Z.mul_comm c) in Hq, Hr. unfold Z.div, Z.modulo in Hq, Hr.
  destruct (Z.div_eucl (Z.pos b * c) (Z.pos b)) as [q r]. congruence.
Qed.

Lemma SFdiv_self_finite s m e :
  SF64div (S754_finite s m e) (S754_finite s m e)
  = S754_finite false 4503599627370496 (-52).
Proof.
  unfold SF64div, SFdiv, SFdiv_core_binary.
  replace (Zdigits2 (Z.pos m) + e - (Zdigits2 (Z.pos m) + e)) with 0 by lia.
  replace (e - e) with 0 by lia.
  change (Z.min (fexp prec emax 0) 0) with (-53).
  change (0 - -53) with 53.
  rewrite Z.shiftl_mul_pow2 by lia. rewrite Z_div_eucl_mul.
  replace (new_location (Z.pos m) 0) with loc_Exact
    by (unfold new_location, new_location_even, new_location_odd;
        now destruct (Z.even _)).
  rewrite xorb_nilpotent. vm_compute. reflexivity.
Qed.

(** [x / x] is 1 for a finite non-zero [x], and NaN for zero, an infinity
    or NaN. *)
Lemma float_div_self (x : float) :
  (x / x)%float = 1%float \/ (x / x)%float = nan.
Proof.
  destruct (Prim2SF x) as [s|s| |s m e] eqn:Ex.
  - right. apply Prim2SF_inj. rewrite div_spec, Ex. reflexivity.
  - right. apply Prim2SF_inj. rewrite div_spec, Ex. reflexivity.
  - right. apply Prim2SF_inj. rewrite div_spec, Ex. reflexivity.
  - left. apply Prim2SF_inj. rewrite div_spec, Ex, SFdiv_self_finite.
    reflexivity.
Qed.

Lemma float_div_self_finite (x : float) :
  is_finite x = true -> (x =? 0)%float = false -> (x / x)%float = 1%float.
Proof.
  intros Hfin Hnz. apply Prim2SF_inj. rewrite div_spec.
  unfold is_finite, is_nan, is_infinity in Hfin.
  rewrite !FloatAxioms.eqb_spec, abs_spec in Hfin.
  rewrite FloatAxioms.eqb_spec in Hnz.
  destruct (Prim2SF x) as [s|s| |s m e] eqn:Ex.
  - now destruct s.
  - now destruct s.
  - discriminate.
  - rewrite SFdiv_self_finite. reflexivity.
Qed.

Lemma ltb_div_self (x rtol : float) :
  (1 <? rtol)%float = false -> (x / x <? rtol)%float = false.
Proof.
  intros H. destruct (float_div_self x) as [-> | ->]; [exact H|].
  rewrite FloatAxioms.ltb_spec. reflexivity.
Qed.

(** ** The operator of the notebook *)

Lemma set_bc_snoc b bc d g scale :
  set_bc b (bc ++ [(d, g)]) scale
  = <[d := (scale * g)%float]> (set_bc b bc scale).
Proof. unfold set_bc. now rewrite fold_left_app. Qed.

Lemma length_set_bc b bc scale : length (set_bc b bc scale) = length b.
Proof.
  induction bc as [|[d g] bc IH] using rev_ind; [reflexivity|].
  rewrite set_bc_snoc, length_insert. exact IH.
Qed.

(** Away from the constrained degrees of freedom the array stays. *)
Lemma set_bc_lookup_free b bc scale i :
  i ∉ bc.*1 -> set_bc b bc scale !! i = b !! i.
Proof.
  induction bc as [|[d g] bc IH] using rev_ind; intros Hi; [reflexivity|].
  rewrite fmap_app in Hi. apply not_elem_of_app in Hi as [Hi Hd].
  rewrite set_bc_snoc, list_lookup_insert_ne; [now apply IH|].
  intros ->. apply Hd. simpl. apply list_elem_of_singleton. reflexivity.
Qed.

(** At a constrained degree of freedom it holds [scale] times one of the
    boundary values listed for it. *)
Lemma set_bc_lookup_bc b bc scale i :
  i ∈ bc.*1 -> (i < length b)%nat ->
  exists g, (i, g) ∈ bc /\ set_bc b bc scale !! i = Some (scale * g)%float.
Proof.
  induction bc as [|[d g] bc IH] using rev_ind; intros Hi Hlt.
  - simpl in Hi. now apply elem_of_nil in Hi.
  - rewrite set_bc_snoc. destruct (decide (i = d)) as [->|Hne].
    + exists g.
      split; [apply elem_of_app; right; now apply list_elem_of_singleton|].
      apply list_lookup_insert_eq. now rewrite length_set_bc.
    + rewrite fmap_app in Hi. apply elem_of_app in Hi as [Hi|Hi].
      * destruct (IH Hi Hlt) as (g' & Hin & Hl). exists g'.
        split; [apply elem_of_app; now left|].
        rewrite list_lookup_insert_ne by auto. exact Hl.
      * simpl in Hi. apply list_elem_of_singleton in Hi. congruence.
Qed.

(** Zero times a finite number is a zero. *)
Lemma mul_zero_finite (g : float) :
  is_finite g = true -> (0 * g =? 0)%float = true.
Proof.
  intros Hfin. unfold is_finite, is_nan, is_infinity in Hfin.
  rewrite !FloatAxioms.eqb_spec, abs_spec in Hfin.
  rewrite FloatAxioms.eqb_spec, mul_spec.
  destruct (Prim2SF g) as [sg|sg| |sg m e] eqn:Eg.
  - now destruct sg.
  - now destruct sg.
  - discriminate.
  - now destruct sg.
Qed.

Lemma action_A_run ui assemble_M bc x (s : store) vx vu :
  s !! x = Some vx -> s !! ui = Some vu -> length vx = length vu ->
  action_A ui assemble_M bc x s
  = (<[ui := vx]> s ++ [bc_apply assemble_M bc vx], Return (length s)).
Proof.
  intros Hx Hu Hlen.
  pose proof (lookup_lt_Some _ _ _ Hu) as Bu.
  unfold action_A.
  rewrite (bind_Return _ _ _ _ _ (copy_run _ _ _ _ _ Hx Hu Hlen)).
  set (s1 := <[ui := vx]> s).
  assert (Hu1 : s1 !! ui = Some vx) by (apply list_lookup_insert_eq; lia).
  assert (L1 : length s1 = length s) by apply length_insert.
  rewrite (bind_Return _ _ _ _ _ (ghostUpdate_run _ _ _ Hu1)).
  rewrite (bind_Return _ _ _ _ _ (Vec_get_run _ _ _ Hu1)).
  unfold bind at 1, Vec_new at 1.
  set (s2 := s1 ++ [assemble_M vx]).
  assert (Hy2 : s2 !! length s1 = Some (assemble_M vx))
    by (apply list_lookup_middle; reflexivity).
  rewrite (bind_Return _ _ _ _ _ (Vec_get_run _ _ _ Hy2)).
  unfold bind at 1, Vec_put at 1.
  assert (E : <[length s1 := set_bc (assemble_M vx) bc 0]> s2
              = s1 ++ [bc_apply assemble_M bc vx]).
  { unfold s2. rewrite insert_app_r_alt by lia.
    now rewrite Nat.sub_diag. }
  rewrite E.
  assert (Hy3 : (s1 ++ [bc_apply assemble_M bc vx]) !! length s1
                = Some (bc_apply assemble_M bc vx))
    by (apply list_lookup_middle; reflexivity).
  rewrite (bind_Return _ _ _ _ _ (ghostUpdate_run _ _ _ Hy3)).
  unfold ret. now rewrite L1.
Qed.

Lemma action_A_mismatch ui assemble_M bc x (s : store) vx vu :
  s !! x = Some vx -> s !! ui = Some vu -> length vx <> length vu ->
  action_A ui assemble_M bc x s = (s, Raise PetscError).
Proof.
  intros Hx Hu Hlen. unfold action_A. apply bind_Raise. unfold Vec.copy.
  rewrite (bind_Return _ _ _ _ _ (Vec_get_run _ _ _ Hx)).
  rewrite (bind_Return _ _ _ _ _ (Vec_get_run _ _ _ Hu)).
  apply bind_Raise. unfold same_size.
  apply Nat.eqb_neq in Hlen. now rewrite Hlen.
Qed.

(** X3.  A call of [action_A]. When [x] has the size of [ui], it copies [x]
    into [ui], changes no other vector, and returns a new vector of the size
    of what is assembled; where a degree of freedom is constrained (with
    finite boundary values) that vector holds a zero, elsewhere what was
    assembled from [x]. When the sizes differ the call raises PETSc's error
    and changes nothing. *)
Theorem action_A_effect ui assemble_M bc x (s : store) vx vu :
  s !! x = Some vx -> s !! ui = Some vu ->
  Forall (fun dg => is_finite dg.2 = true) bc ->
  (length vx = length vu ->
   exists vy,
     action_A ui assemble_M bc x s
     = (<[ui := vx]> s ++ [vy], Return (length s)) /\
     length vy = length (assemble_M vx) /\
     (forall i, i ∈ bc.*1 -> (i < length vy)%nat ->
                exists z, vy !! i = Some z /\ (z =? 0)%float = true) /\
     (forall i, i ∉ bc.*1 -> vy !! i = assemble_M vx !! i)) /\
  (length vx <> length vu ->
   action_A ui assemble_M bc x s = (s, Raise PetscError)).
Proof.
  intros Hx Hu Hfin. split; intros Hlen.
  - exists (bc_apply assemble_M bc vx).
    split; [now apply (action_A_run _ _ _ _ _ _ vu)|].
    unfold bc_apply. split; [apply length_set_bc|]. split.
    + intros i Hi Hlt. rewrite length_set_bc in Hlt.
      destruct (set_bc_lookup_bc _ _ 0%float _ Hi Hlt) as (g & Hin & Hl).
      exists (0 * g)%float. split; [exact Hl|].
      apply mul_zero_finite.
      rewrite Forall_forall in Hfin. exact (Hfin _ Hin).
    + intros i Hi. now apply set_bc_lookup_free.
  - now apply (action_A_mismatch _ _ _ _ _ vx vu).
Qed.

(** Applied to [b] = (0, 1, 1) in the small setting: [ui] becomes
    (0, 1, 1) and the new vector is (0, 3, 4). *)
Lemma action_A_effect_witness :
  action_bc 0%nat store_bc
  = ([[0; 1; 1]; [0; 0; 0]; [0; 1; 1]; [0; 3; 4]]%float, Return 3%nat) /\
  exists vy,
    action_bc 0%nat store_bc
    = (<[2%nat := [0; 1; 1]%float]> store_bc ++ [vy],
       Return (length store_bc)) /\
    length vy = length (assemble_d234 [0; 1; 1]%float) /\
    (forall i, i ∈ bc_first.*1 -> (i < length vy)%nat ->
               exists z, vy !! i = Some z /\ (z =? 0)%float = true) /\
    (forall i, i ∉ bc_first.*1 ->
               vy !! i = assemble_d234 [0; 1; 1]%float !! i).
Proof.
  split; [vm_compute; reflexivity|].
  apply (action_A_effect 2%nat assemble_d234 bc_first 0%nat store_bc
           [0; 1; 1]%float [0; 0; 0]%float).
  - reflexivity.
  - reflexivity.
  - repeat constructor.
  - reflexivity.
Defined.

(** [action_A] is a callable with scratch vector [ui]. *)
Lemma action_A_implements_via ui n assemble_M bc :
  implements_via ui n (bc_apply assemble_M bc) (action_A ui assemble_M bc).
Proof.
  intros s l v vu Hl Lv Hu Lu.
  pose proof (lookup_lt_Some _ _ _ Hu) as Bu.
  exists (<[ui := v]> s ++ [bc_apply assemble_M bc v]), (length s), v.
  assert (L1 : length (<[ui := v]> s) = length s) by apply length_insert.
  split; [apply (action_A_run _ _ _ _ _ _ vu); congruence|].
  split; [rewrite length_app, L1; lia|].
  split.
  { intros l' Hne Hlt. rewrite lookup_app_l by lia.
    apply list_lookup_insert_ne. auto. }
  split.
  { rewrite lookup_app_l by lia. apply list_lookup_insert_eq. lia. }
  split; [exact Lv|]. split; [lia|].
  rewrite <- L1. apply list_lookup_middle. reflexivity.
Qed.

(** It leaves every vector but [ui] alone. *)
Lemma action_A_preserves ui assemble_M bc (l : loc) :
  l <> ui -> preserves l (action_A ui assemble_M bc).
Proof.
  intros Hne s a Hl.
  pose proof (frames_bind l (Vec.copy a ui)
                (fun _ => Vec.ghostUpdate ui ;;
                          u <- Vec_get ui ;;
                          y <- Vec_new (assemble_M u) ;;
                          y_local <- Vec_get y ;;
                          Vec_put y (set_bc y_local bc 0) ;;
                          Vec.ghostUpdate y ;; ret y)
                (fun _ => True) (fun _ => True)) as H.
  destruct (H (frames_copy l a ui ltac:(auto))) with (s := s) as (H1 & H2 & _);
    [|exact Hl|split; [exact H1 | exact H2]].
  intros _ _.
  apply (frames_bind l _ _ (fun _ => True)); [apply frames_ghostUpdate|].
  intros _ _.
  apply (frames_bind l _ _ (fun _ => True)); [apply frames_get|].
  intros u _.
  apply (frames_bind l _ _ (fun v => v <> l)); [apply frames_new|].
  intros y Hy.
  apply (frames_bind l _ _ (fun _ => True)); [apply frames_get|].
  intros yl _.
  apply (frames_bind l _ _ (fun _ => True)); [now apply frames_put|].
  intros _ _.
  apply (frames_bind l _ _ (fun _ => True)); [apply frames_ghostUpdate|].
  intros _ _. now apply frames_ret.
Qed.

Lemma has_scratch_insert (s : store) ui n l v :
  l <> ui -> has_scratch s ui n -> has_scratch (<[l := v]> s) ui n.
Proof.
  intros Hne (vu & Hu & Lu). exists vu. split; [|exact Lu].
  rewrite list_lookup_insert_ne by exact Hne. exact Hu.
Qed.

Lemma has_scratch_app (s : store) ui n t :
  has_scratch s ui n -> has_scratch (s ++ t) ui n.
Proof.
  intros (vu & Hu & Lu). exists vu. split; [|exact Lu].
  now apply lookup_app_l_Some.
Qed.

(** ** The two solvers against the recurrence, for a callable with a
    scratch vector *)

Section Via.

Variable ui : loc.
Variable n : nat.
Variable apply : vec -> vec.
Variable action_A : loc -> M loc.
Hypothesis Hvia : implements_via ui n apply action_A.
Hypothesis Hsize : forall v, length v = n -> length (apply v) = n.

(** A call of the callable, as the solvers use it. *)
Lemma via_run (s : store) l v :
  s !! l = Some v -> length v = n -> has_scratch s ui n ->
  exists (s1 : store) (y : loc),
    action_A l s = (s1, Return y) /\
    (length s <= length s1)%nat /\
    (forall l' w, l' <> ui -> s !! l' = Some w -> s1 !! l' = Some w) /\
    has_scratch s1 ui n /\
    (length s <= y)%nat /\ s1 !! y = Some (apply v) /\
    length (apply v) = n.
Proof.
  intros Hl Lv (vu & Hu & Lu).
  destruct (Hvia s l v vu Hl Lv Hu Lu)
    as (s1 & y & vu' & HA & Hlen & Hkeep & Hu' & Lu' & Hfresh & Hy).
  exists s1, y. split; [exact HA|]. split; [exact Hlen|].
  split.
  { intros l' w Hne Hw. rewrite Hkeep; [exact Hw | exact Hne|].
    exact (lookup_lt_Some _ _ _ Hw). }
  split; [now exists vu'|]. split; [exact Hfresh|].
  split; [exact Hy | now apply Hsize].
Qed.

Lemma cg_body_via x r p r0 eps st (s : store) :
  fnonneg r0 ->
  holds s x r p st n -> has_scratch s ui n ->
  x <> ui -> r <> ui -> p <> ui ->
  match Spec.step apply st with
  | Raise e =>
      exists s', cg_body action_A x r p r0 eps (Spec.st_r_norm2 st) s
                 = (s', Raise e)
  | Return (st', beta) =>
      match float_truediv (Spec.st_r_norm2 st') r0 with
      | Raise e =>
          exists s', cg_body action_A x r p r0 eps (Spec.st_r_norm2 st) s
                     = (s', Raise e)
      | Return _ =>
          let brk := Spec.below_tol (Spec.st_r_norm2 st') r0 eps in
          exists s', cg_body action_A x r p r0 eps (Spec.st_r_norm2 st) s
                     = (s', Return (brk, Spec.st_r_norm2 st')) /\
                     holds s' x r p (after_pass brk beta st') n /\
                     has_scratch s' ui n
      end
  end.
Proof.
  intros H0 (Hx & Hr & Hp & Hxr & Hxp & Hrp & Lx & Lr & Lp) Hsc Hxu Hru Hpu.
  destruct st as [vx vr vp rn]; simpl in *.
  destruct (via_run s p vp Hp Lp Hsc)
    as (s1 & y & HA & Hlen & Hkeep & Hsc1 & Hfresh & Hy & Ly).
  pose proof (lookup_lt_Some _ _ _ Hx) as Bx.
  pose proof (lookup_lt_Some _ _ _ Hr) as Br.
  pose proof (lookup_lt_Some _ _ _ Hp) as Bp.
  pose proof (Hkeep _ _ Hxu Hx) as Hx1.
  pose proof (Hkeep _ _ Hru Hr) as Hr1.
  pose proof (Hkeep _ _ Hpu Hp) as Hp1.
  unfold Spec.step; simpl.
  unfold cg_body.
  rewrite (bind_Return _ _ _ _ _ HA).
  rewrite (bind_Return _ _ _ _ _ (dot_run _ _ _ _ _ Hp1 Hy ltac:(lia))).
  rewrite bind_lift.
  destruct (float_truediv rn (vdot vp (apply vp))) as [alpha|e]; simpl;
    [|eauto].
  rewrite (bind_Return _ _ _ _ _ (axpy_run _ _ alpha _ _ _ Hx1 Hp1 ltac:(lia))).
  rewrite vaxpy_x_plus.
  set (vx' := Spec.x_plus alpha vx vp).
  set (s2 := <[x := vx']> s1).
  assert (Hx2 : s2 !! x = Some vx') by (apply list_lookup_insert_eq; lia).
  assert (Hr2 : s2 !! r = Some vr)
    by (unfold s2; rewrite list_lookup_insert_ne; auto).
  assert (Hp2 : s2 !! p = Some vp)
    by (unfold s2; rewrite list_lookup_insert_ne; auto).
  assert (Hy2 : s2 !! y = Some (apply vp))
    by (unfold s2; rewrite list_lookup_insert_ne; auto; lia).
  assert (Hsc2 : has_scratch s2 ui n) by now apply has_scratch_insert.
  rewrite (bind_Return _ _ _ _ _
             (axpy_run _ _ (- alpha)%float _ _ _ Hr2 Hy2 ltac:(lia))).
  rewrite vaxpy_r_minus.
  set (vr' := Spec.r_minus alpha vr (apply vp)).
  set (s3 := <[r := vr']> s2).
  assert (L2 : length s2 = length s1) by apply length_insert.
  assert (Hr3 : s3 !! r = Some vr') by (apply list_lookup_insert_eq; lia).
  assert (Hx3 : s3 !! x = Some vx')
    by (unfold s3; rewrite list_lookup_insert_ne; auto).
  assert (Hp3 : s3 !! p = Some vp)
    by (unfold s3; rewrite list_lookup_insert_ne; auto).
  assert (Hsc3 : has_scratch s3 ui n) by now apply has_scratch_insert.
  rewrite (bind_Return _ _ _ _ _ (dot_run _ _ _ _ _ Hr3 Hr3 eq_refl)).
  rewrite bind_lift.
  destruct (float_truediv (vdot vr' vr') rn) as [beta|e]; simpl; [|eauto].
  rewrite bind_lift.
  destruct (float_truediv (vdot vr' vr') r0) as [ratio|e] eqn:Eratio; simpl;
    [|eauto].
  apply float_truediv_Return in Eratio as [Hz ->].
  rewrite ltb_abs_nonneg
    by (apply fnonneg_div; auto; apply fnonneg_vdot).
  fold (Spec.below_tol (vdot vr' vr') r0 eps).
  assert (Lx' : length vx' = n) by (apply length_zip_same; auto).
  assert (Lr' : length vr' = n) by (apply length_zip_same; auto).
  destruct (Spec.below_tol (vdot vr' vr') r0 eps); simpl.
  - eexists. split; [reflexivity|]. split; [|exact Hsc3].
    unfold holds; simpl. auto 10.
  - rewrite (bind_Return _ _ _ _ _
               (aypx_run _ _ beta _ _ _ Hp3 Hr3 ltac:(lia))).
    rewrite vaypx_p_next.
    eexists. split; [reflexivity|].
    split; [|now apply has_scratch_insert].
    unfold holds; simpl.
    assert (L3 : length s3 = length s2) by apply length_insert.
    split; [rewrite list_lookup_insert_ne; auto|].
    split; [rewrite list_lookup_insert_ne; auto|].
    split; [apply list_lookup_insert_eq; lia|].
    repeat split; auto. apply length_zip_same; auto.
Qed.

Lemma cg_while_via x r p max_iter r0 eps :
  fnonneg r0 ->
  x <> ui -> r <> ui -> p <> ui ->
  forall fuel k st trace (s : store),
    holds s x r p st n -> has_scratch s ui n ->
    fuel = Z.to_nat (max_iter - k) ->
    match Spec.iterate fuel apply r0 eps k st with
    | Return (xf, kf) =>
        exists s' e,
          cg_while fuel action_A x r p max_iter r0 eps k
            (Spec.st_r_norm2 st) trace s = (s', Return e) /\
          exit_k e = kf /\ s' !! x = Some xf
    | Raise ex =>
        exists s',
          cg_while fuel action_A x r p max_iter r0 eps k
            (Spec.st_r_norm2 st) trace s = (s', Raise ex)
    end.
Proof.
  intros H0 Hxu Hru Hpu.
  induction fuel as [|fuel IH]; intros k st trace s Hs Hsc Hfuel.
  - simpl. assert (Hk : (k <? max_iter) = false) by (apply Z.ltb_ge; lia).
    rewrite Hk. eexists _, _. split; [reflexivity|]. split; [reflexivity|].
    apply Hs.
  - assert (Hk : (k <? max_iter) = true) by (apply Z.ltb_lt; lia).
    cbn [cg_while Spec.iterate]. rewrite Hk.
    pose proof (cg_body_via x r p r0 eps st s H0 Hs Hsc Hxu Hru Hpu) as Hbody.
    destruct (Spec.step apply st) as [[st' beta]|ex]; cbn [Spec.obind].
    2:{ destruct Hbody as [s' Hb]. exists s'. now apply bind_Raise. }
    destruct (float_truediv (Spec.st_r_norm2 st') r0) as [ratio|ex] eqn:Er;
      cbn [Spec.obind].
    2:{ destruct Hbody as [s' Hb]. exists s'. now apply bind_Raise. }
    apply float_truediv_Return in Er as [_ ->].
    cbv zeta in Hbody. destruct Hbody as (s' & Hb & Hs' & Hsc').
    rewrite (bind_Return _ _ _ _ _ Hb).
    fold (Spec.below_tol (Spec.st_r_norm2 st') r0 eps).
    destruct (Spec.below_tol (Spec.st_r_norm2 st') r0 eps).
    + eexists _, _. split; [reflexivity|]. split; [reflexivity|]. apply Hs'.
    + specialize (IH (k + 1) _ (trace ++ [Spec.st_r_norm2 st']) s' Hs' Hsc'
                     ltac:(lia)).
      exact IH.
Qed.

Lemma cg_init_via {libm : Libm} b x rtol (s : store) vb vx :
  s !! b = Some vb -> s !! x = Some vx ->
  length vb = n -> length vx = n ->
  has_scratch s ui n -> b <> ui -> x <> ui ->
  let st := Spec.init apply vb vx in
  exists (s0 : store) r p,
    holds s0 x r p st n /\ has_scratch s0 ui n /\ r <> ui /\ p <> ui /\
    cg_init action_A b x rtol s
    = bind (lift (float_pow2 rtol))
        (fun eps => ret (r, p, Spec.st_r_norm2 st, eps)) s0.
Proof.
  intros Hb Hx Lb Lx Hsc Hbu Hxu st.
  pose proof (lookup_lt_Some _ _ _ Hb) as Bb.
  pose proof (lookup_lt_Some _ _ _ Hx) as Bx.
  assert (Bu : (ui < length s)%nat).
  { destruct Hsc as (vu & Hu & _). exact (lookup_lt_Some _ _ _ Hu). }
  unfold cg_init.
  rewrite (bind_Return _ _ _ _ _ (duplicate_run _ _ _ Hb)).
  set (s1 := s ++ [replicate (length vb) 0%float]).
  assert (Hb1 : s1 !! b = Some vb) by (apply lookup_app_l_Some, Hb).
  assert (Hy1 : s1 !! length s = Some (replicate (length vb) 0%float))
    by (apply list_lookup_middle; reflexivity).
  rewrite (bind_Return _ _ _ _ _
             (copy_run _ _ _ _ _ Hb1 Hy1 ltac:(now rewrite length_replicate))).
  set (s2 := <[length s := vb]> s1).
  assert (Hx2 : s2 !! x = Some vx).
  { unfold s2. rewrite list_lookup_insert_ne by lia.
    apply lookup_app_l_Some, Hx. }
  assert (Hb2 : s2 !! b = Some vb).
  { unfold s2. rewrite list_lookup_insert_ne by lia. exact Hb1. }
  assert (Hsc2 : has_scratch s2 ui n).
  { apply has_scratch_insert; [lia|]. now apply has_scratch_app. }
  destruct (via_run s2 x vx Hx2 Lx Hsc2)
    as (s3 & y & HA & Hlen & Hkeep & Hsc3 & Hfresh & Hy & Ly).
  rewrite (bind_Return _ _ _ _ _ HA).
  assert (L2 : length s2 = S (length s)).
  { unfold s2, s1. rewrite length_insert, length_app. simpl. lia. }
  pose proof (Hkeep _ _ Hbu Hb2) as Hb3.
  pose proof (Hkeep _ _ Hxu Hx2) as Hx3.
  rewrite (bind_Return _ _ _ _ _ (sub_run _ _ _ _ _ Hb3 Hy ltac:(lia))).
  set (vr := vsub vb (apply vx)).
  assert (Lr : length vr = n) by (apply length_zip_same; auto).
  set (s4 := s3 ++ [vr]).
  assert (Hr4 : s4 !! length s3 = Some vr)
    by (apply list_lookup_middle; reflexivity).
  rewrite (bind_Return _ _ _ _ _ (duplicate_run _ _ _ Hr4)).
  set (s5 := s4 ++ [replicate (length vr) 0%float]).
  assert (L4 : length s4 = S (length s3)).
  { unfold s4. rewrite length_app. simpl. lia. }
  assert (Hr5 : s5 !! length s3 = Some vr) by (apply lookup_app_l_Some, Hr4).
  assert (Hp5 : s5 !! length s4 = Some (replicate (length vr) 0%float))
    by (apply list_lookup_middle; reflexivity).
  rewrite (bind_Return _ _ _ _ _
             (copy_run _ _ _ _ _ Hr5 Hp5 ltac:(now rewrite length_replicate))).
  set (s6 := <[length s4 := vr]> s5).
  assert (L5 : length s5 = S (length s4)).
  { unfold s5. rewrite length_app. simpl. lia. }
  assert (Hp6 : s6 !! length s4 = Some vr)
    by (apply list_lookup_insert_eq; lia).
  assert (Hr6 : s6 !! length s3 = Some vr).
  { unfold s6. rewrite list_lookup_insert_ne by lia. exact Hr5. }
  assert (Hx6 : s6 !! x = Some vx).
  { unfold s6. rewrite list_lookup_insert_ne by lia.
    apply lookup_app_l_Some, lookup_app_l_Some, Hx3. }
  assert (Hsc6 : has_scratch s6 ui n).
  { apply has_scratch_insert; [lia|].
    now apply has_scratch_app, has_scratch_app. }
  rewrite (bind_Return _ _ _ _ _ (ghostUpdate_run _ _ _ Hp6)).
  rewrite (bind_Return _ _ _ _ _ (dot_run _ _ _ _ _ Hr6 Hr6 eq_refl)).
  exists s6, (length s3), (length s4).
  split; [|split; [exact Hsc6|split; [lia|split; [lia|reflexivity]]]].
  unfold holds, st, Spec.init; simpl. fold vr.
  repeat split; auto; lia.
Qed.

Lemma cg_run_via {libm : Libm} b x max_iter rtol (s : store) vb vx :
  s !! b = Some vb -> s !! x = Some vx ->
  length vb = n -> length vx = n ->
  has_scratch s ui n -> b <> ui -> x <> ui ->
  let st := Spec.init apply vb vx in
  exists (s0 : store) r p,
    holds s0 x r p st n /\ has_scratch s0 ui n /\ r <> ui /\ p <> ui /\
    cg_run action_A b x max_iter rtol s
    = bind (lift (float_pow2 rtol))
        (fun eps => cg_while (Z.to_nat max_iter) action_A x r p max_iter
                      (Spec.st_r_norm2 st) eps 0 (Spec.st_r_norm2 st) [])
        s0.
Proof.
  intros Hb Hx Lb Lx Hsc Hbu Hxu st.
  destruct (cg_init_via b x rtol s vb vx Hb Hx Lb Lx Hsc Hbu Hxu)
    as (s0 & r & p & Hs0 & Hsc0 & Hru & Hpu & Hinit).
  exists s0, r, p. repeat (split; [assumption|]).
  unfold cg_run, bind at 1. rewrite Hinit. rewrite !bind_lift.
  now destruct (float_pow2 rtol).
Qed.

(** The whole of [cg] against the specification's algorithm. *)
Lemma cg_via {libm : Libm} b x max_iter rtol (s : store) vb vx :
  s !! b = Some vb -> s !! x = Some vx ->
  length vb = n -> length vx = n ->
  has_scratch s ui n -> b <> ui -> x <> ui ->
  match Spec.cg apply vb vx max_iter rtol with
  | Return (xf, kf) =>
      exists s', cg action_A b x max_iter rtol s = (s', Return kf) /\
                 s' !! x = Some xf
  | Raise ex =>
      exists s', cg action_A b x max_iter rtol s = (s', Raise ex)
  end.
Proof.
  intros Hb Hx Lb Lx Hsc Hbu Hxu.
  destruct (cg_run_via b x max_iter rtol s vb vx Hb Hx Lb Lx Hsc Hbu Hxu)
    as (s0 & r & p & Hs0 & Hsc0 & Hru & Hpu & Hrun).
  rewrite bind_lift in Hrun.
  unfold Spec.cg, cg.
  destruct (float_pow2 rtol) as [eps|ex]; cbn [Spec.obind].
  2:{ exists s0. apply bind_Raise. exact Hrun. }
  pose proof (cg_while_via x r p max_iter
                (Spec.st_r_norm2 (Spec.init apply vb vx)) eps
                (fnonneg_vdot _) Hxu Hru Hpu (Z.to_nat max_iter) 0
                (Spec.init apply vb vx) [] s0 Hs0 Hsc0
                ltac:(now rewrite Z.sub_0_r)) as Hloop.
  rewrite <- Hrun in Hloop.
  destruct (Spec.iterate _ _ _ _ _ _) as [[xf kf]|ex].
  - destruct Hloop as (s' & e & Hw & Hk & Hxf). exists s'. split; [|exact Hxf].
    rewrite (bind_Return _ _ _ _ _ Hw). unfold ret. now rewrite Hk.
  - destruct Hloop as (s' & Hw). exists s'. now apply bind_Raise.
Qed.

(** [Poisson.mult] writes the operator applied to [x] into [y]. *)
Lemma mult_via (s : store) x y vx vy :
  s !! x = Some vx -> s !! y = Some vy ->
  length vx = n -> length vy = n ->
  has_scratch s ui n -> y <> ui ->
  exists s1 : store,
    Poisson.mult action_A x y s = (<[y := apply vx]> s1, Return tt) /\
    (length s <= length s1)%nat /\
    (forall l' w, l' <> ui -> s !! l' = Some w -> s1 !! l' = Some w) /\
    has_scratch (<[y := apply vx]> s1) ui n /\
    length (apply vx) = n.
Proof.
  intros Hx Hy Lx Ly Hsc Hyu.
  destruct (via_run s x vx Hx Lx Hsc)
    as (s1 & ax & HA & Hlen & Hkeep & Hsc1 & Hfresh & Hax & Lax).
  exists s1. unfold Poisson.mult.
  rewrite (bind_Return _ _ _ _ _ HA).
  split; [|split; [exact Hlen|split; [exact Hkeep|split; [|exact Lax]]]].
  - apply (copy_run _ _ _ _ vy Hax); [exact (Hkeep _ _ Hyu Hy) | lia].
  - now apply has_scratch_insert.
Qed.

Lemma solve_body_via x r p y st (s : store) vy :
  holds s x r p st n -> has_scratch s ui n ->
  s !! y = Some vy -> length vy = n ->
  y <> x -> y <> r -> y <> p ->
  x <> ui -> r <> ui -> p <> ui -> y <> ui ->
  match Spec.step apply st with
  | Raise e =>
      exists s', CG.solve_body action_A x r p y (Spec.st_r_norm2 st) s
                 = (s', Raise e)
  | Return (st', beta) =>
      exists s', CG.solve_body action_A x r p y (Spec.st_r_norm2 st) s
                 = (s', Return (Spec.st_r_norm2 st')) /\
                 holds s' x r p (after_pass false beta st') n /\
                 has_scratch s' ui n /\
                 exists vy', s' !! y = Some vy' /\ length vy' = n
  end.
Proof.
  intros (Hx & Hr & Hp & Hxr & Hxp & Hrp & Lx & Lr & Lp) Hsc Hy Ly
    Hyx Hyr Hyp Hxu Hru Hpu Hyu.
  destruct st as [vx vr vp rn]; simpl in *.
  destruct (mult_via s p y vp vy Hp Hy Lp Ly Hsc Hyu)
    as (s1 & Hmult & Hlen & Hkeep & Hsc2 & Lap).
  pose proof (lookup_lt_Some _ _ _ Hx) as Bx.
  pose proof (lookup_lt_Some _ _ _ Hr) as Br.
  pose proof (lookup_lt_Some _ _ _ Hp) as Bp.
  pose proof (lookup_lt_Some _ _ _ Hy) as By.
  set (s2 := <[y := apply vp]> s1) in *.
  assert (L2 : length s2 = length s1) by apply length_insert.
  assert (Hx2 : s2 !! x = Some vx).
  { unfold s2. rewrite list_lookup_insert_ne by exact Hyx.
    exact (Hkeep _ _ Hxu Hx). }
  assert (Hr2 : s2 !! r = Some vr).
  { unfold s2. rewrite list_lookup_insert_ne by exact Hyr.
    exact (Hkeep _ _ Hru Hr). }
  assert (Hp2 : s2 !! p = Some vp).
  { unfold s2. rewrite list_lookup_insert_ne by exact Hyp.
    exact (Hkeep _ _ Hpu Hp). }
  assert (Hy2 : s2 !! y = Some (apply vp))
    by (apply list_lookup_insert_eq; lia).
  unfold Spec.step; simpl. unfold CG.solve_body.
  rewrite (bind_Return _ _ _ _ _ Hmult).
  rewrite (bind_Return _ _ _ _ _ (dot_run _ _ _ _ _ Hp2 Hy2 ltac:(lia))).
  rewrite bind_lift.
  destruct (float_truediv rn (vdot vp (apply vp))) as [alpha|e]; simpl;
    [|eauto].
  rewrite (bind_Return _ _ _ _ _ (axpy_run _ _ alpha _ _ _ Hx2 Hp2 ltac:(lia))).
  rewrite vaxpy_x_plus.
  set (vx' := Spec.x_plus alpha vx vp).
  set (s3 := <[x := vx']> s2).
  assert (L3 : length s3 = length s2) by apply length_insert.
  assert (Hx3 : s3 !! x = Some vx') by (apply list_lookup_insert_eq; lia).
  assert (Hr3 : s3 !! r = Some vr)
    by (unfold s3; rewrite list_lookup_insert_ne; auto).
  assert (Hp3 : s3 !! p = Some vp)
    by (unfold s3; rewrite list_lookup_insert_ne; auto).
  assert (Hy3 : s3 !! y = Some (apply vp))
    by (unfold s3; rewrite list_lookup_insert_ne; auto).
  assert (Hsc3 : has_scratch s3 ui n) by now apply has_scratch_insert.
  rewrite (bind_Return _ _ _ _ _
             (axpy_run _ _ (- alpha)%float _ _ _ Hr3 Hy3 ltac:(lia))).
  rewrite vaxpy_r_minus.
  set (vr' := Spec.r_minus alpha vr (apply vp)).
  set (s4 := <[r := vr']> s3).
  assert (L4 : length s4 = length s3) by apply length_insert.
  assert (Hr4 : s4 !! r = Some vr') by (apply list_lookup_insert_eq; lia).
  assert (Hx4 : s4 !! x = Some vx')
    by (unfold s4; rewrite list_lookup_insert_ne; auto).
  assert (Hp4 : s4 !! p = Some vp)
    by (unfold s4; rewrite list_lookup_insert_ne; auto).
  assert (Hy4 : s4 !! y = Some (apply vp))
    by (unfold s4; rewrite list_lookup_insert_ne; auto).
  assert (Hsc4 : has_scratch s4 ui n) by now apply has_scratch_insert.
  rewrite (bind_Return _ _ _ _ _ (dot_run _ _ _ _ _ Hr4 Hr4 eq_refl)).
  rewrite bind_lift.
  destruct (float_truediv (vdot vr' vr') rn) as [beta|e]; simpl; [|eauto].
  assert (Lx' : length vx' = n) by (apply length_zip_same; auto).
  assert (Lr' : length vr' = n) by (apply length_zip_same; auto).
  rewrite (bind_Return _ _ _ _ _
             (aypx_run _ _ beta _ _ _ Hp4 Hr4 ltac:(lia))).
  rewrite vaypx_p_next.
  eexists. split; [reflexivity|]. split; [|split].
  - unfold holds; simpl.
    split; [rewrite list_lookup_insert_ne; auto|].
    split; [rewrite list_lookup_insert_ne; auto|].
    split; [apply list_lookup_insert_eq; lia|].
    repeat split; auto. apply length_zip_same; auto.
  - now apply has_scratch_insert.
  - exists (apply vp). split; [|exact Lap].
    rewrite list_lookup_insert_ne by auto. exact Hy4.
Qed.

(** A run of the plugin's loop that returns has made as many passes of the
    recurrence as the iteration number grew by. *)
Lemma solve_while_via x r p y :
  y <> x -> y <> r -> y <> p ->
  x <> ui -> r <> ui -> p <> ui -> y <> ui ->
  forall fuel ksp st (s s' : store) vy ksp',
    holds s x r p st n -> has_scratch s ui n ->
    s !! y = Some vy -> length vy = n ->
    (Z.to_nat (ksp_max_it ksp - ksp_its ksp + 1) <= fuel)%nat ->
    CG.solve_while fuel action_A x r p y ksp (Spec.st_r_norm2 st) s
    = (s', Return ksp') ->
    ksp_its ksp <= ksp_its ksp' /\
    exists st',
      passes (Z.to_nat (ksp_its ksp' - ksp_its ksp)) apply st = Return st' /\
      s' !! x = Some (Spec.st_x st').
Proof.
  intros Hyx Hyr Hyp Hxu Hru Hpu Hyu.
  induction fuel as [|fuel IH];
    intros ksp st s s' vy ksp' Hs Hsc Hy Ly Hfuel H;
    cbn [CG.solve_while] in H; bind_inv H; destruct a as [ksp1 reason];
    apply converged_inv in Hrun
      as (-> & _ & Hmax & _ & _ & Hgo & Hstop & _).
  - destruct (reason =? 0) eqn:Hr.
    + apply Z.eqb_eq in Hr. destruct (Hgo Hr) as (_ & _ & Hle). lia.
    + apply Z.eqb_neq in Hr. unfold ret in H. injection H as <- <-.
      destruct (Hstop Hr) as [-> _]. split; [lia|].
      rewrite Z.sub_diag. exists st. split; [reflexivity | apply Hs].
  - destruct (reason =? 0) eqn:Hr.
    + apply Z.eqb_eq in Hr. destruct (Hgo Hr) as (Hits & _ & Hle).
      bind_inv H.
      pose proof (solve_body_via x r p y st s vy Hs Hsc Hy Ly Hyx Hyr Hyp
                    Hxu Hru Hpu Hyu) as Hbody.
      destruct (Spec.step apply st) as [[st1 beta]|e] eqn:Hstep.
      2:{ destruct Hbody as [sx Hb]. rewrite Hb in Hrun. discriminate. }
      destruct Hbody as (sx & Hb & Hs1 & Hsc1 & vy1 & Hy1 & Ly1).
      rewrite Hb in Hrun. injection Hrun as <- <-.
      change (Spec.st_r_norm2 st1)
        with (Spec.st_r_norm2 (after_pass false beta st1)) in H.
      apply (IH _ _ _ _ vy1) in H as (Hle' & st' & Hp' & Hx');
        [| exact Hs1 | exact Hsc1 | exact Hy1 | exact Ly1 | lia].
      split; [lia|]. exists st'. split; [|exact Hx'].
      replace (Z.to_nat (ksp_its ksp' - ksp_its ksp))
        with (S (Z.to_nat (ksp_its ksp' - ksp_its ksp1))) by lia.
      cbn [passes]. rewrite Hstep. exact Hp'.
    + apply Z.eqb_neq in Hr. unfold ret in H. injection H as <- <-.
      destruct (Hstop Hr) as [-> _]. split; [lia|].
      rewrite Z.sub_diag. exists st. split; [reflexivity | apply Hs].
Qed.

(** [CG.setUp] and the statements of [CG.solve] before its loop. *)
Lemma plugin_init_via ksp b x (s : store) vb vx :
  s !! b = Some vb -> s !! x = Some vx ->
  length vb = n -> length vx = n ->
  has_scratch s ui n -> b <> ui -> x <> ui ->
  let st := Spec.init apply vb vx in
  exists (s0 : store) (r p y : loc) vy,
    holds s0 x r p st n /\ has_scratch s0 ui n /\
    s0 !! y = Some vy /\ length vy = n /\
    (y <> x /\ y <> r /\ y <> p) /\
    (r <> ui /\ p <> ui /\ y <> ui) /\
    (v <- CG.setUp b ;; CG.solve action_A v ksp b x) s
    = CG.solve_while (Z.to_nat (ksp_max_it ksp - ksp_its ksp + 1))
        action_A x r p y ksp (Spec.st_r_norm2 st) s0.
Proof.
  intros Hb Hx Lb Lx Hsc Hbu Hxu st.
  pose proof (lookup_lt_Some _ _ _ Hb) as Bb.
  pose proof (lookup_lt_Some _ _ _ Hx) as Bx.
  assert (Bu : (ui < length s)%nat).
  { destruct Hsc as (vu & Hu & _). exact (lookup_lt_Some _ _ _ Hu). }
  set (z := replicate n 0%float).
  assert (Lz : length z = n) by apply length_replicate.
  (* setUp *)
  set (sA := s ++ [z]). set (sB := sA ++ [z]).
  set (sC := sB ++ [z]). set (sD := sC ++ [z]).
  assert (LA : length sA = S (length s))
    by (unfold sA; rewrite length_app; simpl; lia).
  assert (LB : length sB = S (length sA))
    by (unfold sB; rewrite length_app; simpl; lia).
  assert (LC : length sC = S (length sB))
    by (unfold sC; rewrite length_app; simpl; lia).
  assert (LD : length sD = S (length sC))
    by (unfold sD; rewrite length_app; simpl; lia).
  assert (HsetUp : CG.setUp b s
                   = (sD, Return (length s, length sA, length sB, length sC))).
  { unfold CG.setUp.
    rewrite (bind_Return _ _ _ _ _ (duplicate_run _ _ _ Hb)). rewrite Lb.
    fold z sA.
    assert (Hb1 : sA !! b = Some vb) by (apply lookup_app_l_Some, Hb).
    rewrite (bind_Return _ _ _ _ _ (duplicate_run _ _ _ Hb1)). rewrite Lb.
    fold z sB.
    assert (Hw0 : sB !! length s = Some z).
    { apply lookup_app_l_Some. apply list_lookup_middle. reflexivity. }
    rewrite (bind_Return _ _ _ _ _ (duplicate_run _ _ _ Hw0)). rewrite Lz.
    fold z sC.
    assert (Hp0 : sC !! length sB = Some z)
      by (apply list_lookup_middle; reflexivity).
    rewrite (bind_Return _ _ _ _ _ (duplicate_run _ _ _ Hp0)). rewrite Lz.
    fold z sD. reflexivity. }
  assert (HbD : sD !! b = Some vb)
    by (repeat apply lookup_app_l_Some; exact Hb).
  assert (HxD : sD !! x = Some vx)
    by (repeat apply lookup_app_l_Some; exact Hx).
  assert (HpD : sD !! length sB = Some z).
  { apply lookup_app_l_Some. apply list_lookup_middle. reflexivity. }
  assert (HyD : sD !! length sC = Some z)
    by (apply list_lookup_middle; reflexivity).
  assert (HscD : has_scratch sD ui n)
    by (repeat apply has_scratch_app; exact Hsc).
  (* b.copy(y) *)
  set (sE := <[length sC := vb]> sD).
  assert (LE : length sE = length sD) by apply length_insert.
  assert (HxE : sE !! x = Some vx)
    by (unfold sE; rewrite list_lookup_insert_ne by lia; exact HxD).
  assert (HbE : sE !! b = Some vb)
    by (unfold sE; rewrite list_lookup_insert_ne by lia; exact HbD).
  assert (HpE : sE !! length sB = Some z)
    by (unfold sE; rewrite list_lookup_insert_ne by lia; exact HpD).
  assert (HyE : sE !! length sC = Some vb)
    by (apply list_lookup_insert_eq; lia).
  assert (HscE : has_scratch sE ui n)
    by (apply has_scratch_insert; [lia | exact HscD]).
  (* A.mult(x, y) *)
  destruct (mult_via sE x (length sC) vx vb HxE HyE Lx Lb HscE ltac:(lia))
    as (sF & Hmult & HlenF & Hkeep & HscG & Lax).
  set (sG := <[length sC := apply vx]> sF) in *.
  assert (LG : length sG = length sF) by apply length_insert.
  assert (HbG : sG !! b = Some vb).
  { unfold sG. rewrite list_lookup_insert_ne by lia.
    exact (Hkeep _ _ Hbu HbE). }
  assert (HyG : sG !! length sC = Some (apply vx))
    by (apply list_lookup_insert_eq; lia).
  assert (HpG : sG !! length sB = Some z).
  { unfold sG. rewrite list_lookup_insert_ne by lia.
    apply Hkeep; [lia | exact HpE]. }
  assert (HxG : sG !! x = Some vx).
  { unfold sG. rewrite list_lookup_insert_ne by lia.
    exact (Hkeep _ _ Hxu HxE). }
  (* r = b - y *)
  set (vr := vsub vb (apply vx)).
  assert (Lr : length vr = n) by (apply length_zip_same; auto).
  set (sH := sG ++ [vr]).
  assert (LH : length sH = S (length sG))
    by (unfold sH; rewrite length_app; simpl; lia).
  assert (HrH : sH !! length sG = Some vr)
    by (apply list_lookup_middle; reflexivity).
  assert (HpH : sH !! length sB = Some z) by (apply lookup_app_l_Some, HpG).
  (* r.copy(p) *)
  set (sI := <[length sB := vr]> sH).
  assert (LI : length sI = length sH) by apply length_insert.
  assert (HpI : sI !! length sB = Some vr)
    by (apply list_lookup_insert_eq; lia).
  assert (HrI : sI !! length sG = Some vr)
    by (unfold sI; rewrite list_lookup_insert_ne by lia; exact HrH).
  assert (HxI : sI !! x = Some vx).
  { unfold sI. rewrite list_lookup_insert_ne by lia.
    apply lookup_app_l_Some, HxG. }
  assert (HyI : sI !! length sC = Some (apply vx)).
  { unfold sI. rewrite list_lookup_insert_ne by lia.
    apply lookup_app_l_Some, HyG. }
  assert (HscI : has_scratch sI ui n).
  { apply has_scratch_insert; [lia|]. apply has_scratch_app. exact HscG. }
  exists sI, (length sG), (length sB), (length sC), (apply vx).
  split; [unfold holds, st, Spec.init; simpl; fold vr;
          repeat split; auto; lia|].
  split; [exact HscI|]. split; [exact HyI|]. split; [exact Lax|].
  split; [lia|]. split; [lia|].
  rewrite (bind_Return _ _ _ _ _ HsetUp). unfold CG.solve.
  rewrite (bind_Return _ _ _ _ _
             (copy_run _ _ _ _ _ HbD HyD ltac:(now rewrite Lz))).
  fold sE. rewrite (bind_Return _ _ _ _ _ Hmult).
  rewrite (bind_Return _ _ _ _ _ (sub_run _ _ _ _ _ HbG HyG ltac:(lia))).
  fold vr sH.
  rewrite (bind_Return _ _ _ _ _
             (copy_run _ _ _ _ _ HrH HpH ltac:(now rewrite Lz))).
  fold sI.
  rewrite (bind_Return _ _ _ _ _ (ghostUpdate_run _ _ _ HpI)).
  rewrite (bind_Return _ _ _ _ _ (dot_run _ _ _ _ _ HrI HrI eq_refl)).
  reflexivity.
Qed.

End Via.

(** ** The notebook's solvers on the notebook's operator *)

Lemma bc_apply_length assemble_M bc (n : nat) :
  (forall v, length v = n -> length (assemble_M v) = n) ->
  forall v, length v = n -> length (bc_apply assemble_M bc v) = n.
Proof. intros H v Lv. unfold bc_apply. rewrite length_set_bc. now apply H. Qed.

(** [iterate] stops after a number of [passes]. *)
Lemma iterate_passes apply r0 tol2 :
  forall fuel k st xf kf,
    Spec.iterate fuel apply r0 tol2 k st = Return (xf, kf) ->
    k <= kf /\
    exists st', passes (Z.to_nat (kf - k)) apply st = Return st' /\
                Spec.st_x st' = xf.
Proof.
  induction fuel as [|fuel IH]; intros k st xf kf H; cbn [Spec.iterate] in H.
  - injection H as <- <-. split; [lia|]. rewrite Z.sub_diag. now exists st.
  - destruct (Spec.step apply st) as [[st1 beta]|e] eqn:Hstep;
      cbn [Spec.obind] in H; [|discriminate].
    destruct (float_truediv (Spec.st_r_norm2 st1) r0) as [ratio|e];
      cbn [Spec.obind] in H; [|discriminate].
    destruct (ratio <? tol2)%float.
    + injection H as <- <-. split; [lia|].
      replace (k + 1 - k) with 1 by lia.
      change (Z.to_nat 1) with 1%nat. cbn [passes]. rewrite Hstep.
      cbn [Spec.obind]. now exists (after_pass false beta st1).
    + apply IH in H as (Hle & st' & Hp & Hx). split; [lia|].
      exists st'. split; [|exact Hx].
      replace (Z.to_nat (kf - k)) with (S (Z.to_nat (kf - (k + 1)))) by lia.
      cbn [passes]. rewrite Hstep. exact Hp.
Qed.

(** X4.  The bare loop on the notebook's operator computes what the algorithm
    of the specification computes for the operator [bc_apply assemble_M bc]:
    the same count and the same [x], or the same exception. The vector [ui]
    that [action_A] overwrites is neither [b] nor [x]. *)
Theorem cg_action_A_refines_spec {libm : Libm} ui assemble_M bc (n : nat)
    b x max_iter rtol (s : store) vb vx vu :
  (forall v, length v = n -> length (assemble_M v) = n) ->
  s !! b = Some vb -> s !! x = Some vx -> s !! ui = Some vu ->
  length vb = n -> length vx = n -> length vu = n ->
  b <> ui -> x <> ui ->
  match Spec.cg (bc_apply assemble_M bc) vb vx max_iter rtol with
  | Return (xf, kf) =>
      exists s',
        cg (action_A ui assemble_M bc) b x max_iter rtol s = (s', Return kf) /\
        s' !! x = Some xf
  | Raise ex =>
      exists s',
        cg (action_A ui assemble_M bc) b x max_iter rtol s = (s', Raise ex)
  end.
Proof.
  intros Hasm Hb Hx Hu Lb Lx Lu Hbu Hxu.
  apply (cg_via ui n); auto.
  - apply action_A_implements_via.
  - now apply bc_apply_length.
  - now exists vu.
Qed.

Lemma assemble_d234_length (v : vec) :
  length v = 3%nat -> length (assemble_d234 v) = 3%nat.
Proof.
  intros Hv. unfold assemble_d234, diag. rewrite length_zip_with, Hv.
  reflexivity.
Qed.

(** In the small setting both give [x] = (0, 1/3, 1/4) after two passes. *)
Lemma cg_action_A_refines_spec_witness :
  Spec.cg (bc_apply assemble_d234 bc_first) [0; 1; 1]%float [0; 0; 0]%float
    200 1e-6%float
  = Return ([0; 0.33333333333333331; 0.25]%float, 2) /\
  match Spec.cg (bc_apply assemble_d234 bc_first) [0; 1; 1]%float
          [0; 0; 0]%float 200 1e-6%float
  with
  | Return (xf, kf) =>
      exists s', cg action_bc 0%nat 1%nat 200 1e-6%float store_bc
                 = (s', Return kf) /\
                 s' !! 1%nat = Some xf
  | Raise ex =>
      exists s', cg action_bc 0%nat 1%nat 200 1e-6%float store_bc
                 = (s', Raise ex)
  end.
Proof.
  split; [vm_compute; reflexivity|].
  apply (cg_action_A_refines_spec 2%nat assemble_d234 bc_first 3%nat 0%nat
           1%nat 200 1e-6%float store_bc [0; 1; 1]%float [0; 0; 0]%float
           [0; 0; 0]%float).
  - exact assemble_d234_length.
  - reflexivity.
  - reflexivity.
  - reflexivity.
  - reflexivity.
  - reflexivity.
  - reflexivity.
  - discriminate.
  - discriminate.
Defined.

(** X5.  The plugin solver on the notebook's operator: when [CG.solve]
    returns, [x] holds the iterate of the recurrence of the specification
    whose number is the growth of the iteration number. *)
Theorem CG_solve_iterates ui assemble_M bc (n : nat) ksp b x
    (s s' : store) ksp' vb vx vu :
  (forall v, length v = n -> length (assemble_M v) = n) ->
  s !! b = Some vb -> s !! x = Some vx -> s !! ui = Some vu ->
  length vb = n -> length vx = n -> length vu = n ->
  b <> ui -> x <> ui ->
  (v <- CG.setUp b ;; CG.solve (action_A ui assemble_M bc) v ksp b x) s
  = (s', Return ksp') ->
  ksp_its ksp <= ksp_its ksp' /\
  exists st',
    passes (Z.to_nat (ksp_its ksp' - ksp_its ksp)) (bc_apply assemble_M bc)
      (Spec.init (bc_apply assemble_M bc) vb vx) = Return st' /\
    s' !! x = Some (Spec.st_x st').
Proof.
  intros Hasm Hb Hx Hu Lb Lx Lu Hbu Hxu H.
  pose proof (action_A_implements_via ui n assemble_M bc) as Hvia.
  pose proof (bc_apply_length assemble_M bc n Hasm) as Hsize.
  destruct (plugin_init_via ui n _ _ Hvia Hsize ksp b x s vb vx Hb Hx Lb Lx
              ltac:(now exists vu) Hbu Hxu)
    as (s0 & r & p & y & vy & Hs0 & Hsc0 & Hy & Ly & (Hyx & Hyr & Hyp)
        & (Hru & Hpu & Hyu) & Hrun).
  rewrite Hrun in H.
  exact (solve_while_via ui n _ _ Hvia Hsize x r p y Hyx Hyr Hyp Hxu Hru Hpu
           Hyu _ ksp _ s0 s' vy ksp' Hs0 Hsc0 Hy Ly (Nat.le_refl _) H).
Qed.

Lemma CG_solve_iterates_witness :
  let run := (v <- CG.setUp 0%nat ;;
              CG.solve action_bc v (KSP_create 1e-6%float 200) 0%nat 1%nat)
               store_bc in
  let ksp' := returned (KSP_create 0 0) run.2 in
  ksp_its ksp' = 2 /\
  (0 <= ksp_its ksp' /\
   exists st',
     passes (Z.to_nat (ksp_its ksp' - 0)) (bc_apply assemble_d234 bc_first)
       (Spec.init (bc_apply assemble_d234 bc_first) [0; 1; 1]%float
          [0; 0; 0]%float) = Return st' /\
     run.1 !! 1%nat = Some (Spec.st_x st')).
Proof.
  intros run ksp'. split; [vm_compute; reflexivity|].
  apply (CG_solve_iterates 2%nat assemble_d234 bc_first 3%nat
           (KSP_create 1e-6%float 200) 0%nat 1%nat store_bc run.1 ksp'
           [0; 1; 1]%float [0; 0; 0]%float [0; 0; 0]%float).
  - exact assemble_d234_length.
  - reflexivity.
  - reflexivity.
  - reflexivity.
  - reflexivity.
  - reflexivity.
  - reflexivity.
  - discriminate.
  - discriminate.
  - vm_compute. reflexivity.
Defined.

(** X6.  The two solvers do the same arithmetic: started from the same store,
    the bare loop and the plugin leave the same [x] whenever they made the
    same number of passes. (That number may differ: the tests differ.) *)
Theorem cg_and_CG_solve_same_x {libm : Libm} ui assemble_M bc (n : nat) ksp b x
    max_iter rtol (s s1 s2 : store) k ksp' vb vx vu :
  (forall v, length v = n -> length (assemble_M v) = n) ->
  s !! b = Some vb -> s !! x = Some vx -> s !! ui = Some vu ->
  length vb = n -> length vx = n -> length vu = n ->
  b <> ui -> x <> ui ->
  cg (action_A ui assemble_M bc) b x max_iter rtol s = (s1, Return k) ->
  (v <- CG.setUp b ;; CG.solve (action_A ui assemble_M bc) v ksp b x) s
  = (s2, Return ksp') ->
  ksp_its ksp' - ksp_its ksp = k ->
  s1 !! x = s2 !! x.
Proof.
  intros Hasm Hb Hx Hu Lb Lx Lu Hbu Hxu Hcg Hsolve Hk.
  pose proof (action_A_implements_via ui n assemble_M bc) as Hvia.
  pose proof (bc_apply_length assemble_M bc n Hasm) as Hsize.
  assert (Hsc : has_scratch s ui n) by now exists vu.
  (* the plugin *)
  destruct (plugin_init_via ui n _ _ Hvia Hsize ksp b x s vb vx Hb Hx Lb Lx
              Hsc Hbu Hxu)
    as (s0 & r & p & y & vy & Hs0 & Hsc0 & Hy & Ly & (Hyx & Hyr & Hyp)
        & (Hru & Hpu & Hyu) & Hrun).
  rewrite Hrun in Hsolve.
  destruct (solve_while_via ui n _ _ Hvia Hsize x r p y Hyx Hyr Hyp Hxu Hru
              Hpu Hyu _ ksp _ s0 s2 vy ksp' Hs0 Hsc0 Hy Ly (Nat.le_refl _)
              Hsolve)
    as (_ & st2 & Hp2 & Hx2).
  (* the bare loop *)
  pose proof (cg_via ui n _ _ Hvia Hsize b x max_iter rtol s vb vx Hb Hx Lb Lx
                Hsc Hbu Hxu) as Hspec.
  unfold Spec.cg in Hspec.
  destruct (float_pow2 rtol) as [eps|ex]; cbn [Spec.obind] in Hspec.
  2:{ destruct Hspec as (sx & E). rewrite E in Hcg. discriminate. }
  destruct (Spec.iterate _ _ _ _ _ _) as [[xf kf]|ex] eqn:Hit.
  2:{ destruct Hspec as (sx & E). rewrite E in Hcg. discriminate. }
  destruct Hspec as (sx & E & Hx1). rewrite E in Hcg.
  injection Hcg as <- <-.
  apply iterate_passes in Hit as (_ & st1 & Hp1 & <-).
  rewrite Z.sub_0_r in Hp1. rewrite Hk, Hp1 in Hp2.
  injection Hp2 as <-. now rewrite Hx1, Hx2.
Qed.

(** In the small setting both make two passes. *)
Lemma cg_and_CG_solve_same_x_witness :
  let run1 := cg action_bc 0%nat 1%nat 200 1e-6%float store_bc in
  let run2 := (v <- CG.setUp 0%nat ;;
               CG.solve action_bc v (KSP_create 1e-6%float 200) 0%nat 1%nat)
                store_bc in
  run1.1 !! 1%nat = run2.1 !! 1%nat.
Proof.
  intros run1 run2.
  apply (cg_and_CG_solve_same_x 2%nat assemble_d234 bc_first 3%nat
           (KSP_create 1e-6%float 200) 0%nat 1%nat 200 1e-6%float store_bc
           run1.1 run2.1 2 (returned (KSP_create 0 0) run2.2)
           [0; 1; 1]%float [0; 0; 0]%float [0; 0; 0]%float).
  - exact assemble_d234_length.
  - reflexivity.
  - reflexivity.
  - reflexivity.
  - reflexivity.
  - reflexivity.
  - reflexivity.
  - discriminate.
  - discriminate.
  - vm_compute. reflexivity.
  - vm_compute. reflexivity.
  - vm_compute. reflexivity.
Defined.

(** ** The first test of the plugin, and a zero residual *)

Lemma sqrt_zero_ratio (x rtol : float) :
  (x =? 0)%float = true -> (sqrt x / sqrt x <? rtol)%float = false.
Proof.
  intros H. rewrite FloatAxioms.eqb_spec in H.
  rewrite FloatAxioms.ltb_spec, div_spec, sqrt_spec.
  destruct (Prim2SF x) as [s|s| |s m e].
  - destruct s; reflexivity.
  - destruct s; discriminate.
  - discriminate.
  - destruct s; discriminate.
Qed.

Lemma float_truediv_Raise a b e :
  float_truediv a b = Raise e -> e = ZeroDivisionError.
Proof. unfold float_truediv. destruct (b =? 0)%float; congruence. Qed.

(** With [r_norm2] zero a pass divides by zero: by [p.dot(y)] if that is
    zero, and by [r_norm2] otherwise. *)
Lemma step_zero_norm apply st :
  (Spec.st_r_norm2 st =? 0)%float = true ->
  Spec.step apply st = Raise ZeroDivisionError.
Proof.
  intros H. unfold Spec.step. cbv zeta.
  destruct (float_truediv (Spec.st_r_norm2 st) _) as [alpha|e] eqn:E;
    cbn [Spec.obind].
  - now rewrite (float_truediv_zero _ _ H).
  - now apply float_truediv_Raise in E as ->.
Qed.

(** [CustomKSP.converged] on a vector of the store. *)
Lemma converged_run ksp r (s : store) vr :
  s !! r = Some vr ->
  let nrm := sqrt (vdot vr vr) in
  let ksp1 := logConvergenceHistory nrm (setResidualNorm nrm ksp) in
  CustomKSP.converged ksp r s
  = (s, match converged ksp1 (ksp_its ksp) nrm with
        | Return reason =>
            Return (if reason =? 0
                    then (setIterationNumber (ksp_its ksp + 1) ksp1, reason)
                    else (setConvergedReason reason ksp1, reason))
        | Raise e => Raise e
        end).
Proof.
  intros Hr nrm ksp1.
  assert (Hnorm : Vec.norm r s = (s, Return nrm)).
  { unfold Vec.norm.
    now rewrite (bind_Return _ _ _ _ _ (Vec_get_run _ _ _ Hr)). }
  unfold CustomKSP.converged.
  rewrite (bind_Return _ _ _ _ _ Hnorm). fold ksp1. rewrite bind_lift.
  destruct (converged ksp1 (ksp_its ksp) nrm) as [reason|e]; [|reflexivity].
  now destruct (reason =? 0).
Qed.

(** The first test of a solve compares the norm of the residual with
    itself: the history is empty, so the norm just logged is [r0_norm]. *)
Lemma first_test ksp nrm :
  ksp_history ksp = [] -> 0 < ksp_history_max ksp ->
  ksp_its ksp <= ksp_max_it ksp ->
  converged (logConvergenceHistory nrm (setResidualNorm nrm ksp))
    (ksp_its ksp) nrm
  = Return (if (nrm / nrm <? ksp_rtol ksp)%float then CONVERGED_RTOL
            else ITERATING).
Proof.
  intros Hh Hroom Hle.
  assert (Hgt : (ksp_its ksp >? ksp_max_it ksp) = false).
  { pose proof (Zgt_cases (ksp_its ksp) (ksp_max_it ksp)) as Hc.
    destruct (_ >? _); [lia | reflexivity]. }
  apply Z.ltb_lt in Hroom.
  unfold converged, logConvergenceHistory, setResidualNorm. simpl.
  rewrite Hh. simpl. change (Z.of_nat 0) with 0. rewrite Hroom. simpl.
  rewrite Hgt.
  now destruct (_ <? _)%float.
Qed.

(** X7.  From an exact guess (a residual whose squared norm is zero) the bare
    loop on the notebook's operator never returns, whatever the tolerance:
    with [max_iter >= 1] its first pass raises [ZeroDivisionError] (and
    [rtol**2] raises [OverflowError] before that, if it overflows). *)
Theorem cg_zero_residual_raises {libm : Libm} ui assemble_M bc (n : nat)
    b x max_iter rtol (s : store) vb vx vu :
  (forall v, length v = n -> length (assemble_M v) = n) ->
  s !! b = Some vb -> s !! x = Some vx -> s !! ui = Some vu ->
  length vb = n -> length vx = n -> length vu = n ->
  b <> ui -> x <> ui ->
  0 < max_iter ->
  (let r := vsub vb (bc_apply assemble_M bc vx) in
   vdot r r =? 0)%float = true ->
  exists s',
    cg (action_A ui assemble_M bc) b x max_iter rtol s
    = (s', Raise match float_pow2 rtol with
                 | Return _ => ZeroDivisionError
                 | Raise e => e
                 end).
Proof.
  intros Hasm Hb Hx Hu Lb Lx Lu Hbu Hxu Hmax Hzero.
  pose proof (action_A_implements_via ui n assemble_M bc) as Hvia.
  pose proof (bc_apply_length assemble_M bc n Hasm) as Hsize.
  pose proof (cg_via ui n _ _ Hvia Hsize b x max_iter rtol s vb vx Hb Hx Lb Lx
                ltac:(now exists vu) Hbu Hxu) as Hspec.
  unfold Spec.cg in Hspec.
  destruct (float_pow2 rtol) as [eps|ex]; cbn [Spec.obind] in Hspec;
    [|exact Hspec].
  replace (Z.to_nat max_iter) with (S (Z.to_nat (max_iter - 1))) in Hspec
    by lia.
  cbn [Spec.iterate] in Hspec.
  rewrite step_zero_norm in Hspec by exact Hzero. exact Hspec.
Qed.

Lemma cg_zero_residual_raises_witness :
  exists s',
    cg action_bc 0%nat 1%nat 200 1e-6%float store_bc_exact
    = (s', Raise ZeroDivisionError).
Proof.
  change (exists s',
            cg action_bc 0%nat 1%nat 200 1e-6%float store_bc_exact
            = (s', Raise match float_pow2 1e-6%float with
                         | Return _ => ZeroDivisionError
                         | Raise e => e
                         end)).
  apply (cg_zero_residual_raises 2%nat assemble_d234 bc_first 3%nat 0%nat
           1%nat 200 1e-6%float store_bc_exact [0; 3; 4]%float
           [0; 1; 1]%float [0; 0; 0]%float).
  - exact assemble_d234_length.
  - reflexivity.
  - reflexivity.
  - reflexivity.
  - reflexivity.
  - reflexivity.
  - reflexivity.
  - discriminate.
  - discriminate.
  - lia.
  - vm_compute. reflexivity.
Defined.

(** X8.  The same for the plugin, started with an empty convergence history:
    the first test divides zero by zero, finds NaN not below [rtol], and lets
    the first pass run, which raises [ZeroDivisionError]. *)
Theorem CG_solve_zero_residual_raises ui assemble_M bc (n : nat) ksp b x
    (s : store) vb vx vu :
  (forall v, length v = n -> length (assemble_M v) = n) ->
  s !! b = Some vb -> s !! x = Some vx -> s !! ui = Some vu ->
  length vb = n -> length vx = n -> length vu = n ->
  b <> ui -> x <> ui ->
  ksp_history ksp = [] -> 0 < ksp_history_max ksp ->
  ksp_its ksp <= ksp_max_it ksp ->
  (let r := vsub vb (bc_apply assemble_M bc vx) in
   vdot r r =? 0)%float = true ->
  exists s',
    (v <- CG.setUp b ;; CG.solve (action_A ui assemble_M bc) v ksp b x) s
    = (s', Raise ZeroDivisionError).
Proof.
  intros Hasm Hb Hx Hu Lb Lx Lu Hbu Hxu Hh Hroom Hle Hzero.
  pose proof (action_A_implements_via ui n assemble_M bc) as Hvia.
  pose proof (bc_apply_length assemble_M bc n Hasm) as Hsize.
  destruct (plugin_init_via ui n _ _ Hvia Hsize ksp b x s vb vx Hb Hx Lb Lx
              ltac:(now exists vu) Hbu Hxu)
    as (s0 & r & p & y & vy & Hs0 & Hsc0 & Hy & Ly & (Hyx & Hyr & Hyp)
        & (Hru & Hpu & Hyu) & Hrun).
  rewrite Hrun.
  replace (Z.to_nat (ksp_max_it ksp - ksp_its ksp + 1))
    with (S (Z.to_nat (ksp_max_it ksp - ksp_its ksp))) by lia.
  cbn [CG.solve_while].
  pose proof Hs0 as (_ & Hr & _).
  pose proof (converged_run ksp r s0 _ Hr) as Htest. cbv zeta in Htest.
  rewrite first_test in Htest by assumption.
  cbn [Spec.init Spec.st_r] in Htest.
  rewrite sqrt_zero_ratio in Htest by exact Hzero.
  change (ITERATING =? 0) with true in Htest. cbv iota in Htest.
  rewrite (bind_Return _ _ _ _ _ Htest).
  pose proof (solve_body_via ui n _ _ Hvia Hsize x r p y _ s0 vy Hs0 Hsc0 Hy
                Ly Hyx Hyr Hyp Hxu Hru Hpu Hyu) as Hbody.
  rewrite step_zero_norm in Hbody by exact Hzero.
  destruct Hbody as (s' & Hb'). exists s'. now apply bind_Raise.
Qed.

Lemma CG_solve_zero_residual_raises_witness :
  exists s',
    (v <- CG.setUp 0%nat ;;
     CG.solve action_bc v (KSP_create 1e-6%float 200) 0%nat 1%nat)
      store_bc_exact
    = (s', Raise ZeroDivisionError).
Proof.
  apply (CG_solve_zero_residual_raises 2%nat assemble_d234 bc_first 3%nat
           (KSP_create 1e-6%float 200) 0%nat 1%nat store_bc_exact
           [0; 3; 4]%float [0; 1; 1]%float [0; 0; 0]%float).
  - exact assemble_d234_length.
  - reflexivity.
  - reflexivity.
  - reflexivity.
  - reflexivity.
  - reflexivity.
  - reflexivity.
  - discriminate.
  - discriminate.
  - reflexivity.
  - simpl. lia.
  - simpl. lia.
  - vm_compute. reflexivity.
Defined.

(** X9.  With a tolerance above 1 the plugin, started with an empty history,
    makes no pass at all: the first test finds the ratio 1 of the residual
    norm to itself below [rtol]. It returns [CONVERGED_RTOL] with the
    iteration number and [x] as they were. (The norm of the initial residual
    is finite and not zero.) *)
Theorem CG_solve_loose_tolerance ui assemble_M bc (n : nat) ksp b x
    (s : store) vb vx vu :
  (forall v, length v = n -> length (assemble_M v) = n) ->
  s !! b = Some vb -> s !! x = Some vx -> s !! ui = Some vu ->
  length vb = n -> length vx = n -> length vu = n ->
  b <> ui -> x <> ui ->
  ksp_history ksp = [] -> 0 < ksp_history_max ksp ->
  ksp_its ksp <= ksp_max_it ksp ->
  (1 <? ksp_rtol ksp)%float = true ->
  (let r := vsub vb (bc_apply assemble_M bc vx) in
   is_finite (sqrt (vdot r r)) = true /\
   (sqrt (vdot r r) =? 0)%float = false) ->
  exists s' ksp',
    (v <- CG.setUp b ;; CG.solve (action_A ui assemble_M bc) v ksp b x) s
    = (s', Return ksp') /\
    ksp_its ksp' = ksp_its ksp /\ ksp_reason ksp' = CONVERGED_RTOL /\
    s' !! x = Some vx.
Proof.
  intros Hasm Hb Hx Hu Lb Lx Lu Hbu Hxu Hh Hroom Hle Hrtol [Hfin Hnz].
  pose proof (action_A_implements_via ui n assemble_M bc) as Hvia.
  pose proof (bc_apply_length assemble_M bc n Hasm) as Hsize.
  destruct (plugin_init_via ui n _ _ Hvia Hsize ksp b x s vb vx Hb Hx Lb Lx
              ltac:(now exists vu) Hbu Hxu)
    as (s0 & r & p & y & vy & Hs0 & Hsc0 & Hy & Ly & (Hyx & Hyr & Hyp)
        & (Hru & Hpu & Hyu) & Hrun).
  rewrite Hrun.
  replace (Z.to_nat (ksp_max_it ksp - ksp_its ksp + 1))
    with (S (Z.to_nat (ksp_max_it ksp - ksp_its ksp))) by lia.
  cbn [CG.solve_while].
  pose proof Hs0 as (Hx0 & Hr & _).
  pose proof (converged_run ksp r s0 _ Hr) as Htest. cbv zeta in Htest.
  rewrite first_test in Htest by assumption.
  cbn [Spec.init Spec.st_r] in Htest.
  rewrite (float_div_self_finite _ Hfin Hnz), Hrtol in Htest.
  change (CONVERGED_RTOL =? 0) with false in Htest. cbv iota in Htest.
  rewrite (bind_Return _ _ _ _ _ Htest).
  eexists _, _. split; [reflexivity|].
  split; [|split; [reflexivity | exact Hx0]].
  cbn [setConvergedReason ksp_its].
  now rewrite (proj1 (logConvergenceHistory_its _ _)).
Qed.

Lemma CG_solve_loose_tolerance_witness :
  exists s' ksp',
    (v <- CG.setUp 0%nat ;;
     CG.solve action_bc v (KSP_create 2%float 200) 0%nat 1%nat) store_bc
    = (s', Return ksp') /\
    ksp_its ksp' = 0 /\ ksp_reason ksp' = CONVERGED_RTOL /\
    s' !! 1%nat = Some [0; 0; 0]%float.
Proof.
  apply (CG_solve_loose_tolerance 2%nat assemble_d234 bc_first 3%nat
           (KSP_create 2%float 200) 0%nat 1%nat store_bc
           [0; 1; 1]%float [0; 0; 0]%float [0; 0; 0]%float).
  - exact assemble_d234_length.
  - reflexivity.
  - reflexivity.
  - reflexivity.
  - reflexivity.
  - reflexivity.
  - reflexivity.
  - discriminate.
  - discriminate.
  - reflexivity.
  - simpl. lia.
  - simpl. lia.
  - vm_compute. reflexivity.
  - split; vm_compute; reflexivity.
Defined.

(** X10.  With a tolerance of at most 1 (or NaN) the plugin, started with an
    empty history and an iteration number within [max_it], never returns
    without a pass: whatever the callable, the first test compares the
    residual norm with itself, and 1 (or NaN) is not below [rtol]. *)
Theorem CG_solve_first_pass action_A vectors ksp b x (s s' : store) ksp' :
  ksp_history ksp = [] -> 0 < ksp_history_max ksp ->
  ksp_its ksp <= ksp_max_it ksp ->
  (1 <? ksp_rtol ksp)%float = false ->
  CG.solve action_A vectors ksp b x s = (s', Return ksp') ->
  ksp_its ksp < ksp_its ksp'.
Proof.
  intros Hh Hroom Hle Hrtol H.
  unfold CG.solve in H. destruct vectors as [[[w0 w1] p] y].
  do 6 bind_inv H.
  apply dot_inv in Hrun4 as [-> (vr & _ & Hr & _)].
  revert H.
  replace (Z.to_nat (ksp_max_it ksp - ksp_its ksp + 1))
    with (S (Z.to_nat (ksp_max_it ksp - ksp_its ksp))) by lia.
  cbn [CG.solve_while]. intros H.
  apply bind_inv_Return in H as (s5 & out & Hconv & H).
  pose proof (converged_run ksp _ _ _ Hr) as Htest. cbv zeta in Htest.
  rewrite first_test in Htest by assumption.
  rewrite ltb_div_self in Htest by exact Hrtol.
  change (ITERATING =? 0) with true in Htest. cbv iota in Htest.
  rewrite Htest in Hconv. injection Hconv as <- <-.
  change (ITERATING =? 0) with true in H. cbv iota in H.
  bind_inv H.
  pose proof (logConvergenceHistory_its (sqrt (vdot vr vr))
                (setResidualNorm (sqrt (vdot vr vr)) ksp)) as [Hits Hmax].
  apply solve_while_post in H as (_ & _ & Hend).
  - cbn [setIterationNumber ksp_its ksp_max_it] in Hend.
    rewrite Hmax in Hend. cbn [setResidualNorm ksp_max_it] in Hend. lia.
  - cbn [setIterationNumber ksp_its ksp_max_it].
    rewrite Hmax. cbn [setResidualNorm ksp_max_it]. lia.
Qed.

Lemma CG_solve_first_pass_witness :
  let run := CG.solve action_d12 (2%nat, 3%nat, 4%nat, 5%nat)
               (KSP_create 1e-6%float 200) 0%nat 1%nat
               (store_d12 ++ [[0; 0]; [0; 0]; [0; 0]; [0; 0]]%float) in
  0 < ksp_its (returned (KSP_create 0 0) run.2).
Proof.
  intros run.
  apply (CG_solve_first_pass action_d12 (2%nat, 3%nat, 4%nat, 5%nat)
           (KSP_create 1e-6%float 200) 0%nat 1%nat
           (store_d12 ++ [[0; 0]; [0; 0]; [0; 0]; [0; 0]]%float) run.1
           (returned (KSP_create 0 0) run.2)).
  - reflexivity.
  - simpl. lia.
  - simpl. lia.
  - vm_compute. reflexivity.
  - vm_compute. reflexivity.
Defined.

(** ** What the plugin leaves alone *)

Section PluginFrames.

Variable l : loc.
Variable action_A : loc -> M loc.
Hypothesis Hact : preserves l action_A.

Lemma frames_mult x y :
  y <> l -> frames l (Poisson.mult action_A x y) (fun _ => True).
Proof.
  intros Hy. unfold Poisson.mult.
  eapply frames_bind; [now apply frames_action|]. intros ax _.
  now apply frames_copy.
Qed.

Lemma frames_converged ksp r :
  frames l (CustomKSP.converged ksp r) (fun _ => True).
Proof.
  unfold CustomKSP.converged, Vec.norm.
  eapply frames_bind.
  { eapply frames_bind; [apply frames_get|]. intros v _.
    apply (frames_ret l _ (fun _ => True)). exact I. }
  intros nrm _.
  eapply frames_bind; [apply frames_lift|]. intros reason _.
  destruct (reason =? 0); now apply frames_ret.
Qed.

Lemma frames_solve_body x r p y rn :
  x <> l -> r <> l -> p <> l -> y <> l ->
  frames l (CG.solve_body action_A x r p y rn) (fun _ => True).
Proof.
  intros Hx Hr Hp Hy. unfold CG.solve_body.
  eapply frames_bind; [now apply frames_mult|]. intros _ _.
  eapply frames_bind; [apply frames_dot|]. intros py _.
  eapply frames_bind; [apply frames_lift|]. intros alpha _.
  eapply frames_bind; [now apply frames_axpy|]. intros _ _.
  eapply frames_bind; [now apply frames_axpy|]. intros _ _.
  eapply frames_bind; [apply frames_dot|]. intros rnn _.
  eapply frames_bind; [apply frames_lift|]. intros beta _.
  eapply frames_bind; [now apply frames_aypx|]. intros _ _.
  now apply frames_ret.
Qed.

Lemma frames_solve_while x r p y :
  x <> l -> r <> l -> p <> l -> y <> l ->
  forall fuel ksp rn,
    frames l (CG.solve_while fuel action_A x r p y ksp rn) (fun _ => True).
Proof.
  intros Hx Hr Hp Hy.
  induction fuel as [|fuel IH]; intros ksp rn; cbn [CG.solve_while].
  - eapply frames_bind; [apply frames_converged|]. intros [ksp1 reason] _.
    destruct (reason =? 0); now apply frames_ret.
  - eapply frames_bind; [apply frames_converged|]. intros [ksp1 reason] _.
    destruct (reason =? 0); [|now apply frames_ret].
    eapply frames_bind; [now apply frames_solve_body|]. intros rn' _.
    apply IH.
Qed.

Lemma frames_setUp b :
  frames l (CG.setUp b) (fun v => v.1.2 <> l /\ v.2 <> l).
Proof.
  unfold CG.setUp.
  eapply frames_bind; [apply frames_duplicate|]. intros w0 _.
  eapply frames_bind; [apply frames_duplicate|]. intros w1 _.
  eapply frames_bind; [apply frames_duplicate|]. intros p Hp.
  eapply frames_bind; [apply frames_duplicate|]. intros y Hy.
  now apply frames_ret.
Qed.

Lemma frames_solve vectors ksp b x :
  x <> l -> vectors.1.2 <> l -> vectors.2 <> l ->
  frames l (CG.solve action_A vectors ksp b x) (fun _ => True).
Proof.
  destruct vectors as [[[w0 w1] p] y]. simpl. intros Hx Hp Hy.
  unfold CG.solve.
  eapply frames_bind; [now apply frames_copy|]. intros _ _.
  eapply frames_bind; [now apply frames_mult|]. intros _ _.
  eapply frames_bind; [apply frames_sub|]. intros r Hr.
  eapply frames_bind; [now apply frames_copy|]. intros _ _.
  eapply frames_bind; [apply frames_ghostUpdate|]. intros _ _.
  eapply frames_bind; [apply frames_dot|]. intros rn _.
  now apply frames_solve_while.
Qed.

End PluginFrames.

(** X11.  The plugin, set up and run, changes no vector that was there before
    other than [x] and what the callable itself changes; in particular not the
    right-hand side [b], when [b] is not [x]. This holds however the call
    ends. *)
Theorem CG_solve_preserves action_A ksp b x (s : store) (l : loc) :
  (l < length s)%nat -> l <> x -> preserves l action_A ->
  ((v <- CG.setUp b ;; CG.solve action_A v ksp b x) s).1 !! l = s !! l.
Proof.
  intros Hl Hx Hact.
  assert (H : frames l (v <- CG.setUp b ;; CG.solve action_A v ksp b x)
                (fun _ => True)).
  { eapply frames_bind; [apply frames_setUp|].
    intros v [Hp Hy]. apply frames_solve; auto. }
  apply (H s Hl).
Qed.

Lemma CG_solve_preserves_witness :
  ((v <- CG.setUp 0%nat ;;
    CG.solve action_bc v (KSP_create 1e-6%float 200) 0%nat 1%nat)
     store_bc).1 !! 0%nat
  = store_bc !! 0%nat.
Proof.
  apply (CG_solve_preserves action_bc (KSP_create 1e-6%float 200) 0%nat 1%nat
           store_bc 0%nat).
  - simpl. lia.
  - discriminate.
  - apply action_A_preserves. discriminate.
Defined.

(** ** The bare loop with no pass allowed *)

(** X12.  With [max_iter <= 0] a call of [cg] that returns returns 0 and has
    not touched [x] (the callable leaving [x] alone).  It has still applied
    the operator once, to [x], for the initial residual: the store it leaves
    is the one that application left, followed by the residual [b - y] as
    [r] and as [p]. *)
Theorem cg_no_pass {libm : Libm} action_A b x max_iter rtol (s s' : store)
    k vx :
  max_iter <= 0 ->
  s !! x = Some vx -> preserves x action_A ->
  cg action_A b x max_iter rtol s = (s', Return k) ->
  k = 0 /\ s' !! x = Some vx /\
  exists vb s2 y vb' vy,
    s !! b = Some vb /\
    action_A x (s ++ [vb]) = (s2, Return y) /\
    s2 !! b = Some vb' /\ s2 !! y = Some vy /\
    s' = s2 ++ [vsub vb' vy; vsub vb' vy].
Proof.
  intros Hmax Hx Hact H.
  apply cg_Return_inv in H as (e & Hrun & <-).
  unfold cg_run in Hrun. bind_inv Hrun. destruct a as [[[r p] rn] eps].
  pose proof (frames_cg_init x action_A Hact b x rtol s
                (lookup_lt_Some _ _ _ Hx)) as (Hkeep & _).
  rewrite Hrun0 in Hkeep. simpl in Hkeep.
  apply cg_init_store in Hrun0
    as (vb & s2 & y & vb' & vy & Hb & HA & Hb' & Hy & Hs0 & _).
  replace (Z.to_nat max_iter) with 0%nat in Hrun by lia.
  cbn [cg_while] in Hrun.
  assert (Hk : (0 <? max_iter) = false) by (apply Z.ltb_ge; lia).
  rewrite Hk in Hrun. unfold ret in Hrun. injection Hrun as <- <-.
  split; [reflexivity|]. split; [now rewrite Hkeep|].
  exists vb, s2, y, vb', vy. auto.
Qed.

Lemma cg_no_pass_witness :
  let run := cg action_bc 0%nat 1%nat 0 1e-6%float store_bc in
  returned 7 run.2 = 0 /\ run.1 !! 1%nat = Some [0; 0; 0]%float /\
  exists vb s2 y vb' vy,
    store_bc !! 0%nat = Some vb /\
    action_bc 1%nat (store_bc ++ [vb]) = (s2, Return y) /\
    s2 !! 0%nat = Some vb' /\ s2 !! y = Some vy /\
    run.1 = s2 ++ [vsub vb' vy; vsub vb' vy].
Proof.
  intros run.
  apply (cg_no_pass action_bc 0%nat 1%nat 0 1e-6%float store_bc run.1
           (returned 7 run.2) [0; 0; 0]%float).
  - lia.
  - reflexivity.
  - apply action_A_preserves. discriminate.
  - vm_compute. reflexivity.
Defined.

(** ** [Poisson.mult] *)

(** X13.  [Poisson.mult(A, x, y)] on the notebook's operator: [y] receives the
    operator applied to [x]; besides, [ui] holds a copy of [x] and the vector
    that [action_A] assembled stays in the store. When what was assembled has
    not the size of [y], PETSc's error is raised after [ui] was overwritten. *)
Theorem Poisson_mult_effect ui assemble_M bc x y (s : store) vx vu vy :
  s !! x = Some vx -> s !! ui = Some vu -> s !! y = Some vy ->
  length vx = length vu -> y <> ui ->
  let ax := bc_apply assemble_M bc vx in
  let s1 := <[ui := vx]> s ++ [ax] in
  (length (assemble_M vx) = length vy ->
   Poisson.mult (action_A ui assemble_M bc) x y s
   = (<[y := ax]> s1, Return tt)) /\
  (length (assemble_M vx) <> length vy ->
   Poisson.mult (action_A ui assemble_M bc) x y s = (s1, Raise PetscError)).
Proof.
  intros Hx Hu Hy Hlen Hyu ax s1.
  pose proof (action_A_run ui assemble_M bc x s vx vu Hx Hu Hlen) as HA.
  fold ax in HA. fold s1 in HA.
  pose proof (lookup_lt_Some _ _ _ Hy) as By.
  assert (Hy1 : s1 !! y = Some vy).
  { unfold s1. rewrite lookup_app_l by (rewrite length_insert; lia).
    rewrite list_lookup_insert_ne by auto. exact Hy. }
  assert (Hax : s1 !! length s = Some ax).
  { unfold s1.
    replace (length s) with (length (<[ui := vx]> s)) at 1
      by apply length_insert.
    apply list_lookup_middle. reflexivity. }
  assert (Lax : length ax = length (assemble_M vx))
    by apply length_set_bc.
  unfold Poisson.mult. rewrite (bind_Return _ _ _ _ _ HA).
  split; intros Hsz.
  - apply (copy_run _ _ _ _ vy Hax Hy1). congruence.
  - unfold Vec.copy.
    rewrite (bind_Return _ _ _ _ _ (Vec_get_run _ _ _ Hax)).
    rewrite (bind_Return _ _ _ _ _ (Vec_get_run _ _ _ Hy1)).
    apply bind_Raise. unfold same_size.
    assert (E : Nat.eqb (length ax) (length vy) = false)
      by (apply Nat.eqb_neq; congruence).
    now rewrite E.
Qed.

(** [b] = (0, 1, 1) multiplied into [x] in the small setting. *)
Lemma Poisson_mult_effect_witness :
  Poisson.mult action_bc 0%nat 1%nat store_bc
  = ([[0; 1; 1]; [0; 3; 4]; [0; 1; 1]; [0; 3; 4]]%float, Return tt).
Proof.
  apply (Poisson_mult_effect 2%nat assemble_d234 bc_first 0%nat 1%nat
           store_bc [0; 1; 1]%float [0; 0; 0]%float [0; 0; 0]%float).
  - reflexivity.
  - reflexivity.
  - reflexivity.
  - reflexivity.
  - discriminate.
  - reflexivity.
Defined.

(** ** The convergence history *)

Lemma solve_while_history action_A x r p y :
  forall fuel ksp rn (s s' : store) ksp',
    (Z.to_nat (ksp_max_it ksp - ksp_its ksp + 1) <= fuel)%nat ->
    CG.solve_while fuel action_A x r p y ksp rn s = (s', Return ksp') ->
    Z.of_nat (length (ksp_history ksp)) + (ksp_its ksp' - ksp_its ksp) + 1
    <= ksp_history_max ksp ->
    exists more,
      ksp_history ksp' = ksp_history ksp ++ more /\
      Z.of_nat (length more) = ksp_its ksp' - ksp_its ksp + 1 /\
      List.last more 0%float = ksp_rnorm ksp'.
Proof.
  assert (Hstop : forall ksp ksp1 reason (s s1 : store),
             CustomKSP.converged ksp r s = (s1, Return (ksp1, reason)) ->
             reason <> ITERATING ->
             Z.of_nat (length (ksp_history ksp)) + (ksp_its ksp1 - ksp_its ksp)
             + 1 <= ksp_history_max ksp ->
             exists more,
               ksp_history ksp1 = ksp_history ksp ++ more /\
               Z.of_nat (length more) = ksp_its ksp1 - ksp_its ksp + 1 /\
               List.last more 0%float = ksp_rnorm ksp1).
  { intros ksp ksp1 reason s s1 Hc Hr Hroom.
    pose proof (converged_inv_history _ _ _ _ _ _ Hc) as [_ Hh].
    apply converged_inv in Hc as (_ & _ & _ & _ & _ & _ & Hs & _).
    destruct (Hs Hr) as [Hits _]. rewrite Hits in Hroom |- *.
    assert (Hlt : (Z.of_nat (length (ksp_history ksp)) <? ksp_history_max ksp)
                  = true) by (apply Z.ltb_lt; lia).
    rewrite Hlt in Hh. exists [ksp_rnorm ksp1].
    split; [exact Hh|]. split; [simpl; lia | reflexivity]. }
  induction fuel as [|fuel IH]; intros ksp rn s s' ksp' Hfuel H Hroom;
    cbn [CG.solve_while] in H; bind_inv H; destruct a as [ksp1 reason].
  - destruct (reason =? 0) eqn:Hr.
    + apply Z.eqb_eq in Hr.
      apply converged_inv in Hrun as (_ & _ & _ & _ & _ & Hgo & _).
      destruct (Hgo Hr) as (_ & _ & Hle). lia.
    + apply Z.eqb_neq in Hr. unfold ret in H. injection H as _ <-.
      exact (Hstop _ _ _ _ _ Hrun Hr Hroom).
  - destruct (reason =? 0) eqn:Hr.
    + apply Z.eqb_eq in Hr.
      pose proof (converged_inv_history _ _ _ _ _ _ Hrun) as [Hmaxh Hh].
      apply converged_inv in Hrun as (_ & _ & Hmax & _ & _ & Hgo & _).
      destruct (Hgo Hr) as (Hits & _ & Hle).
      bind_inv H.
      assert (Hfuel1 : (Z.to_nat (ksp_max_it ksp1 - ksp_its ksp1 + 1)
                        <= fuel)%nat) by lia.
      pose proof (solve_while_post _ _ _ _ _ _ _ _ _ _ _ Hfuel1 H)
        as (_ & _ & Hend).
      assert (Hge : ksp_its ksp1 <= ksp_its ksp') by lia.
      assert (Hlt : (Z.of_nat (length (ksp_history ksp)) <? ksp_history_max ksp)
                    = true) by (apply Z.ltb_lt; lia).
      rewrite Hlt in Hh.
      apply IH in H as (more & Hh' & Hlen & Hlast); [|lia|].
      2:{ rewrite Hh, Hmaxh, length_app. simpl. lia. }
      exists (ksp_rnorm ksp1 :: more).
      split; [rewrite Hh', Hh, <- app_assoc; reflexivity|].
      split; [simpl length; lia|].
      destruct more as [|m more]; [simpl in Hlen; lia|].
      rewrite last_cons_default in Hlast. rewrite !last_cons_default.
      exact Hlast.
    + apply Z.eqb_neq in Hr. unfold ret in H. injection H as _ <-.
      exact (Hstop _ _ _ _ _ Hrun Hr Hroom).
Qed.

(** X14.  The plugin logs the residual norm at every test, one more than it
    makes passes: when [CG.solve] returns and the history had room for them,
    the history has grown by as many norms as the iteration number grew, plus
    one, and the last of them is the recorded residual norm. *)
Theorem CG_solve_history action_A vectors ksp b x (s s' : store) ksp' :
  CG.solve action_A vectors ksp b x s = (s', Return ksp') ->
  Z.of_nat (length (ksp_history ksp)) + (ksp_its ksp' - ksp_its ksp) + 1
  <= ksp_history_max ksp ->
  exists more,
    ksp_history ksp' = ksp_history ksp ++ more /\
    Z.of_nat (length more) = ksp_its ksp' - ksp_its ksp + 1 /\
    List.last more 0%float = ksp_rnorm ksp'.
Proof.
  unfold CG.solve. destruct vectors as [[[w0 w1] p] y]. intros H Hroom.
  do 6 bind_inv H.
  apply (solve_while_history _ _ _ _ _ _ _ _ _ _ _ (Nat.le_refl _) H Hroom).
Qed.

Lemma CG_solve_history_witness :
  let run := CG.solve action_d12 (2%nat, 3%nat, 4%nat, 5%nat)
               (KSP_create 1e-6%float 200) 0%nat 1%nat
               (store_d12 ++ [[0; 0]; [0; 0]; [0; 0]; [0; 0]]%float) in
  let ksp' := returned (KSP_create 0 0) run.2 in
  (ksp_its ksp' = 2 /\ length (ksp_history ksp') = 3%nat) /\
  exists more,
    ksp_history ksp' = [] ++ more /\
    Z.of_nat (length more) = ksp_its ksp' - 0 + 1 /\
    List.last more 0%float = ksp_rnorm ksp'.
Proof.
  intros run ksp'. split; [split; vm_compute; reflexivity|].
  apply (CG_solve_history action_d12 (2%nat, 3%nat, 4%nat, 5%nat)
           (KSP_create 1e-6%float 200) 0%nat 1%nat
           (store_d12 ++ [[0; 0]; [0; 0]; [0; 0]; [0; 0]]%float) run.1 ksp').
  - vm_compute. reflexivity.
  - vm_compute. discriminate.
Defined.

Lemma first_test_no_room ksp nrm :
  ksp_history ksp = [] -> ksp_history_max ksp <= 0 ->
  ksp_its ksp <= ksp_max_it ksp ->
  converged (logConvergenceHistory nrm (setResidualNorm nrm ksp))
    (ksp_its ksp) nrm
  = Raise IndexError.
Proof.
  intros Hh Hroom Hle.
  assert (Hgt : (ksp_its ksp >? ksp_max_it ksp) = false).
  { pose proof (Zgt_cases (ksp_its ksp) (ksp_max_it ksp)) as Hc.
    destruct (_ >? _); [lia | reflexivity]. }
  apply Z.ltb_ge in Hroom.
  unfold converged, logConvergenceHistory, setResidualNorm. simpl.
  rewrite Hh. simpl. change (Z.of_nat 0) with 0. rewrite Hroom. simpl.
  now rewrite Hgt.
Qed.

(** X15.  The convergence test reads the first norm of the history. On a
    solver object whose history has no room (no [setConvergenceHistory]) the
    first test of the plugin raises [IndexError], before any pass; [x] is as
    it was. *)
Theorem CG_solve_needs_history ui assemble_M bc (n : nat) ksp b x
    (s : store) vb vx vu :
  (forall v, length v = n -> length (assemble_M v) = n) ->
  s !! b = Some vb -> s !! x = Some vx -> s !! ui = Some vu ->
  length vb = n -> length vx = n -> length vu = n ->
  b <> ui -> x <> ui ->
  ksp_history ksp = [] -> ksp_history_max ksp <= 0 ->
  ksp_its ksp <= ksp_max_it ksp ->
  exists s',
    (v <- CG.setUp b ;; CG.solve (action_A ui assemble_M bc) v ksp b x) s
    = (s', Raise IndexError) /\
    s' !! x = Some vx.
Proof.
  intros Hasm Hb Hx Hu Lb Lx Lu Hbu Hxu Hh Hroom Hle.
  pose proof (action_A_implements_via ui n assemble_M bc) as Hvia.
  pose proof (bc_apply_length assemble_M bc n Hasm) as Hsize.
  destruct (plugin_init_via ui n _ _ Hvia Hsize ksp b x s vb vx Hb Hx Lb Lx
              ltac:(now exists vu) Hbu Hxu)
    as (s0 & r & p & y & vy & Hs0 & _ & _ & _ & _ & _ & Hrun).
  rewrite Hrun.
  replace (Z.to_nat (ksp_max_it ksp - ksp_its ksp + 1))
    with (S (Z.to_nat (ksp_max_it ksp - ksp_its ksp))) by lia.
  cbn [CG.solve_while].
  pose proof Hs0 as (Hx0 & Hr & _).
  pose proof (converged_run ksp r s0 _ Hr) as Htest. cbv zeta in Htest.
  rewrite first_test_no_room in Htest by assumption.
  exists s0. split; [|exact Hx0]. now apply bind_Raise.
Qed.

Lemma CG_solve_needs_history_witness :
  exists s',
    (v <- CG.setUp 0%nat ;;
     CG.solve action_bc v (MkKSP 0 1e-6%float 200 [] 0 0%float ITERATING)
       0%nat 1%nat) store_bc
    = (s', Raise IndexError) /\
    s' !! 1%nat = Some [0; 0; 0]%float.
Proof.
  apply (CG_solve_needs_history 2%nat assemble_d234 bc_first 3%nat
           (MkKSP 0 1e-6%float 200 [] 0 0%float ITERATING) 0%nat 1%nat
           store_bc [0; 1; 1]%float [0; 0; 0]%float [0; 0; 0]%float).
  - exact assemble_d234_length.
  - reflexivity.
  - reflexivity.
  - reflexivity.
  - reflexivity.
  - reflexivity.
  - reflexivity.
  - discriminate.
  - discriminate.
  - reflexivity.
  - simpl. lia.
  - simpl. lia.
Defined.

(** ** A guess of the wrong size *)



(** ** Breakdown in a pass of the plugin *)

(** X17.  A pass of [CG.solve] on the notebook's operator whose direction
    [p] has zero curvature ([p.dot(y)] is a zero) raises
    [ZeroDivisionError] when it computes [alpha]: [y] holds the operator
    applied to [p] by then, and [x], [r] and [p] are as they were. *)
Theorem CG_pass_zero_curvature ui assemble_M bc (n : nat) x r p y rn
    (s : store) vx vr vp vy vu :
  (forall v, length v = n -> length (assemble_M v) = n) ->
  s !! x = Some vx -> s !! r = Some vr -> s !! p = Some vp ->
  s !! y = Some vy -> s !! ui = Some vu ->
  length vp = n -> length vy = n -> length vu = n ->
  x <> y -> r <> y -> p <> y ->
  x <> ui -> r <> ui -> p <> ui -> y <> ui ->
  (vdot vp (bc_apply assemble_M bc vp) =? 0)%float = true ->
  exists s' : store,
    CG.solve_body (action_A ui assemble_M bc) x r p y rn s
    = (s', Raise ZeroDivisionError) /\
    s' !! x = Some vx /\ s' !! r = Some vr /\ s' !! p = Some vp /\
    s' !! y = Some (bc_apply assemble_M bc vp).
Proof.
  intros Hasm Hx Hr Hp Hy Hu Lp Ly Lu Hxy Hry Hpy Hxu Hru Hpu Hyu Hzero.
  pose proof (action_A_implements_via ui n assemble_M bc) as Hvia.
  pose proof (bc_apply_length assemble_M bc n Hasm) as Hsize.
  destruct (mult_via ui n _ _ Hvia Hsize s p y vp vy Hp Hy Lp Ly
              ltac:(now exists vu) Hyu)
    as (s1 & Hmult & Hlen & Hkeep & _ & Lap).
  pose proof (lookup_lt_Some _ _ _ Hy) as By.
  set (s2 := <[y := bc_apply assemble_M bc vp]> s1) in *.
  assert (Hx2 : s2 !! x = Some vx).
  { unfold s2. rewrite list_lookup_insert_ne by auto.
    exact (Hkeep _ _ Hxu Hx). }
  assert (Hr2 : s2 !! r = Some vr).
  { unfold s2. rewrite list_lookup_insert_ne by auto.
    exact (Hkeep _ _ Hru Hr). }
  assert (Hp2 : s2 !! p = Some vp).
  { unfold s2. rewrite list_lookup_insert_ne by auto.
    exact (Hkeep _ _ Hpu Hp). }
  assert (Hy2 : s2 !! y = Some (bc_apply assemble_M bc vp))
    by (apply list_lookup_insert_eq; lia).
  exists s2. split; [|auto].
  unfold CG.solve_body.
  rewrite (bind_Return _ _ _ _ _ Hmult).
  rewrite (bind_Return _ _ _ _ _ (dot_run _ _ _ _ _ Hp2 Hy2 ltac:(lia))).
  apply bind_Raise. unfold lift. now rewrite float_truediv_zero.
Qed.

(** A direction on the boundary only: the operator maps (1, 0, 0) to zero. *)
Lemma CG_pass_zero_curvature_witness :
  let s := [[0; 0; 0]; [1; 0; 0]; [1; 0; 0]; [7; 7; 7]; [0; 0; 0]]%float in
  exists s' : store,
    CG.solve_body (action_A 4%nat assemble_d234 bc_first) 0%nat 1%nat 2%nat
      3%nat 1%float s
    = (s', Raise ZeroDivisionError) /\
    s' !! 0%nat = Some [0; 0; 0]%float /\ s' !! 1%nat = Some [1; 0; 0]%float /\
    s' !! 2%nat = Some [1; 0; 0]%float /\
    s' !! 3%nat = Some (bc_apply assemble_d234 bc_first [1; 0; 0]%float).
Proof.
  intros s.
  apply (CG_pass_zero_curvature 4%nat assemble_d234 bc_first 3%nat 0%nat
           1%nat 2%nat 3%nat 1%float s [0; 0; 0]%float [1; 0; 0]%float
           [1; 0; 0]%float [7; 7; 7]%float [0; 0; 0]%float);
    try reflexivity; try discriminate.
  exact assemble_d234_length.
Defined.
